(** * node-cache-redis: the connection pool, the command dispatcher,
      the cached-script bulk delete and the store facade.

    A shallow embedding of [src/src/RedisStore.ts] (the [RedisStore] class
    followed by the [RedisPool] prototype it extends).  Promises are modelled
    by their outcome ([Resolved] / [Rejected]); the libraries the code calls
    (generic-pool, retry-as-promised, the redis client and server) are
    modelled only as far as the code relies on them. *)

From Stdlib Require Import ZArith List String Ascii Bool Lia PeanoNat Arith.
From Stdlib Require Import Decimal DecimalString DecimalZ DecimalPos DecimalFacts.
Import ListNotations.
Local Open Scope list_scope.

(** ** Shared vocabulary *)

(** A JavaScript [Error]: the fields the code reads or writes. *)
Record js_error := mkError {
  err_name : string;
  err_code : string;
  err_message : string
}.

(** The outcome of a promise once it has settled. *)
Inductive outcome (A : Type) : Type :=
| Resolved (a : A)
| Rejected (e : js_error).
Arguments Resolved {A} a.
Arguments Rejected {A} e.

Definition js_error_eqb (a b : js_error) : bool :=
  String.eqb (err_name a) (err_name b)
  && String.eqb (err_code a) (err_code b)
  && String.eqb (err_message a) (err_message b).

(** JavaScript values, as far as the store moves them around: what a caller
    passes to [set], what is handed to [send_command] and what the client
    library gives back.  [JNum z] is the number [z], an integer of the safe
    range (at most 2^53 - 1 in magnitude); [JFloat literal] is any other
    number, named by a literal that denotes it: the development does not
    compute with such numbers, and two literals may name the same one.  A
    string is its UTF-8 bytes, as they travel to the server (a surrogate
    that stands alone is written in the same scheme, in three bytes).  An
    object is its list of own properties in enumeration order: the keys
    that are array indices first, in ascending order, then the other keys
    in the order in which they were defined. *)
#[local] Unset Elimination Schemes.
Inductive js_value : Type :=
| JNull
| JBool (b : bool)
| JNum (z : Z)
| JFloat (literal : string)
| JStr (s : string)
| JArr (l : list js_value)
| JObj (l : list (string * js_value)).
#[local] Set Elimination Schemes.

(** ** The connection pool and the command dispatcher ([RedisPool]) *)

Module Pool.

(** What [factory.create] resolves with: a live client (by identity) or, once
    the attempts are used up, an [Error] object passed as a value. *)
Inductive resource : Type :=
| Client (c : nat)
| ErrorValue (e : js_error).

Definition is_client (c : nat) (r : resource) : bool :=
  match r with
  | Client c' => Nat.eqb c c'
  | ErrorValue _ => false
  end.

(** What happens at the boundary of the pool, in the order it happens. *)
Inductive event : Type :=
| EConnect (attempt : nat) (failure : option js_error)
| EBorrow (priority : nat) (r : resource)
| ESelect (c : nat) (db : Z) (failure : option js_error)
| ESend (c : nat) (selected_db : Z) (name : string) (args : option (list js_value))
| ERelease (c : nat)
| EReleaseRefused (c : nat)
| ELogError (e : js_error).

(** [redisOptions] and [poolOptions], as far as the code reads them. *)
Record options := mkOptions {
  redis_db : option Z;          (* redisOptions.db *)
  priorityRange : option nat;   (* poolOptions.priorityRange *)
  pool_max : nat                (* poolOptions.max *)
}.

Section WithBackend.

(** The server behind the connections: its state, and what it answers to a
    command sent on client [c], whose selected database is [db]. *)
Variable B : Type.
Variable send_command :
  nat -> Z -> string -> option (list js_value) -> B -> outcome js_value * B.
(** Whether the [k]-th connection establishment of the process fails. *)
Variable connect_failure : nat -> option js_error.
(** Whether SELECT [db] on client [c] fails, given what happened so far. *)
Variable select_failure : list event -> nat -> Z -> option js_error.

Variable opts : options.

(** The pool (generic-pool's bookkeeping), the connections' selected
    databases, the server and the trace. *)
Record world := mkWorld {
  available : list nat;
  borrowed : list resource;
  next_client : nat;
  connects : nat;
  selected : list (nat * Z);
  backend : B;
  trace : list event
}.

Definition log (e : event) (w : world) : world :=
  mkWorld (available w) (borrowed w) (next_client w) (connects w)
          (selected w) (backend w) (trace w ++ [e]).

Definition set_backend (b : B) (w : world) : world :=
  mkWorld (available w) (borrowed w) (next_client w) (connects w)
          (selected w) b (trace w).

Fixpoint lookup_db (c : nat) (sel : list (nat * Z)) : Z :=
  match sel with
  | [] => 0%Z
  | (c', d) :: rest => if Nat.eqb c c' then d else lookup_db c rest
  end.

Definition selected_db (c : nat) (w : world) : Z := lookup_db c (selected w).

Definition set_selected (c : nat) (d : Z) (w : world) : world :=
  mkWorld (available w) (borrowed w) (next_client w) (connects w)
          ((c, d) :: selected w) (backend w) (trace w).

(** [create(redisOptions)]: one establishment attempt.  The promise resolves
    with the new client on 'connect' and rejects on 'error'.  The client
    library selects [redisOptions.db] on a connection it opens. *)
Definition create (w : world) : outcome nat * world :=
  let k := connects w in
  let w1 := mkWorld (available w) (borrowed w) (next_client w) (S k)
                    (selected w) (backend w) (trace w) in
  match connect_failure k with
  | Some err => (Rejected err, log (EConnect k (Some err)) w1)
  | None =>
      let c := next_client w in
      let d := match redis_db opts with Some d => d | None => 0%Z end in
      let w2 := mkWorld (available w1) (borrowed w1) (S c) (connects w1)
                        ((c, d) :: selected w1) (backend w1) (trace w1) in
      (Resolved c, log (EConnect k None) w2)
  end.

(** The error [factory.create] resolves with when it gives up. *)
Definition conn_failed : js_error :=
  mkError "CONN_FAILED" "" "Failed redis createClient".

(** retry-as-promised: call [fn] again after a rejection, [max] calls at
    most; the last rejection is the result when they are used up. *)
Fixpoint retry_loop {A S : Type} (more : nat) (fn : S -> outcome A * S) (s : S)
  : outcome A * S :=
  match fn s with
  | (Resolved a, s') => (Resolved a, s')
  | (Rejected e, s') =>
      match more with
      | O => (Rejected e, s')
      | S n => retry_loop n fn s'
      end
  end.

Definition retry {A S : Type} (max : nat) (fn : S -> outcome A * S) (s : S)
  : outcome A * S :=
  retry_loop (pred max) fn s.

(** The callback [factory.create] hands to [retry]; its state is the
    closed-over counter [createAttempts] and the world. *)
Definition create_callback (s : nat * world) : outcome resource * (nat * world) :=
  let createAttempts := fst s + 1 in
  let w := snd s in
  if 3 <? createAttempts then
    (* reset for next try *)
    (Resolved (ErrorValue conn_failed), (0, w))
  else
    match create w with
    | (Resolved c, w') => (Resolved (Client c), (createAttempts, w'))
    | (Rejected e, w') => (Rejected e, (createAttempts, w'))
    end.

Definition factory_create (w : world) : outcome resource * world :=
  let createAttempts := 0 in
  let r := retry 10 create_callback (createAttempts, w) in
  (fst r, snd (snd r)).

Definition pool_size (w : world) : nat :=
  List.length (available w) + List.length (borrowed w).

(** generic-pool's [acquire(priority)]: an available resource if there is
    one, else a new one from the factory while the pool is below its
    maximum, else the request waits ([None]).  A rejection of the factory
    leaves the request waiting as well. *)
Definition pool_acquire (priority : nat) (w : world) : option (resource * world) :=
  match available w with
  | c :: rest =>
      let w1 := mkWorld rest (Client c :: borrowed w) (next_client w)
                        (connects w) (selected w) (backend w) (trace w) in
      Some (Client c, log (EBorrow priority (Client c)) w1)
  | [] =>
      if pool_size w <? pool_max opts then
        match factory_create w with
        | (Resolved r, w1) =>
            let w2 := mkWorld (available w1) (r :: borrowed w1) (next_client w1)
                              (connects w1) (selected w1) (backend w1) (trace w1) in
            Some (r, log (EBorrow priority r) w2)
        | (Rejected _, _) => None
        end
      else None
  end.

Fixpoint remove_client (c : nat) (l : list resource) : list resource :=
  match l with
  | [] => []
  | r :: rest => if is_client c r then rest else r :: remove_client c rest
  end.

(** generic-pool's [release(resource)]: a resource on loan goes back to the
    end of the available queue; anything else is refused (a rejected
    promise, nothing changes). *)
Definition pool_release (c : nat) (w : world) : world :=
  if existsb (is_client c) (borrowed w) then
    log (ERelease c)
        (mkWorld (available w ++ [c]) (remove_client c (borrowed w))
                 (next_client w) (connects w) (selected w) (backend w) (trace w))
  else log (EReleaseRefused c) w.

(** [selectDB(client, db)]. *)
Definition selectDB (c : nat) (db : Z) (w : world) : outcome nat * world :=
  match select_failure (trace w) c db with
  | Some err => (Rejected err, log (ESelect c db (Some err)) w)
  | None => (Resolved c, log (ESelect c db None) (set_selected c db w))
  end.

(** JavaScript truthiness of an optional number. *)
Definition truthyZ (x : option Z) : bool :=
  match x with
  | Some z => negb (Z.eqb z 0)
  | None => false
  end.

(** [RedisPool.prototype.acquire(priority, db)]. *)
Definition acquire (priority : nat) (db : option Z) (w : world)
  : option (outcome nat * world) :=
  match pool_acquire priority w with
  | None => None
  | Some (ErrorValue e, w1) => Some (Rejected e, w1)       (* throw client *)
  | Some (Client c, w1) =>
      match db with
      | Some d => if truthyZ db then Some (selectDB c d w1)
                  else Some (Resolved c, w1)
      | None => Some (Resolved c, w1)
      end
  end.

(** [RedisPool.prototype.release(client)]. *)
Definition release (c : nat) (w : world) : world := pool_release c w.

(** [util.promisify(undefined)] throws this. *)
Definition promisify_type_error : js_error :=
  mkError "TypeError" "ERR_INVALID_ARG_TYPE"
          "The original argument must be of type function".

(** [poolOptions.priorityRange || 1]. *)
Definition acquire_priority : nat :=
  match priorityRange opts with
  | Some 0 => 1
  | Some n => n
  | None => 1
  end.

(** [RedisPool.prototype.sendCommand(commandName, commandArgs)].  It calls
    the underlying pool's [acquire], which takes the priority only: the
    second argument ([redisOptions.db]) is dropped. *)
Definition sendCommand (commandName : string) (commandArgs : list js_value)
  (w : world) : option (outcome js_value * world) :=
  let args := [] ++ commandArgs in
  match pool_acquire acquire_priority w with
  | None => None
  | Some (ErrorValue _, w1) => Some (Rejected promisify_type_error, w1)
  | Some (Client conn, w1) =>
      let sent := match args with [] => None | _ => Some args end in
      let db := selected_db conn w1 in
      let w2 := log (ESend conn db commandName sent) w1 in
      match send_command conn db commandName sent (backend w2) with
      | (Resolved result, b) =>
          Some (Resolved result, pool_release conn (set_backend b w2))
      | (Rejected error, b) =>
          Some (Rejected error,
                log (ELogError error) (pool_release conn (set_backend b w2)))
      end
  end.

(** [RedisPool.prototype.getPoolSize()] and [availableCount()]: the
    underlying pool's [size] and [available]. *)
Definition getPoolSize (w : world) : nat := pool_size w.

Definition availableCount (w : world) : nat := List.length (available w).

(** *** What the dispatcher and the factory guarantee *)

(** Whether the [k] establishment attempts from the [n]-th on all fail. *)
Fixpoint fails_from (n k : nat) : bool :=
  match k with
  | O => true
  | S k' =>
      match connect_failure n with
      | Some _ => fails_from (S n) k'
      | None => false
      end
  end.

(** What a call leaves alone in the pool. *)
Definition same_pool (w w' : world) : Prop :=
  available w' = available w /\ borrowed w' = borrowed w
  /\ backend w' = backend w.

Lemma same_pool_refl w : same_pool w w.
Proof. repeat split. Qed.

Lemma same_pool_trans w1 w2 w3 :
  same_pool w1 w2 -> same_pool w2 w3 -> same_pool w1 w3.
Proof.
  unfold same_pool; intros (A1 & A2 & A3) (B1 & B2 & B3).
  repeat split; congruence.
Qed.

Lemma create_same_pool w : same_pool w (snd (create w)).
Proof.
  unfold create. destruct (connect_failure (connects w)); repeat split.
Qed.

Lemma create_callback_same_pool a w :
  same_pool w (snd (snd (create_callback (a, w)))).
Proof.
  unfold create_callback; simpl.
  destruct (3 <? a + 1); simpl; [apply same_pool_refl|].
  pose proof (create_same_pool w) as H.
  destruct (create w) as [[c|e] w']; exact H.
Qed.

Lemma retry_loop_same_pool more : forall a w,
  same_pool w (snd (snd (retry_loop more create_callback (a, w)))).
Proof.
  induction more as [|n IH]; intros a w; simpl;
    pose proof (create_callback_same_pool a w) as H;
    destruct (create_callback (a, w)) as [[r|e] [a' w']]; simpl in *; auto.
  eapply same_pool_trans; [exact H|apply IH].
Qed.

Lemma factory_create_same_pool w : same_pool w (snd (factory_create w)).
Proof. unfold factory_create, retry. cbv zeta. apply retry_loop_same_pool. Qed.

Lemma pool_acquire_on_loan priority w r w1 :
  pool_acquire priority w = Some (r, w1) ->
  borrowed w1 = r :: borrowed w /\ available w1 = tl (available w)
  /\ backend w1 = backend w.
Proof.
  unfold pool_acquire.
  destruct (available w) as [|c rest] eqn:Hav.
  - destruct (pool_size w <? pool_max opts); [|discriminate].
    pose proof (factory_create_same_pool w) as (H1 & H2 & H3).
    destruct (factory_create w) as [[r'|e] w'] eqn:Hf; [|discriminate].
    intros H; inversion H; subst; clear H. simpl in *.
    rewrite H1, H2, H3, Hav. auto.
  - intros H; inversion H; subst; clear H. simpl. auto.
Qed.

Lemma remove_client_head c rest :
  remove_client c (Client c :: rest) = rest.
Proof. simpl. now rewrite Nat.eqb_refl. Qed.

(** C1. Every command dispatched through [sendCommand] on a connection the
    pool handed out is sent once, and the connection is released exactly
    once after it, whether the command succeeds or fails: the pool's loans
    are as before the call, the connection is back at the end of the
    available queue, and the caller gets the command's own outcome. *)
Theorem sendCommand_releases_exactly_once :
  forall (name : string) (args : list js_value) (w w1 : world) (conn : nat),
    pool_acquire acquire_priority w = Some (Client conn, w1) ->
    exists w2 : world,
      sendCommand name args w
      = Some (fst (send_command conn (selected_db conn w1) name
                     (match args with [] => None | _ => Some args end)
                     (backend w1)), w2)
      /\ backend w2
         = snd (send_command conn (selected_db conn w1) name
                  (match args with [] => None | _ => Some args end)
                  (backend w1))
      /\ borrowed w2 = borrowed w
      /\ available w2 = tl (available w) ++ [conn]
      /\ trace w2
         = trace w1
           ++ [ESend conn (selected_db conn w1) name
                 (match args with [] => None | _ => Some args end);
               ERelease conn]
           ++ match fst (send_command conn (selected_db conn w1) name
                           (match args with [] => None | _ => Some args end)
                           (backend w1)) with
              | Resolved _ => []
              | Rejected e => [ELogError e]
              end.
Proof.
  intros name args w w1 conn Hacq.
  destruct (pool_acquire_on_loan _ _ _ _ Hacq) as (Hb & Ha & Hk).
  unfold sendCommand. rewrite Hacq. change ([] ++ args) with args. cbv zeta.
  set (sent := match args with [] => None | _ => Some args end).
  set (db := selected_db conn w1).
  change (backend (log (ESend conn db name sent) w1)) with (backend w1).
  destruct (send_command conn db name sent (backend w1)) as [[v|e] b] eqn:Hs;
    unfold pool_release; simpl borrowed; rewrite Hb; simpl existsb;
    rewrite Nat.eqb_refl; simpl orb; cbv iota;
    eexists; (split; [reflexivity|]); simpl;
    rewrite Nat.eqb_refl, Ha, <- !app_assoc; simpl; auto.
Qed.

(** With an idle connection at the head of the queue, the command goes to
    the server on it and the connection goes to the end of the queue. *)
Lemma sendCommand_idle (name : string) (args : list js_value) (w : world)
  (c : nat) (rest : list nat) :
  available w = c :: rest ->
  exists w2 : world,
    sendCommand name args w
    = Some (fst (send_command c (selected_db c w) name
                   (match args with [] => None | _ => Some args end)
                   (backend w)), w2)
    /\ backend w2
       = snd (send_command c (selected_db c w) name
                (match args with [] => None | _ => Some args end)
                (backend w))
    /\ available w2 = rest ++ [c].
Proof.
  intros Hav. unfold sendCommand, pool_acquire. rewrite Hav.
  change ([] ++ args) with args. cbv zeta.
  set (sent := match args with [] => None | _ => Some args end).
  set (w1 := log (EBorrow acquire_priority (Client c))
               (mkWorld rest (Client c :: borrowed w) (next_client w)
                  (connects w) (selected w) (backend w) (trace w))).
  change (selected_db c w1) with (selected_db c w).
  change (backend (log (ESend c (selected_db c w) name sent) w1)) with (backend w).
  destruct (send_command c (selected_db c w) name sent (backend w)) as [[v|e] b];
    unfold pool_release; simpl; rewrite Nat.eqb_refl; simpl;
    eexists; repeat split.
Qed.

(** ... and neither the loans nor the databases selected on the connections
    change. *)
Lemma sendCommand_idle_keeps (name : string) (args : list js_value) (w : world)
  (c : nat) (rest : list nat) (o : outcome js_value) (w2 : world) :
  available w = c :: rest ->
  sendCommand name args w = Some (o, w2) ->
  selected w2 = selected w /\ borrowed w2 = borrowed w.
Proof.
  intros Hav. unfold sendCommand, pool_acquire. rewrite Hav.
  change ([] ++ args) with args. cbv zeta.
  match goal with
  | |- context [send_command ?a ?b ?n ?s ?k] =>
      destruct (send_command a b n s k) as [[v|e] b']
  end; unfold pool_release; simpl; rewrite Nat.eqb_refl; simpl;
    intros H; inversion H; subst; simpl; auto.
Qed.

(** One failed establishment attempt through the callback. *)
Lemma create_callback_fails a w :
  a < 3 -> fails_from (connects w) 1 = true ->
  exists e w',
    create_callback (a, w) = (Rejected e, (a + 1, w'))
    /\ connects w' = S (connects w)
    /\ next_client w' = next_client w.
Proof.
  intros Ha Hf. simpl in Hf.
  unfold create_callback, create. simpl fst; simpl snd.
  replace (3 <? a + 1) with false by (symmetry; apply Nat.ltb_ge; lia).
  destruct (connect_failure (connects w)) as [e|]; [|discriminate].
  exists e. eexists. split; [reflexivity|]. simpl. auto.
Qed.

Lemma create_callback_succeeds a w :
  a < 3 -> connect_failure (connects w) = None ->
  exists w',
    create_callback (a, w) = (Resolved (Client (next_client w)), (a + 1, w'))
    /\ connects w' = S (connects w).
Proof.
  intros Ha Hf.
  unfold create_callback, create. simpl fst; simpl snd.
  replace (3 <? a + 1) with false by (symmetry; apply Nat.ltb_ge; lia).
  rewrite Hf. eexists. split; [reflexivity|]. reflexivity.
Qed.

Lemma fails_from_S n k :
  fails_from n (S k) = true ->
  fails_from n 1 = true /\ fails_from (S n) k = true.
Proof.
  simpl. destruct (connect_failure n); [auto|discriminate].
Qed.

(** [k] failed attempts in a row use up [k] calls of the retry loop. *)
Lemma retry_loop_fails k : forall a w more,
  a + k <= 3 -> k <= more -> fails_from (connects w) k = true ->
  exists w',
    retry_loop more create_callback (a, w)
    = retry_loop (more - k) create_callback (a + k, w')
    /\ connects w' = connects w + k
    /\ next_client w' = next_client w.
Proof.
  induction k as [|k IH]; intros a w more Ha Hm Hf.
  - exists w. rewrite Nat.sub_0_r, !Nat.add_0_r. auto.
  - destruct (fails_from_S _ _ Hf) as (H1 & Hk).
    destruct (create_callback_fails a w ltac:(lia) H1) as (e & w1 & Hc & Hn & Hx).
    destruct more as [|more]; [lia|].
    simpl retry_loop at 1. rewrite Hc.
    rewrite <- Hn in Hk.
    destruct (IH (a + 1) w1 more ltac:(lia) ltac:(lia) Hk) as (w' & Hr & Hn' & Hx').
    exists w'. rewrite Hr. simpl Nat.sub.
    replace (a + 1 + k) with (a + S k) by lia.
    repeat split; [lia|congruence].
Qed.

Lemma retry_loop_gives_up more w :
  retry_loop more create_callback (3, w)
  = (Resolved (ErrorValue conn_failed), (0, w)).
Proof. destruct more; reflexivity. Qed.

Lemma factory_create_succeeds w k :
  k < 3 -> fails_from (connects w) k = true ->
  connect_failure (connects w + k) = None ->
  exists w',
    factory_create w = (Resolved (Client (next_client w)), w')
    /\ connects w' = connects w + k + 1.
Proof.
  intros Hk Hf Hok.
  destruct (retry_loop_fails k 0 w 9 ltac:(lia) ltac:(lia) Hf) as (w1 & Hr & Hn & Hx).
  rewrite <- Hn in Hok.
  destruct (create_callback_succeeds (0 + k) w1 ltac:(lia) Hok) as (w' & Hc & Hn').
  exists w'. unfold factory_create, retry. cbv zeta. simpl pred. rewrite Hr.
  destruct (9 - k) as [|m] eqn:Hm; [lia|].
  simpl retry_loop. change (0 + k) with k in Hc. rewrite Hc. simpl. rewrite Hx. split; [reflexivity|lia].
Qed.

Lemma factory_create_gives_up w :
  fails_from (connects w) 3 = true ->
  exists w',
    factory_create w = (Resolved (ErrorValue conn_failed), w')
    /\ connects w' = connects w + 3.
Proof.
  intros Hf.
  destruct (retry_loop_fails 3 0 w 9 ltac:(lia) ltac:(lia) Hf) as (w1 & Hr & Hn & Hx).
  exists w1. unfold factory_create, retry. cbv zeta. simpl pred. rewrite Hr.
  simpl Nat.add. rewrite retry_loop_gives_up. simpl. auto.
Qed.

(** C6 (as the code has it). Connection creation makes at most 3
    establishment attempts: when one of the first three succeeds, the
    earlier ones having failed, the acquiring caller gets the live
    connection and sees no error; when all three fail, the factory resolves
    (it does not reject) with the error object named CONN_FAILED, no further
    attempt is made, and [acquire] rejects with that object. *)
Theorem factory_create_three_attempts :
  forall (w : world) (priority : nat),
    available w = [] ->
    pool_size w < pool_max opts ->
    (forall k, k < 3 ->
       fails_from (connects w) k = true ->
       connect_failure (connects w + k) = None ->
       exists w', acquire priority None w = Some (Resolved (next_client w), w')
                  /\ connects w' = connects w + k + 1)
    /\ (fails_from (connects w) 3 = true ->
        exists w1, factory_create w = (Resolved (ErrorValue conn_failed), w1)
                   /\ connects w1 = connects w + 3
                   /\ err_name conn_failed = "CONN_FAILED"%string
                   /\ forall db, exists w',
                        acquire priority db w = Some (Rejected conn_failed, w')
                        /\ connects w' = connects w + 3).
Proof.
  intros w priority Hav Hsz. apply Nat.ltb_lt in Hsz. split.
  - intros k Hk Hf Hok.
    destruct (factory_create_succeeds w k Hk Hf Hok) as (w' & Hc & Hn).
    unfold acquire, pool_acquire. rewrite Hav, Hsz, Hc.
    eexists. split; [reflexivity|]. simpl. exact Hn.
  - intros Hf.
    destruct (factory_create_gives_up w Hf) as (w1 & Hc & Hn).
    exists w1. repeat split; auto.
    intros db. unfold acquire, pool_acquire. rewrite Hav, Hsz, Hc.
    eexists. split; [reflexivity|]. simpl. exact Hn.
Qed.

(** *** The factory, [acquire] and [release] beyond the first connection *)

(** X1. [factory.create] never rejects, whatever the connection failures:
    it resolves after one to three establishment attempts, with the new
    client when one of them succeeds and with the CONN_FAILED error object
    exactly when all three fail; the ten calls [retry] allows are never
    used up. *)
Theorem factory_create_never_rejects :
  forall w : world,
    exists (r : resource) (w' : world),
      factory_create w = (Resolved r, w')
      /\ connects w < connects w' <= connects w + 3
      /\ same_pool w w'
      /\ (fails_from (connects w) 3 = true -> r = ErrorValue conn_failed)
      /\ (fails_from (connects w) 3 = false -> r = Client (next_client w)).
Proof.
  intros w.
  pose proof (factory_create_same_pool w) as Hsame.
  destruct (fails_from (connects w) 3) eqn:H3.
  - destruct (factory_create_gives_up w H3) as (w' & Hc & Hn).
    rewrite Hc in Hsame. exists (ErrorValue conn_failed), w'.
    repeat split; auto; try lia; try apply Hsame; discriminate.
  - assert (Hk : exists k, k < 3 /\ fails_from (connects w) k = true
                           /\ connect_failure (connects w + k) = None).
    { simpl in H3.
      destruct (connect_failure (connects w)) as [e0|] eqn:E0.
      - destruct (connect_failure (S (connects w))) as [e1|] eqn:E1.
        + destruct (connect_failure (S (S (connects w)))) as [e2|] eqn:E2;
            [discriminate|].
          exists 2. simpl. rewrite E0, E1.
          replace (connects w + 2) with (S (S (connects w))) by lia. auto.
        + exists 1. simpl. rewrite E0.
          replace (connects w + 1) with (S (connects w)) by lia. auto.
      - exists 0. simpl. rewrite Nat.add_0_r. auto. }
    destruct Hk as (k & Hk & Hf & Hok).
    destruct (factory_create_succeeds w k Hk Hf Hok) as (w' & Hc & Hn).
    rewrite Hc in Hsame. exists (Client (next_client w)), w'.
    repeat split; auto; try lia; try apply Hsame; discriminate.
Qed.

Lemma pool_acquire_gives_up (priority : nat) (w : world) :
  available w = [] -> pool_size w < pool_max opts ->
  fails_from (connects w) 3 = true ->
  exists w' : world,
    pool_acquire priority w = Some (ErrorValue conn_failed, w')
    /\ available w' = []
    /\ borrowed w' = ErrorValue conn_failed :: borrowed w
    /\ backend w' = backend w
    /\ connects w' = connects w + 3.
Proof.
  intros Hav Hsz Hf. apply Nat.ltb_lt in Hsz.
  pose proof (factory_create_same_pool w) as (H1 & H2 & H3).
  destruct (factory_create_gives_up w Hf) as (w1 & Hc & Hn).
  rewrite Hc in H1, H2, H3. simpl in H1, H2, H3.
  unfold pool_acquire. rewrite Hav, Hsz, Hc.
  eexists. split; [reflexivity|]. simpl. rewrite H1, H2, H3, Hav. auto.
Qed.

Lemma pool_acquire_waits (priority : nat) (w : world) :
  available w = [] -> pool_max opts <= pool_size w ->
  pool_acquire priority w = None.
Proof.
  intros Hav Hsz. unfold pool_acquire. rewrite Hav.
  now replace (pool_size w <? pool_max opts) with false
    by (symmetry; apply Nat.ltb_ge; lia).
Qed.

(** X2. When the three establishment attempts fail, [acquire] rejects with
    the CONN_FAILED object, and that object stays in the pool as a resource
    on loan: the pool's size has grown by one and nothing is available.  If
    that was the pool's last free slot, every later [acquire] and
    [sendCommand] waits, whether the server can be reached by then or not. *)
Theorem failed_acquire_keeps_its_slot :
  forall (w : world) (priority : nat) (db : option Z),
    available w = [] ->
    pool_size w < pool_max opts ->
    fails_from (connects w) 3 = true ->
    exists w' : world,
      acquire priority db w = Some (Rejected conn_failed, w')
      /\ getPoolSize w' = S (getPoolSize w)
      /\ availableCount w' = 0
      /\ borrowed w' = ErrorValue conn_failed :: borrowed w
      /\ (pool_max opts = S (pool_size w) ->
          (forall priority' db', acquire priority' db' w' = None)
          /\ (forall name args, sendCommand name args w' = None)).
Proof.
  intros w priority db Hav Hsz Hf.
  destruct (pool_acquire_gives_up priority w Hav Hsz Hf)
    as (w' & Hp & Ha & Hb & _ & _).
  exists w'. unfold acquire. rewrite Hp.
  assert (Hsize : pool_size w' = S (pool_size w)).
  { unfold pool_size. rewrite Ha, Hb, Hav. reflexivity. }
  split; [reflexivity|]. split; [exact Hsize|].
  split; [unfold availableCount; now rewrite Ha|]. split; [exact Hb|].
  intros Hmax. split.
  - intros priority' db'. unfold acquire.
    rewrite pool_acquire_waits; auto. lia.
  - intros name args. unfold sendCommand.
    rewrite pool_acquire_waits; auto. lia.
Qed.

Lemma fails_from_3 n :
  fails_from n 3 = true ->
  exists e0 e1 e2,
    connect_failure n = Some e0 /\ connect_failure (S n) = Some e1
    /\ connect_failure (S (S n)) = Some e2.
Proof.
  simpl. destruct (connect_failure n) as [e0|]; [|discriminate].
  destruct (connect_failure (S n)) as [e1|]; [|discriminate].
  destruct (connect_failure (S (S n))) as [e2|]; [|discriminate].
  intros _. exists e0, e1, e2. auto.
Qed.

(** X3. When the three establishment attempts fail, [sendCommand] rejects
    with the TypeError of [util.promisify] (the object the pool handed out
    is an [Error] without [send_command]), not with CONN_FAILED or the
    connection error.  After the three attempts and the loan nothing more
    happens: nothing is sent to the server, nothing is released and nothing
    is logged, and the error object stays on loan. *)
Theorem sendCommand_without_connection :
  forall (w : world) (name : string) (args : list js_value),
    available w = [] ->
    pool_size w < pool_max opts ->
    fails_from (connects w) 3 = true ->
    exists (e0 e1 e2 : js_error) (w' : world),
      sendCommand name args w = Some (Rejected promisify_type_error, w')
      /\ backend w' = backend w
      /\ borrowed w' = ErrorValue conn_failed :: borrowed w
      /\ availableCount w' = 0
      /\ trace w'
         = trace w
           ++ [EConnect (connects w) (Some e0);
               EConnect (S (connects w)) (Some e1);
               EConnect (S (S (connects w))) (Some e2);
               EBorrow acquire_priority (ErrorValue conn_failed)].
Proof.
  intros w name args Hav Hsz Hf. apply Nat.ltb_lt in Hsz.
  destruct (fails_from_3 _ Hf) as (e0 & e1 & e2 & E0 & E1 & E2).
  exists e0, e1, e2.
  unfold sendCommand, pool_acquire. rewrite Hav, Hsz.
  unfold factory_create, retry, create_callback, create. simpl.
  rewrite E0. simpl. rewrite E1. simpl. rewrite E2. simpl.
  eexists. split; [reflexivity|]. unfold availableCount. simpl.
  rewrite Hav, <- !app_assoc. repeat split.
Qed.

(** X4. [acquire] followed by [release] gives the connection back: with an
    idle connection in the pool, [acquire] resolves with the connection at
    the head of the queue, having selected the database asked for (when one
    other than 0 is asked for and SELECT succeeds; none is selected when no
    database is given); after [release] the loans and the pool's size are as
    before and the connection is at the end of the queue. *)
Theorem acquire_then_release :
  forall (w : world) (priority : nat) (db : option Z) (c : nat) (rest : list nat),
    available w = c :: rest ->
    match db with
    | Some d => d <> 0%Z /\ forall tr, select_failure tr c d = None
    | None => True
    end ->
    exists w1 : world,
      acquire priority db w = Some (Resolved c, w1)
      /\ selected_db c w1
         = match db with Some d => d | None => selected_db c w end
      /\ borrowed w1 = Client c :: borrowed w
      /\ available (release c w1) = rest ++ [c]
      /\ borrowed (release c w1) = borrowed w
      /\ getPoolSize (release c w1) = getPoolSize w
      /\ backend (release c w1) = backend w.
Proof.
  intros w priority db c rest Hav Hdb.
  unfold acquire, pool_acquire. rewrite Hav.
  assert (Hlen : List.length (rest ++ [c]) = List.length (c :: rest)).
  { rewrite length_app. simpl. lia. }
  destruct db as [d|].
  - destruct Hdb as (Hd & Hsel).
    replace (truthyZ (Some d)) with true
      by (symmetry; simpl; apply negb_true_iff, Z.eqb_neq; exact Hd).
    unfold selectDB. rewrite Hsel.
    eexists. split; [reflexivity|].
    unfold release, pool_release, getPoolSize, pool_size, selected_db. simpl.
    rewrite !Nat.eqb_refl. simpl. rewrite Hav, Hlen. repeat split.
  - eexists. split; [reflexivity|].
    unfold release, pool_release, getPoolSize, pool_size, selected_db. simpl.
    rewrite !Nat.eqb_refl. simpl. rewrite Hav, Hlen. repeat split.
Qed.

(** X5. The pool opens its connection on first use and reuses it: on a pool
    without connections whose next establishment attempt succeeds, two
    [sendCommand] calls in a row both go to the server on the one new
    client, with the configured database selected (0 when none is); one
    connection has been established in all, and afterwards it is idle in
    the pool, whose size is 1. *)
Theorem sendCommand_opens_one_connection :
  forall (w : world) (name1 name2 : string) (args1 args2 : list js_value),
    available w = [] -> borrowed w = [] -> 0 < pool_max opts ->
    connect_failure (connects w) = None ->
    let c := next_client w in
    let d := match redis_db opts with Some d => d | None => 0%Z end in
    let sent1 := match args1 with [] => None | _ => Some args1 end in
    let sent2 := match args2 with [] => None | _ => Some args2 end in
    let r1 := send_command c d name1 sent1 (backend w) in
    let r2 := send_command c d name2 sent2 (snd r1) in
    exists w1 w2 : world,
      sendCommand name1 args1 w = Some (fst r1, w1)
      /\ sendCommand name2 args2 w1 = Some (fst r2, w2)
      /\ backend w2 = snd r2
      /\ connects w2 = S (connects w)
      /\ available w2 = [c] /\ borrowed w2 = []
      /\ getPoolSize w2 = 1 /\ availableCount w2 = 1.
Proof.
  intros w name1 name2 args1 args2 Hav Hb Hmax Hok c d sent1 sent2 r1 r2.
  assert (Hsz : (pool_size w <? pool_max opts) = true).
  { apply Nat.ltb_lt. unfold pool_size. rewrite Hav, Hb. simpl. lia. }
  assert (Hf : factory_create w
               = (Resolved (Client c),
                  log (EConnect (connects w) None)
                      (mkWorld [] [] (S c) (S (connects w))
                               ((c, d) :: selected w) (backend w) (trace w)))).
  { unfold factory_create, retry, create_callback, create. simpl.
    rewrite Hok, Hav, Hb. reflexivity. }
  assert (H1 : exists w1,
             sendCommand name1 args1 w = Some (fst r1, w1)
             /\ backend w1 = snd r1 /\ available w1 = [c] /\ borrowed w1 = []
             /\ connects w1 = S (connects w) /\ selected_db c w1 = d).
  { unfold sendCommand, pool_acquire. rewrite Hav, Hsz, Hf.
    change ([] ++ args1) with args1. cbv zeta. fold sent1.
    unfold selected_db, log. simpl. rewrite Nat.eqb_refl. fold c d.
    fold r1. destruct r1 as [[v|e] b]; unfold pool_release; simpl;
      rewrite Nat.eqb_refl; simpl; eexists; repeat split;
      simpl; now rewrite Nat.eqb_refl. }
  destruct H1 as (w1 & Hs1 & Hb1 & Ha1 & Hl1 & Hc1 & Hd1).
  exists w1.
  destruct (sendCommand_idle name2 args2 w1 c [] Ha1) as (w2 & Hs2 & Hb2 & Ha2).
  fold sent2 in Hs2, Hb2. rewrite Hd1, Hb1 in Hs2, Hb2. fold r2 in Hs2, Hb2.
  exists w2. split; [exact Hs1|]. split; [exact Hs2|]. split; [exact Hb2|].
  assert (Hrest : connects w2 = connects w1 /\ borrowed w2 = borrowed w1).
  { revert Hs2. unfold sendCommand, pool_acquire. rewrite Ha1.
    change ([] ++ args2) with args2. cbv zeta.
    match goal with
    | |- context [send_command ?a ?b ?n ?s ?k] =>
        destruct (send_command a b n s k) as [[v|e] b']
    end; unfold pool_release; simpl; rewrite Nat.eqb_refl; simpl;
      intros H; inversion H; subst; simpl; auto. }
  destruct Hrest as (Hc2 & Hl2).
  unfold getPoolSize, pool_size, availableCount.
  rewrite Hc2, Hl2, Ha2, Hc1, Hl1. simpl. auto.
Qed.

End WithBackend.


Arguments mkWorld {B}.
Arguments available {B}.
Arguments borrowed {B}.
Arguments next_client {B}.
Arguments connects {B}.
Arguments selected {B}.
Arguments backend {B}.
Arguments trace {B}.

(** *** Concrete environments *)

Definition reply_error : js_error :=
  mkError "ReplyError" "ERR" "unknown command".

Definition econnrefused : js_error :=
  mkError "Error" "ECONNREFUSED" "connect ECONNREFUSED 127.0.0.1:6379".

Definition db_out_of_range : js_error :=
  mkError "ReplyError" "ERR" "DB index is out of range".

(** A server that answers OK to everything, and one that refuses everything. *)
Definition ok_server (_ : nat) (_ : Z) (_ : string) (_ : option (list js_value))
  (b : unit) : outcome js_value * unit :=
  (Resolved (JStr "OK"), b).

Definition refusing_server (_ : nat) (_ : Z) (_ : string)
  (_ : option (list js_value)) (b : unit) : outcome js_value * unit :=
  (Rejected reply_error, b).

(** The first [n] establishment attempts fail, the later ones succeed. *)
Definition fails_first (n : nat) (k : nat) : option js_error :=
  if k <? n then Some econnrefused else None.

Definition select_ok (_ : list event) (_ : nat) (_ : Z) : option js_error := None.

Definition select_refused (_ : list event) (_ : nat) (_ : Z) : option js_error :=
  Some db_out_of_range.

(** A pool that has not opened a connection yet, and one with a single idle
    connection (client 0, database 0). *)
Definition fresh_world : world unit := mkWorld [] [] 0 0 [] tt [].

Definition idle_world : world unit := mkWorld [0] [] 1 1 [(0, 0%Z)] tt [].

Definition plain_options : options := mkOptions None None 1.

Lemma sendCommand_releases_exactly_once_witness :
  exists w2 : world unit,
    sendCommand unit refusing_server (fails_first 0) plain_options
                "get" [JStr "k"] idle_world
    = Some (Rejected reply_error, w2)
    /\ backend w2 = tt
    /\ borrowed w2 = []
    /\ available w2 = [0]
    /\ trace w2 = [EBorrow 1 (Client 0);
                   ESend 0 0%Z "get" (Some [JStr "k"]);
                   ERelease 0;
                   ELogError reply_error].
Proof.
  exact (sendCommand_releases_exactly_once unit refusing_server (fails_first 0)
           plain_options "get" [JStr "k"] idle_world
           (mkWorld [] [Client 0] 1 1 [(0, 0%Z)] tt [EBorrow 1 (Client 0)])
           0 eq_refl).
Defined.

Lemma factory_create_three_attempts_witness :
  (exists w', acquire unit (fails_first 2) select_ok plain_options 1 None fresh_world
              = Some (Resolved 0, w')
              /\ connects w' = 3)
  /\ (exists w', acquire unit (fails_first 3) select_ok plain_options 1 None fresh_world
                 = Some (Rejected conn_failed, w')
                 /\ connects w' = 3).
Proof.
  split.
  - exact (proj1 (factory_create_three_attempts unit (fails_first 2) select_ok
                    plain_options fresh_world 1 eq_refl (le_n 1))
             2 (le_n 3) eq_refl eq_refl).
  - destruct (proj2 (factory_create_three_attempts unit (fails_first 3) select_ok
                       plain_options fresh_world 1 eq_refl (le_n 1)) eq_refl)
      as (w1 & _ & _ & _ & H).
    exact (H None).
Defined.

(** C6, the claim as stated fails: with attempts 1 to 3 failing and a fourth
    that would succeed, only three attempts are made and the caller gets the
    CONN_FAILED error. *)
Lemma factory_create_makes_no_fourth_attempt :
  fails_first 3 3 = None
  /\ exists w',
       acquire unit (fails_first 3) select_ok plain_options 1 None fresh_world
       = Some (Rejected conn_failed, w')
       /\ connects w' = 3
       /\ trace w' = [EConnect 0 (Some econnrefused);
                      EConnect 1 (Some econnrefused);
                      EConnect 2 (Some econnrefused);
                      EBorrow 1 (ErrorValue conn_failed)].
Proof.
  split; [reflexivity|]. eexists. split; [reflexivity|]. split; reflexivity.
Qed.

(** C7, the code at the failing input: SELECT fails on the connection that
    [acquire] borrowed; the caller gets the error, and the connection stays
    on loan: it is not back in the available queue and nothing released or
    destroyed it. *)
Lemma acquire_select_failure_keeps_connection_on_loan :
  exists w',
    acquire unit (fails_first 0) select_refused plain_options 1 (Some 2%Z) idle_world
    = Some (Rejected db_out_of_range, w')
    /\ available w' = []
    /\ borrowed w' = [Client 0]
    /\ trace w' = [EBorrow 1 (Client 0); ESelect 0 2%Z (Some db_out_of_range)].
Proof.
  eexists. split; [reflexivity|]. repeat split.
Qed.

(** C8, the code at the failing input.  The store is configured with
    database 2.  A caller acquires the connection for database 5 and
    releases it; the next [sendCommand] sends its command on that connection
    while database 5 is selected, and no SELECT precedes it.  Likewise an
    [acquire] that asks for database 0 hands the connection out with
    database 5 still selected. *)
Lemma sendCommand_does_not_select_database :
  redis_db (mkOptions (Some 2%Z) None 1) = Some 2%Z
  /\ (exists w1 w2,
        acquire unit (fails_first 0) select_ok (mkOptions (Some 2%Z) None 1)
                1 (Some 5%Z) fresh_world
        = Some (Resolved 0, w1)
        /\ sendCommand unit ok_server (fails_first 0) (mkOptions (Some 2%Z) None 1)
                       "get" [JStr "k"] (release unit 0 w1)
           = Some (Resolved (JStr "OK"), w2)
        /\ trace w2 = [EConnect 0 None; EBorrow 1 (Client 0);
                       ESelect 0 5%Z None; ERelease 0;
                       EBorrow 1 (Client 0);
                       ESend 0 5%Z "get" (Some [JStr "k"]);
                       ERelease 0])
  /\ (exists w1 w2,
        acquire unit (fails_first 0) select_ok (mkOptions (Some 2%Z) None 1)
                1 (Some 5%Z) fresh_world
        = Some (Resolved 0, w1)
        /\ acquire unit (fails_first 0) select_ok (mkOptions (Some 2%Z) None 1)
                   1 (Some 0%Z) (release unit 0 w1)
           = Some (Resolved 0, w2)
        /\ selected_db unit 0 w2 = 5%Z).
Proof.
  split; [reflexivity|]. split.
  - do 2 eexists. split; [reflexivity|]. split; reflexivity.
  - do 2 eexists. split; [reflexivity|]. split; reflexivity.
Qed.

Lemma failed_acquire_keeps_its_slot_witness :
  exists w' : world unit,
    acquire unit (fails_first 3) select_ok plain_options 1 None fresh_world
    = Some (Rejected conn_failed, w')
    /\ getPoolSize unit w' = 1
    /\ availableCount unit w' = 0
    /\ acquire unit (fails_first 3) select_ok plain_options 1 None w' = None
    /\ sendCommand unit ok_server (fails_first 3) plain_options "get" [JStr "k"] w'
       = None.
Proof.
  destruct (failed_acquire_keeps_its_slot unit ok_server (fails_first 3) select_ok
              plain_options fresh_world 1 None eq_refl (le_n 1) eq_refl)
    as (w' & H1 & H2 & H3 & _ & H5).
  exists w'. destruct (H5 eq_refl) as (Ha & Hs).
  split; [exact H1|]. split; [exact H2|]. split; [exact H3|].
  split; [apply Ha|apply Hs].
Defined.

Lemma sendCommand_without_connection_witness :
  exists (e0 e1 e2 : js_error) (w' : world unit),
    sendCommand unit ok_server (fails_first 3) plain_options "get" [JStr "k"]
                fresh_world
    = Some (Rejected promisify_type_error, w')
    /\ backend w' = tt
    /\ borrowed w' = [ErrorValue conn_failed]
    /\ availableCount unit w' = 0
    /\ trace w' = [EConnect 0 (Some e0); EConnect 1 (Some e1);
                   EConnect 2 (Some e2); EBorrow 1 (ErrorValue conn_failed)].
Proof.
  exact (sendCommand_without_connection unit ok_server (fails_first 3)
           plain_options fresh_world "get" [JStr "k"] eq_refl (le_n 1) eq_refl).
Defined.

Lemma acquire_then_release_witness :
  exists w1 : world unit,
    acquire unit (fails_first 0) select_ok plain_options 1 (Some 5%Z) idle_world
    = Some (Resolved 0, w1)
    /\ selected_db unit 0 w1 = 5%Z
    /\ borrowed w1 = [Client 0]
    /\ available (release unit 0 w1) = [0]
    /\ borrowed (release unit 0 w1) = []
    /\ getPoolSize unit (release unit 0 w1) = 1
    /\ backend (release unit 0 w1) = tt.
Proof.
  exact (acquire_then_release unit (fails_first 0) select_ok plain_options
           idle_world 1 (Some 5%Z) 0 [] eq_refl
           (conj (fun H : 5%Z = 0%Z => Z.neq_sym _ _ (Z.lt_neq 0 5 eq_refl) H)
                 (fun _ => eq_refl))).
Defined.

Lemma sendCommand_opens_one_connection_witness :
  exists w1 w2 : world unit,
    sendCommand unit ok_server (fails_first 0) plain_options "set"
                [JStr "k"; JStr "v"] fresh_world
    = Some (Resolved (JStr "OK"), w1)
    /\ sendCommand unit ok_server (fails_first 0) plain_options "get"
                   [JStr "k"] w1
       = Some (Resolved (JStr "OK"), w2)
    /\ backend w2 = tt
    /\ connects w2 = 1
    /\ available w2 = [0] /\ borrowed w2 = []
    /\ getPoolSize unit w2 = 1 /\ availableCount unit w2 = 1.
Proof.
  exact (sendCommand_opens_one_connection unit ok_server (fails_first 0)
           plain_options fresh_world "set" "get" [JStr "k"; JStr "v"] [JStr "k"]
           eq_refl eq_refl (le_n 1) eq_refl).
Defined.

End Pool.

(** ** The cached-script bulk delete ([deleteAll]) *)

Module BulkDelete.

Definition dq : string := String (ascii_of_nat 34) EmptyString.
Definition nl : string := String (ascii_of_nat 10) EmptyString.

(** The Lua source handed to SCRIPT LOAD. *)
Definition deleteKeysScript : string :=
  String.concat nl
    [ "local keys = {};";
      "local done = false;";
      String.concat dq ["local cursor = "; "0"; ";"];
      "local deleted = 0;";
      "redis.replicate_commands();";
      "repeat";
      String.concat dq
        ["local result = redis.call("; "SCAN"; ", cursor, "; "match";
         ", ARGV[1], "; "count"; ", ARGV[2])"];
      "cursor = result[1];";
      "keys = result[2];";
      "for i, key in ipairs(keys) do";
      String.concat dq ["deleted = deleted + redis.call("; "UNLINK"; ", key);"];
      "end";
      String.concat dq ["if cursor == "; "0"; " then"];
      "done = true;";
      "end";
      "until done";
      "return deleted;" ]%string.

(** A command as it is handed to [sendCommand]. *)
Definition request : Type := string * list js_value.

Definition script_load : request :=
  ("SCRIPT"%string, [JStr "LOAD"; JStr deleteKeysScript]).

Definition evalsha (sha1 : js_value) (pattern : string) : request :=
  ("EVALSHA"%string, [sha1; JNum 0; JStr pattern; JNum 1000]).

Definition is_load (r : request) : bool := String.eqb (fst r) "SCRIPT".

Inductive promise_state : Type :=
| Pending
| Settled (o : outcome js_value).

(** Where an invocation of [deleteAll] stands. *)
Inductive call : Type :=
| AwaitingLoad (pattern : string) (p : nat)
| AwaitingExec (sha1 : js_value) (pattern : string)
| Done (o : outcome js_value).

(** The store's [deleteScriptPromise] ([None] is null, [Some p] the promise
    returned by the [p]-th SCRIPT LOAD dispatch), the state of those
    promises, the invocations of [deleteAll] made so far and the commands
    handed to [sendCommand], oldest first. *)
Record store := mkStore {
  deleteScriptPromise : option nat;
  promises : list promise_state;
  calls : list call;
  sent : list request
}.

Definition new_store : store := mkStore None [] [] [].

(** What can happen next: a caller invokes [deleteAll]; the dispatch behind
    a load promise settles; an invocation suspended on a settled load
    promise continues; the EVALSHA dispatch of an invocation settles. *)
Inductive event : Type :=
| Invoke (pattern : option string)
| LoadSettles (p : nat) (o : outcome js_value)
| Resume (i : nat)
| ExecSettles (i : nat) (o : outcome js_value).

Fixpoint set_nth {A : Type} (i : nat) (x : A) (l : list A) : list A :=
  match l with
  | [] => []
  | h :: t =>
      match i with
      | O => x :: t
      | S j => h :: set_nth j x t
      end
  end.

(** [_loadDeleteAllScript()]: dispatches SCRIPT LOAD and keeps its promise
    when none is kept; returns the kept promise. *)
Definition _loadDeleteAllScript (st : store) : nat * store :=
  match deleteScriptPromise st with
  | None =>
      let p := List.length (promises st) in
      (p, mkStore (Some p) (promises st ++ [Pending]) (calls st)
                  (sent st ++ [script_load]))
  | Some p => (p, st)
  end.

Definition is_noscript (e : js_error) : bool := String.eqb (err_code e) "NOSCRIPT".

(** [_executeDeleteAll(pattern)] up to its [await]: the invocation [i]
    ([None]: a new one) is left suspended on the load promise. *)
Definition _executeDeleteAll_enter (i : option nat) (pattern : string) (st : store)
  : store :=
  let (p, st1) := _loadDeleteAllScript st in
  let c := AwaitingLoad pattern p in
  mkStore (deleteScriptPromise st1) (promises st1)
          (match i with
           | Some i => set_nth i c (calls st1)
           | None => calls st1 ++ [c]
           end)
          (sent st1).

(** [_executeDeleteAll(pattern)] after its [await], for invocation [i]. *)
Definition _executeDeleteAll_resume (i : nat) (pattern : string)
  (o : outcome js_value) (st : store) : store :=
  match o with
  | Rejected error =>
      if is_noscript error then
        (* We can get here only if server is restarted somehow and cache is deleted *)
        _executeDeleteAll_enter (Some i) pattern
          (mkStore None (promises st) (calls st) (sent st))
      else
        mkStore (deleteScriptPromise st) (promises st)
                (set_nth i (Done (Rejected error)) (calls st)) (sent st)
  | Resolved sha1 =>
      mkStore (deleteScriptPromise st) (promises st)
              (set_nth i (AwaitingExec sha1 pattern) (calls st))
              (sent st ++ [evalsha sha1 pattern])
  end.

(** [deleteAll(pattern = '*')]. *)
Definition deleteAll (pattern : option string) (st : store) : store :=
  let pattern := match pattern with Some p => p | None => "*"%string end in
  _executeDeleteAll_enter None pattern st.

(** One event; [None] when it cannot happen in [st]. *)
Definition step (ev : event) (st : store) : option store :=
  match ev with
  | Invoke pattern => Some (deleteAll pattern st)
  | LoadSettles p o =>
      match nth_error (promises st) p with
      | Some Pending =>
          Some (mkStore (deleteScriptPromise st)
                        (set_nth p (Settled o) (promises st))
                        (calls st) (sent st))
      | _ => None
      end
  | Resume i =>
      match nth_error (calls st) i with
      | Some (AwaitingLoad pattern p) =>
          match nth_error (promises st) p with
          | Some (Settled o) => Some (_executeDeleteAll_resume i pattern o st)
          | _ => None
          end
      | _ => None
      end
  | ExecSettles i o =>
      match nth_error (calls st) i with
      | Some (AwaitingExec _ _) =>
          Some (mkStore (deleteScriptPromise st) (promises st)
                        (set_nth i (Done o) (calls st)) (sent st))
      | _ => None
      end
  end.

Fixpoint run (evs : list event) (st : store) : option store :=
  match evs with
  | [] => Some st
  | ev :: rest =>
      match step ev st with
      | Some st' => run rest st'
      | None => None
      end
  end.

(** The SCRIPT LOAD requests dispatched so far, and those still unanswered. *)
Definition load_requests (st : store) : nat :=
  List.length (filter is_load (sent st)).

Definition is_pending (p : promise_state) : bool :=
  match p with Pending => true | Settled _ => false end.

Definition loads_in_flight (st : store) : nat :=
  List.length (filter is_pending (promises st)).

Definition noscript : js_error :=
  mkError "ReplyError" "NOSCRIPT" "NOSCRIPT No matching script. Please use EVAL.".

Definition econnreset : js_error :=
  mkError "Error" "ECONNRESET" "read ECONNRESET".

Definition a_sha : js_value := JStr "6b1bf486c81ceb7edf3c093f4c48582e38c0e791".

(** *** Facts about the protocol *)

Arguments load_requests : simpl never.

Lemma nth_error_set_nth {A : Type} (x : A) : forall (l : list A) (i : nat) (y : A),
  nth_error l i = Some y -> nth_error (set_nth i x l) i = Some x.
Proof.
  induction l as [|h t IH]; intros [|i] y H; simpl in *; try discriminate; eauto.
Qed.

Lemma length_set_nth {A : Type} (x : A) : forall (l : list A) (i : nat),
  List.length (set_nth i x l) = List.length l.
Proof.
  induction l as [|h t IH]; intros [|i]; simpl; auto.
Qed.

Lemma nth_error_app_new {A : Type} (l : list A) (x : A) :
  nth_error (l ++ [x]) (List.length l) = Some x.
Proof. induction l; simpl; auto. Qed.

Lemma load_requests_after_load st st' :
  sent st' = sent st ++ [script_load] ->
  load_requests st' = S (load_requests st).
Proof.
  unfold load_requests; intros ->. rewrite filter_app, length_app. simpl. lia.
Qed.

Lemma load_requests_after_exec st st' sha1 pattern :
  sent st' = sent st ++ [evalsha sha1 pattern] ->
  load_requests st' = load_requests st.
Proof.
  unfold load_requests; intros ->. rewrite filter_app, length_app. simpl. lia.
Qed.

Lemma load_requests_same st st' :
  sent st' = sent st -> load_requests st' = load_requests st.
Proof. unfold load_requests; now intros ->. Qed.

(** A load is dispatched by [_loadDeleteAllScript] exactly when no promise
    is kept. *)
Lemma load_dispatched_iff_not_loaded st :
  load_requests (snd (_loadDeleteAllScript st))
  = load_requests st + match deleteScriptPromise st with None => 1 | Some _ => 0 end.
Proof.
  unfold _loadDeleteAllScript. destruct (deleteScriptPromise st); simpl.
  - lia.
  - rewrite (load_requests_after_load st) by reflexivity. lia.
Qed.

(** The outcome of the EVALSHA dispatch is the outcome of the invocation,
    whatever it is: nothing is reset and nothing is dispatched again. *)
Lemma exec_outcome_is_final st i sha1 pattern o :
  nth_error (calls st) i = Some (AwaitingExec sha1 pattern) ->
  exists st',
    step (ExecSettles i o) st = Some st'
    /\ nth_error (calls st') i = Some (Done o)
    /\ deleteScriptPromise st' = deleteScriptPromise st
    /\ promises st' = promises st
    /\ sent st' = sent st.
Proof.
  intros H. unfold step. rewrite H. eexists. split; [reflexivity|]. simpl.
  repeat split. eapply nth_error_set_nth; eauto.
Qed.

(** C3, the code at the failing input: the script is loaded, the server has
    lost it and answers NOSCRIPT to EVALSHA.  The caller gets the NOSCRIPT
    error; the kept promise is still the old load, and the only commands
    dispatched are the one load and the one EVALSHA: no reload, no retry. *)
Lemma deleteAll_noscript_on_execution_is_not_retried :
  run [Invoke None; LoadSettles 0 (Resolved a_sha); Resume 0;
       ExecSettles 0 (Rejected noscript)] new_store
  = Some (mkStore (Some 0) [Settled (Resolved a_sha)] [Done (Rejected noscript)]
                  [script_load; evalsha a_sha "*"]).
Proof. reflexivity. Qed.

(** The NOSCRIPT branch is taken only for a failed load.  If every load is
    refused with NOSCRIPT, the invocation reloads again and again: after
    [n] refusals it still waits, for the load number [n]. *)
Fixpoint noscript_rounds (n : nat) : list event :=
  match n with
  | O => []
  | S k => noscript_rounds k ++ [LoadSettles k (Rejected noscript); Resume 0]
  end.

Lemma run_app (evs1 evs2 : list event) (st : store) :
  run (evs1 ++ evs2) st
  = match run evs1 st with
    | Some st' => run evs2 st'
    | None => None
    end.
Proof.
  revert st; induction evs1 as [|ev evs1 IH]; intros st; simpl; [reflexivity|].
  destruct (step ev st); [apply IH|reflexivity].
Qed.

Lemma set_nth_end {A : Type} (l : list A) (x y : A) :
  set_nth (List.length l) x (l ++ [y]) = l ++ [x].
Proof. induction l as [|h l IH]; simpl; [reflexivity|now rewrite IH]. Qed.

Lemma noscript_round (ps : list promise_state) (rs : list request) :
  run [LoadSettles (List.length ps) (Rejected noscript); Resume 0]
      (mkStore (Some (List.length ps)) (ps ++ [Pending])
               [AwaitingLoad "*" (List.length ps)] rs)
  = Some (mkStore (Some (S (List.length ps)))
                  ((ps ++ [Settled (Rejected noscript)]) ++ [Pending])
                  [AwaitingLoad "*" (S (List.length ps))]
                  (rs ++ [script_load])).
Proof.
  cbn [run step promises calls].
  rewrite nth_error_app_new.
  cbn [promises calls deleteScriptPromise sent nth_error].
  rewrite set_nth_end, nth_error_app_new.
  unfold _executeDeleteAll_resume.
  change (is_noscript noscript) with true. cbv iota.
  unfold _executeDeleteAll_enter, _loadDeleteAllScript.
  cbn [deleteScriptPromise promises calls sent set_nth].
  rewrite length_app. cbn [List.length].
  now replace (List.length ps + 1) with (S (List.length ps)) by lia.
Qed.

(** X6. As long as every SCRIPT LOAD is refused with NOSCRIPT, an invocation
    of [deleteAll] never settles: after [n] refusals it has dispatched
    [n + 1] loads, no EVALSHA, and waits for the last load, which is the
    kept promise. *)
Lemma persistent_noscript_on_load_never_finishes (n : nat) :
  run (Invoke None :: noscript_rounds n) new_store
  = Some (mkStore (Some n)
                  (repeat (Settled (Rejected noscript)) n ++ [Pending])
                  [AwaitingLoad "*" n]
                  (repeat script_load (S n))).
Proof.
  induction n as [|n IH]; [reflexivity|].
  change (Invoke None :: noscript_rounds (S n))
    with ((Invoke None :: noscript_rounds n)
          ++ [LoadSettles n (Rejected noscript); Resume 0]).
  rewrite run_app, IH.
  pose proof (noscript_round (repeat (Settled (Rejected noscript)) n)
                (repeat script_load (S n))) as H.
  rewrite repeat_length in H. rewrite H. f_equal. f_equal.
  - f_equal. symmetry. apply (repeat_cons n (Settled (Rejected noscript))).
  - symmetry. apply (repeat_cons (S n) script_load).
Qed.

(** C4, the claim as stated fails: the load is refused with an error other
    than NOSCRIPT.  The promise stays kept; the next [deleteAll] dispatches
    no load (one SCRIPT LOAD in all) and fails with the same error. *)
Lemma failed_load_stays_cached :
  run [Invoke None; LoadSettles 0 (Rejected econnreset); Resume 0;
       Invoke None; Resume 1] new_store
  = Some (mkStore (Some 0) [Settled (Rejected econnreset)]
                  [Done (Rejected econnreset); Done (Rejected econnreset)]
                  [script_load]).
Proof. reflexivity. Qed.

(** C4 (as the code has it). When the load an invocation waits for has
    failed with NOSCRIPT, the invocation forgets the kept promise and
    dispatches a fresh load, on which it waits.  When it has failed with
    any other error, the invocation ends with that error and the kept
    promise, the promises and the dispatched commands are unchanged; if the
    kept promise is the failed one, the next [deleteAll] dispatches no load,
    waits on the failed promise and ends with the same error. *)
Theorem load_failure_resets_only_on_noscript :
  forall (st : store) (i : nat) (pattern : string) (p : nat) (e : js_error),
    nth_error (calls st) i = Some (AwaitingLoad pattern p) ->
    nth_error (promises st) p = Some (Settled (Rejected e)) ->
    exists st',
      step (Resume i) st = Some st'
      /\ if is_noscript e then
           deleteScriptPromise st' = Some (List.length (promises st))
           /\ nth_error (promises st') (List.length (promises st)) = Some Pending
           /\ nth_error (calls st') i
              = Some (AwaitingLoad pattern (List.length (promises st)))
           /\ load_requests st' = S (load_requests st)
         else
           deleteScriptPromise st' = deleteScriptPromise st
           /\ promises st' = promises st
           /\ sent st' = sent st
           /\ nth_error (calls st') i = Some (Done (Rejected e))
           /\ (deleteScriptPromise st = Some p ->
               forall pat, exists st2 st3,
                 step (Invoke pat) st' = Some st2
                 /\ load_requests st2 = load_requests st
                 /\ step (Resume (List.length (calls st'))) st2 = Some st3
                 /\ nth_error (calls st3) (List.length (calls st'))
                    = Some (Done (Rejected e))
                 /\ load_requests st3 = load_requests st
                 /\ deleteScriptPromise st3 = Some p).
Proof.
  intros st i pattern p e Hc Hp.
  unfold step. rewrite Hc, Hp. eexists. split; [reflexivity|].
  unfold _executeDeleteAll_resume.
  destruct (is_noscript e) eqn:Hn.
  - unfold _executeDeleteAll_enter, _loadDeleteAllScript. simpl.
    repeat split.
    + apply nth_error_app_new.
    + eapply nth_error_set_nth; eauto.
    + now apply load_requests_after_load.
  - simpl. repeat split.
    + eapply nth_error_set_nth; eauto.
    + intros Hd pat.
      unfold deleteAll, _executeDeleteAll_enter, _loadDeleteAllScript.
      simpl. rewrite Hd. simpl.
      do 2 eexists. split; [reflexivity|]. split; [reflexivity|].
      cbn [calls promises]. rewrite nth_error_app_new, Hp, Hn.
      split; [reflexivity|]. simpl.
      split; [|split; [reflexivity|reflexivity]].
      eapply nth_error_set_nth. apply nth_error_app_new.
Qed.

Lemma load_failure_resets_only_on_noscript_witness :
  (exists st',
     step (Resume 0)
          (mkStore (Some 0) [Settled (Rejected econnreset)]
                   [AwaitingLoad "*" 0] [script_load])
     = Some st'
     /\ deleteScriptPromise st' = Some 0
     /\ nth_error (calls st') 0 = Some (Done (Rejected econnreset))
     /\ sent st' = [script_load])
  /\ (exists st',
        step (Resume 0)
             (mkStore (Some 0) [Settled (Rejected noscript)]
                      [AwaitingLoad "*" 0] [script_load])
        = Some st'
        /\ deleteScriptPromise st' = Some 1
        /\ load_requests st' = 2).
Proof.
  split.
  - destruct (load_failure_resets_only_on_noscript
                (mkStore (Some 0) [Settled (Rejected econnreset)]
                         [AwaitingLoad "*" 0] [script_load])
                0 "*"%string 0 econnreset eq_refl eq_refl)
      as (st' & Hs & Hd & _ & Hr & Hc & _).
    exists st'. repeat split; assumption.
  - destruct (load_failure_resets_only_on_noscript
                (mkStore (Some 0) [Settled (Rejected noscript)]
                         [AwaitingLoad "*" 0] [script_load])
                0 "*"%string 0 noscript eq_refl eq_refl)
      as (st' & Hs & Hd & _ & _ & Hl).
    exists st'. repeat split; assumption.
Defined.

(** *** Coalescing of the load *)

(** An event other than a load refused with NOSCRIPT. *)
Definition quiet (ev : event) : bool :=
  match ev with
  | LoadSettles _ (Rejected e) => negb (is_noscript e)
  | _ => true
  end.

Definition is_invoke (ev : event) : bool :=
  match ev with
  | Invoke _ => true
  | _ => false
  end.

(** What holds of the store as long as no load was refused with NOSCRIPT:
    nothing was dispatched and nobody waits, or promise 0 is the kept one,
    the only one, and everybody who waits for a load waits for it. *)
Definition coalesced (st : store) : Prop :=
  (deleteScriptPromise st = None /\ promises st = [] /\ calls st = []
   /\ load_requests st = 0)
  \/ (deleteScriptPromise st = Some 0
      /\ (exists s, promises st = [s]
                    /\ forall e, s = Settled (Rejected e) -> is_noscript e = false)
      /\ calls st <> []
      /\ load_requests st = 1
      /\ forall i pattern p,
           nth_error (calls st) i = Some (AwaitingLoad pattern p) -> p = 0).

Lemma nth_error_set_nth_inv {A : Type} (x : A) : forall (l : list A) (i j : nat) (y : A),
  nth_error (set_nth i x l) j = Some y ->
  y = x \/ nth_error l j = Some y.
Proof.
  induction l as [|h t IH]; intros [|i] [|j] y H; simpl in *;
    try discriminate; auto.
  - inversion H; auto.
  - eauto.
Qed.

Lemma set_nth_not_nil {A : Type} (x : A) (l : list A) (i : nat) :
  l <> [] -> set_nth i x l <> [].
Proof. destruct l, i; simpl; congruence. Qed.

Lemma nth_error_snoc_inv {A : Type} (l : list A) (x y : A) (j : nat) :
  nth_error (l ++ [x]) j = Some y -> y = x \/ nth_error l j = Some y.
Proof.
  revert j; induction l as [|h t IH]; intros [|j] H; simpl in *; auto.
  - inversion H; auto.
  - destruct j; discriminate.
Qed.

Lemma coalesced_step ev st st' :
  quiet ev = true -> coalesced st -> step ev st = Some st' -> coalesced st'.
Proof.
  intros Hq Hinv Hstep.
  destruct ev as [pat|p o|i|i o]; simpl in Hstep.
  - (* Invoke *)
    inversion Hstep; subst; clear Hstep. right.
    unfold deleteAll, _executeDeleteAll_enter, _loadDeleteAllScript.
    destruct Hinv as [(Hd & Hp & Hc & Hl)|(Hd & (s & Hp & Hs) & Hc & Hl & Hw)];
      rewrite Hd; simpl; rewrite ?Hp; simpl.
    + split; [reflexivity|]. split.
      { exists Pending. split; [reflexivity|]. intros e He; discriminate. }
      split; [rewrite Hc; discriminate|]. split.
      { rewrite (load_requests_after_load st) by reflexivity. lia. }
      intros i pattern p H. rewrite Hc in H. simpl in H.
      destruct i as [|[|i]]; simpl in H; try discriminate. now inversion H.
    + split; [assumption|]. split; [exists s; auto|].
      split; [destruct (calls st); discriminate|]. split.
      { rewrite <- Hl. now apply load_requests_same. }
      intros i pattern p H. apply nth_error_snoc_inv in H.
      destruct H as [H|H]; [now inversion H|eauto].
  - (* LoadSettles *)
    destruct (nth_error (promises st) p) as [[|o']|] eqn:Hp; try discriminate.
    inversion Hstep; subst; clear Hstep.
    destruct Hinv as [(Hd & Hp' & Hc & Hl)|(Hd & (s & Hp' & Hs) & Hc & Hl & Hw)].
    + rewrite Hp' in Hp. destruct p; discriminate.
    + right. simpl. rewrite Hp' in *.
      destruct p as [|[|p]]; simpl in Hp; try discriminate.
      repeat split; auto.
      exists (Settled o). split; [reflexivity|].
      intros e He. inversion He; subst. simpl in Hq.
      now apply negb_true_iff in Hq.
  - (* Resume *)
    destruct (nth_error (calls st) i) as [[pattern p| |]|] eqn:Hc; try discriminate.
    destruct (nth_error (promises st) p) as [[|o]|] eqn:Hp; try discriminate.
    inversion Hstep; subst; clear Hstep.
    destruct Hinv as [(Hd & Hp' & Hc' & Hl)|(Hd & (s & Hp' & Hs) & Hc' & Hl & Hw)].
    + rewrite Hc' in Hc. destruct i; discriminate.
    + right. pose proof (Hw _ _ _ Hc) as ->.
      rewrite Hp' in Hp. simpl in Hp. inversion Hp; subst; clear Hp.
      unfold _executeDeleteAll_resume.
      destruct o as [sha1|e].
      * simpl. repeat split; eauto using set_nth_not_nil.
        { rewrite <- Hl. eapply load_requests_after_exec. reflexivity. }
        intros j pattern' p' H. apply nth_error_set_nth_inv in H.
        destruct H as [H|H]; [discriminate|eauto].
      * rewrite (Hs e eq_refl). simpl. repeat split; eauto using set_nth_not_nil.
        intros j pattern' p' H. apply nth_error_set_nth_inv in H.
        destruct H as [H|H]; [discriminate|eauto].
  - (* ExecSettles *)
    destruct (nth_error (calls st) i) as [[| pattern |]|] eqn:Hc; try discriminate.
    inversion Hstep; subst; clear Hstep.
    destruct Hinv as [(Hd & Hp' & Hc' & Hl)|(Hd & (s & Hp' & Hs) & Hc' & Hl & Hw)].
    + rewrite Hc' in Hc. destruct i; discriminate.
    + right. simpl. repeat split; eauto using set_nth_not_nil.
      intros j pattern' p' H. apply nth_error_set_nth_inv in H.
      destruct H as [H|H]; [discriminate|eauto].
Qed.

Lemma coalesced_run evs : forall st st',
  forallb quiet evs = true -> coalesced st -> run evs st = Some st' ->
  coalesced st'.
Proof.
  induction evs as [|ev evs IH]; intros st st' Hq Hinv Hrun; simpl in *.
  - now inversion Hrun; subst.
  - apply andb_true_iff in Hq as (Hq1 & Hq2).
    destruct (step ev st) as [st1|] eqn:Hs; [|discriminate].
    eauto using coalesced_step.
Qed.

Lemma calls_grow ev st st' :
  step ev st = Some st' ->
  List.length (calls st') = List.length (calls st) + (if is_invoke ev then 1 else 0).
Proof.
  destruct ev as [pat|p o|i|i o]; simpl; intros H.
  - inversion H; subst; clear H.
    unfold deleteAll, _executeDeleteAll_enter, _loadDeleteAllScript.
    destruct (deleteScriptPromise st); simpl; rewrite length_app; simpl; lia.
  - destruct (nth_error (promises st) p) as [[|o']|]; try discriminate.
    inversion H; subst; simpl; lia.
  - destruct (nth_error (calls st) i) as [[pattern p| |]|]; try discriminate.
    destruct (nth_error (promises st) p) as [[|o]|]; try discriminate.
    inversion H; subst; clear H. unfold _executeDeleteAll_resume.
    destruct o as [sha1|e]; [|destruct (is_noscript e)]; simpl;
      rewrite length_set_nth; lia.
  - destruct (nth_error (calls st) i) as [[| pattern |]|]; try discriminate.
    inversion H; subst; simpl. rewrite length_set_nth; lia.
Qed.

Lemma calls_after_run evs : forall st st',
  run evs st = Some st' ->
  List.length (calls st')
  = List.length (calls st) + List.length (filter is_invoke evs).
Proof.
  induction evs as [|ev evs IH]; intros st st' Hrun; simpl in *.
  - inversion Hrun; subst; lia.
  - destruct (step ev st) as [st1|] eqn:Hs; [|discriminate].
    rewrite (IH _ _ Hrun), (calls_grow _ _ _ Hs).
    destruct (is_invoke ev); simpl; lia.
Qed.

Lemma existsb_filter {A : Type} (f : A -> bool) (l : list A) :
  existsb f l = negb (Nat.eqb (List.length (filter f l)) 0).
Proof.
  induction l as [|x l IH]; simpl; [reflexivity|].
  destruct (f x); simpl; auto.
Qed.

Lemma new_store_coalesced : coalesced new_store.
Proof. left. repeat split. Qed.

Ltac same_loads st0 H :=
  match type of H with
  | _ < load_requests ?x => rewrite (load_requests_same st0 x eq_refl) in H
  end.

(** A step dispatches a load only when no promise is kept at that moment:
    either none was kept before the event, or the event is the continuation
    of an invocation whose load failed with NOSCRIPT (which forgets the kept
    promise first). *)
Lemma load_only_when_not_loaded ev st st' :
  step ev st = Some st' ->
  load_requests st < load_requests st' ->
  deleteScriptPromise st = None
  \/ exists i pattern p e,
       ev = Resume i
       /\ nth_error (calls st) i = Some (AwaitingLoad pattern p)
       /\ nth_error (promises st) p = Some (Settled (Rejected e))
       /\ is_noscript e = true.
Proof.
  destruct ev as [pat|p o|i|i o]; simpl; intros H Hlt.
  - inversion H; subst; clear H.
    unfold deleteAll, _executeDeleteAll_enter in Hlt.
    pose proof (load_dispatched_iff_not_loaded st) as Hd.
    destruct (_loadDeleteAllScript st) as [p st1]; simpl in *.
    destruct (deleteScriptPromise st); [|now left].
    same_loads st1 Hlt. lia.
  - destruct (nth_error (promises st) p) as [[|o']|]; try discriminate.
    inversion H; subst; clear H.
    same_loads st Hlt. lia.
  - destruct (nth_error (calls st) i) as [[pattern p| |]|] eqn:Hc; try discriminate.
    destruct (nth_error (promises st) p) as [[|o]|] eqn:Hp; try discriminate.
    inversion H; subst; clear H. unfold _executeDeleteAll_resume in Hlt.
    destruct o as [sha1|e].
    + match type of Hlt with
      | _ < load_requests ?x =>
          rewrite (load_requests_after_exec st x sha1 pattern eq_refl) in Hlt
      end. lia.
    + destruct (is_noscript e) eqn:Hn.
      * right. exists i, pattern, p, e. auto.
      * same_loads st Hlt. lia.
  - destruct (nth_error (calls st) i) as [[| pattern |]|]; try discriminate.
    inversion H; subst; clear H.
    same_loads st Hlt. lia.
Qed.

(** With no load refused with NOSCRIPT, every sequence of [deleteAll]
    invocations, answers and continuations dispatches exactly one load
    request once [deleteAll] has been invoked at all, at most one load is in
    flight, and every invocation that waits for a load waits for that
    one. *)
Lemma coalescing (evs : list event) (st : store) :
  forallb quiet evs = true ->
  run evs new_store = Some st ->
  load_requests st = (if existsb is_invoke evs then 1 else 0)
  /\ loads_in_flight st <= 1
  /\ forall i pattern p,
       nth_error (calls st) i = Some (AwaitingLoad pattern p) -> p = 0.
Proof.
  intros Hq Hrun.
  pose proof (coalesced_run evs _ _ Hq new_store_coalesced Hrun) as Hinv.
  pose proof (calls_after_run evs _ _ Hrun) as Hlen. simpl in Hlen.
  rewrite existsb_filter.
  destruct Hinv as [(Hd & Hp & Hc & Hl)|(Hd & (s & Hp & Hs) & Hc & Hl & Hw)].
  - rewrite Hc in Hlen. simpl in Hlen. rewrite <- Hlen. simpl.
    unfold loads_in_flight. rewrite Hp, Hc. simpl. repeat split; auto.
    intros [|i] pattern p H; discriminate.
  - destruct (calls st) as [|c cs] eqn:Hcs; [congruence|]. simpl in Hlen.
    rewrite <- Hlen. simpl. unfold loads_in_flight. rewrite Hp. simpl.
    repeat split; auto. destruct (is_pending s); simpl; lia.
Qed.

End BulkDelete.

(** ** [JSON.stringify] and [JSON.parse] *)

Module Json.

Local Open Scope string_scope.
Local Open Scope nat_scope.
Local Open Scope list_scope.

Definition quote : ascii := "034"%char.
Definition backslash : ascii := "092"%char.

(** *** Printing *)

Definition hex_digit (n : nat) : ascii :=
  if n <? 10 then ascii_of_nat (48 + n) else ascii_of_nat (87 + n).

(** The escape of one character inside a string literal. *)
Definition escape_char (c : ascii) : string :=
  let n := nat_of_ascii c in
  if Ascii.eqb c quote then String backslash (String quote EmptyString)
  else if Ascii.eqb c backslash then String backslash (String backslash EmptyString)
  else if 32 <=? n then String c EmptyString
  else if n =? 8 then String backslash "b"
  else if n =? 9 then String backslash "t"
  else if n =? 10 then String backslash "n"
  else if n =? 12 then String backslash "f"
  else if n =? 13 then String backslash "r"
  else String backslash
         (String "u" (String "0" (String "0"
            (String (hex_digit (n / 16)) (String (hex_digit (n mod 16)) EmptyString))))).

Fixpoint escape (s : string) : string :=
  match s with
  | EmptyString => EmptyString
  | String c r => (escape_char c ++ escape r)%string
  end.

Definition print_string (s : string) : string :=
  String quote (escape s ++ String quote EmptyString)%string.

Definition print_Z (z : Z) : string := NilEmpty.string_of_int (Z.to_int z).

(** The texts of a list, separated by commas. *)
Fixpoint join (l : list string) : string :=
  match l with
  | [] => ""
  | [x] => x
  | x :: rest => (x ++ String "," (join rest))%string
  end.

Definition print_member (k v : string) : string :=
  (print_string k ++ String ":" v)%string.

(** [JSON.stringify(value)] (no indentation). *)
Fixpoint stringify (v : js_value) : string :=
  match v with
  | JNull => "null"
  | JBool true => "true"
  | JBool false => "false"
  | JNum z => print_Z z
  | JFloat literal => literal
  | JStr s => print_string s
  | JArr l => String "[" (join (map stringify l) ++ "]")%string
  | JObj l =>
      String "{"
        (join (map (fun kv => print_member (fst kv) (stringify (snd kv))) l) ++ "}")%string
  end.

(** *** Parsing *)

Inductive presult (A : Type) : Type :=
| Parsed (a : A) (rest : string)
| SyntaxError
| OutOfFuel.
Arguments Parsed {A} a rest.
Arguments SyntaxError {A}.
Arguments OutOfFuel {A}.

Definition is_ws (c : ascii) : bool :=
  let n := nat_of_ascii c in
  (n =? 32) || (n =? 9) || (n =? 10) || (n =? 13).

Fixpoint skip_ws (s : string) : string :=
  match s with
  | String c r => if is_ws c then skip_ws r else s
  | EmptyString => s
  end.

Definition digit_of (c : ascii) : option (uint -> uint) :=
  match nat_of_ascii c - 48 with
  | 0 => if nat_of_ascii c =? 48 then Some D0 else None
  | 1 => Some D1
  | 2 => Some D2
  | 3 => Some D3
  | 4 => Some D4
  | 5 => Some D5
  | 6 => Some D6
  | 7 => Some D7
  | 8 => Some D8
  | 9 => Some D9
  | _ => None
  end.

(** The longest prefix of digits, and what follows it. *)
Fixpoint span_digits (s : string) : uint * string :=
  match s with
  | String c r =>
      match digit_of c with
      | Some D => let (d, rest) := span_digits r in (D d, rest)
      | None => (Nil, s)
      end
  | EmptyString => (Nil, s)
  end.

(** The fraction of a number literal, if one follows: its text. *)
Definition parse_fraction (s : string) : option (string * string) :=
  match s with
  | String c r =>
      if Ascii.eqb c "." then
        match span_digits r with
        | (Nil, _) => None
        | (d, rest) => Some (String "." (NilEmpty.string_of_uint d), rest)
        end
      else Some ("", s)
  | EmptyString => Some ("", s)
  end.

(** The exponent of a number literal, if one follows: its text. *)
Definition parse_exponent (s : string) : option (string * string) :=
  match s with
  | String c r =>
      if Ascii.eqb c "e" || Ascii.eqb c "E" then
        let (sign, r1) :=
          match r with
          | String c' r' =>
              if Ascii.eqb c' "+" || Ascii.eqb c' "-"
              then (String c' EmptyString, r') else ("", r)
          | EmptyString => ("", r)
          end in
        match span_digits r1 with
        | (Nil, _) => None
        | (d, rest) =>
            Some (String c (sign ++ NilEmpty.string_of_uint d)%string, rest)
        end
      else Some ("", s)
  | EmptyString => Some ("", s)
  end.

Definition safe_integer (z : Z) : bool := (Z.abs z <=? 9007199254740991)%Z.

(** The digits of a fraction and the value of an exponent, from their
    texts. *)
Definition fraction_digits (fraction : string) : uint :=
  match fraction with
  | String _ r => fst (span_digits r)
  | EmptyString => Nil
  end.

Definition exponent_value (exponent : string) : Z :=
  match exponent with
  | String _ r =>
      match r with
      | String c r' =>
          if Ascii.eqb c "-" then (- Z.of_uint (fst (span_digits r')))%Z
          else if Ascii.eqb c "+" then Z.of_uint (fst (span_digits r'))
          else Z.of_uint (fst (span_digits r))
      | EmptyString => 0%Z
      end
  | EmptyString => 0%Z
  end.

(** The magnitude that the digits [d], the fraction digits [f] and the
    exponent [x] denote, when it is an integer; one that is too large for
    the safe range may be left out. *)
Definition integer_magnitude (d f : uint) (x : Z) : option Z :=
  let m := Z.of_uint (Decimal.app d f) in
  let e := (x - Z.of_nat (nb_digits f))%Z in
  if (m =? 0)%Z then Some 0%Z
  else if (0 <=? e)%Z then
    if (e <=? 16)%Z then Some (m * 10 ^ e)%Z else None
  else if (- e <=? Z.of_nat (nb_digits d + nb_digits f))%Z then
    if (m mod 10 ^ (- e) =? 0)%Z then Some (m / 10 ^ (- e))%Z else None
  else None.

(** The number a literal denotes: [JNum] when it is an integer of the safe
    range (negative zero is none), else the literal itself. *)
Definition number_of (negative : bool) (d : uint) (fraction exponent : string)
  : js_value :=
  let i := if negative then Neg d else Pos d in
  match fraction, exponent with
  | EmptyString, EmptyString =>
      if safe_integer (Z.of_int i) && negb (negative && (Z.of_int i =? 0)%Z)
      then JNum (Z.of_int i)
      else JFloat (NilEmpty.string_of_int i)
  | _, _ =>
      let literal := (NilEmpty.string_of_int i ++ fraction ++ exponent)%string in
      match integer_magnitude d (fraction_digits fraction)
                              (exponent_value exponent) with
      | Some m =>
          if safe_integer m && negb (negative && (m =? 0)%Z)
          then JNum (if negative then (- m)%Z else m)
          else JFloat literal
      | None => JFloat literal
      end
  end.

(** A number literal: an optional minus, digits without a leading zero,
    an optional fraction, an optional exponent. *)
Definition parse_number (s : string) : presult js_value :=
  let (negative, s1) :=
    match s with
    | String c r => if Ascii.eqb c "-" then (true, r) else (false, s)
    | EmptyString => (false, s)
    end in
  let (d, s2) := span_digits s1 in
  match d with
  | Nil => SyntaxError
  | D0 (D0 _ | D1 _ | D2 _ | D3 _ | D4 _ | D5 _ | D6 _ | D7 _ | D8 _ | D9 _) =>
      SyntaxError
  | _ =>
      match parse_fraction s2 with
      | None => SyntaxError
      | Some (fraction, s3) =>
          match parse_exponent s3 with
          | None => SyntaxError
          | Some (exponent, s4) =>
              Parsed (number_of negative d fraction exponent) s4
          end
      end
  end.

Definition hex_value (c : ascii) : option nat :=
  let n := nat_of_ascii c in
  if (48 <=? n) && (n <=? 57) then Some (n - 48)
  else if (97 <=? n) && (n <=? 102) then Some (n - 87)
  else if (65 <=? n) && (n <=? 70) then Some (n - 55)
  else None.

(** The UTF-8 bytes of a code point. *)
Definition utf8 (n : N) : string :=
  if (n <? 128)%N then String (ascii_of_N n) EmptyString
  else if (n <? 2048)%N then
    String (ascii_of_N (192 + n / 64))
      (String (ascii_of_N (128 + n mod 64)) EmptyString)
  else if (n <? 65536)%N then
    String (ascii_of_N (224 + n / 4096))
      (String (ascii_of_N (128 + (n / 64) mod 64))
         (String (ascii_of_N (128 + n mod 64)) EmptyString))
  else
    String (ascii_of_N (240 + n / 262144))
      (String (ascii_of_N (128 + (n / 4096) mod 64))
         (String (ascii_of_N (128 + (n / 64) mod 64))
            (String (ascii_of_N (128 + n mod 64)) EmptyString))).

(** The code unit of four hexadecimal digits. *)
Definition code_unit (h1 h2 h3 h4 : ascii) : option N :=
  match hex_value h1, hex_value h2, hex_value h3, hex_value h4 with
  | Some a, Some b, Some c, Some d =>
      Some (((N.of_nat a * 16 + N.of_nat b) * 16 + N.of_nat c) * 16 + N.of_nat d)%N
  | _, _, _, _ => None
  end.

Definition high_surrogate (n : N) : bool := ((55296 <=? n) && (n <? 56320))%N.
Definition low_surrogate (n : N) : bool := ((56320 <=? n) && (n <? 57344))%N.

(** The code point of a surrogate pair. *)
Definition code_point (high low : N) : N :=
  (65536 + (high - 55296) * 1024 + (low - 56320))%N.

Definition simple_escape (c : ascii) : option ascii :=
  if Ascii.eqb c quote then Some quote
  else if Ascii.eqb c backslash then Some backslash
  else if Ascii.eqb c "/" then Some "/"%char
  else if Ascii.eqb c "b" then Some (ascii_of_nat 8)
  else if Ascii.eqb c "t" then Some (ascii_of_nat 9)
  else if Ascii.eqb c "n" then Some (ascii_of_nat 10)
  else if Ascii.eqb c "f" then Some (ascii_of_nat 12)
  else if Ascii.eqb c "r" then Some (ascii_of_nat 13)
  else None.

Definition prepend (prefix : string) (r : presult string) : presult string :=
  match r with
  | Parsed s rest => Parsed (prefix ++ s)%string rest
  | SyntaxError => SyntaxError
  | OutOfFuel => OutOfFuel
  end.

(** A string literal after its opening quote: its content and what follows
    the closing quote.  An escaped high surrogate followed by an escaped low
    surrogate is one code point. *)
Fixpoint parse_string (s : string) : presult string :=
  match s with
  | EmptyString => SyntaxError
  | String c r =>
      if Ascii.eqb c quote then Parsed "" r
      else if Ascii.eqb c backslash then
        match r with
        | String e r1 =>
            match simple_escape e with
            | Some c' => prepend (String c' EmptyString) (parse_string r1)
            | None =>
                if Ascii.eqb e "u" then
                  match r1 with
                  | String h1 (String h2 (String h3 (String h4 r2))) =>
                      match code_unit h1 h2 h3 h4 with
                      | Some n =>
                          if high_surrogate n then
                            match r2 with
                            | String b (String u (String g1 (String g2
                                (String g3 (String g4 r3))))) =>
                                match code_unit g1 g2 g3 g4 with
                                | Some m =>
                                    if Ascii.eqb b backslash && Ascii.eqb u "u"
                                       && low_surrogate m
                                    then prepend (utf8 (code_point n m))
                                                 (parse_string r3)
                                    else prepend (utf8 n) (parse_string r2)
                                | None => prepend (utf8 n) (parse_string r2)
                                end
                            | _ => prepend (utf8 n) (parse_string r2)
                            end
                          else prepend (utf8 n) (parse_string r2)
                      | None => SyntaxError
                      end
                  | _ => SyntaxError
                  end
                else SyntaxError
            end
        | EmptyString => SyntaxError
        end
      else if nat_of_ascii c <? 32 then SyntaxError
      else prepend (String c EmptyString) (parse_string r)
  end.

(** The rest of [s] after the prefix [lit], if it starts with it. *)
Fixpoint expect (lit s : string) : option string :=
  match lit with
  | EmptyString => Some s
  | String c lit' =>
      match s with
      | String c' s' => if Ascii.eqb c c' then expect lit' s' else None
      | EmptyString => None
      end
  end.

Definition literal (lit : string) (v : js_value) (s : string) : presult js_value :=
  match expect lit s with
  | Some rest => Parsed v rest
  | None => SyntaxError
  end.

(** The array index that a property key is, if it is one: a decimal
    numeral without a leading zero, below 2^32 - 1. *)
Definition array_index (k : string) : option N :=
  match span_digits k with
  | (d, EmptyString) =>
      match d with
      | Nil => None
      | D0 Nil => Some 0%N
      | D0 _ => None
      | _ => if (N.of_uint d <? 4294967295)%N then Some (N.of_uint d) else None
      end
  | (_, String _ _) => None
  end.

(** Whether the key [k] is enumerated before the key [k'] wherever it was
    defined: the array indices come first, in ascending order. *)
Definition enumerated_before (k k' : string) : bool :=
  match array_index k, array_index k' with
  | Some a, Some b => (a <? b)%N
  | Some _, None => true
  | None, _ => false
  end.

(** Defining a property on the object under construction: a key already
    there keeps its place and takes the new value; a new key goes to its
    place in the enumeration order. *)
Fixpoint define_property (k : string) (v : js_value) (l : list (string * js_value))
  : list (string * js_value) :=
  match l with
  | [] => [(k, v)]
  | (k', v') :: rest =>
      if String.eqb k' k then (k, v) :: rest
      else if enumerated_before k k' then (k, v) :: (k', v') :: rest
      else (k', v') :: define_property k v rest
  end.

Definition object_of_members (members : list (string * js_value))
  : list (string * js_value) :=
  fold_left (fun obj kv => define_property (fst kv) (snd kv) obj) members [].

(** A value; the elements of an array after its opening bracket, up to the
    closing one; the members of an object likewise. *)
Fixpoint parse_value (fuel : nat) (s : string) : presult js_value :=
  match fuel with
  | O => OutOfFuel
  | S fuel' =>
      match skip_ws s with
      | EmptyString => SyntaxError
      | String c r =>
          if Ascii.eqb c "n" then literal "ull" JNull r
          else if Ascii.eqb c "t" then literal "rue" (JBool true) r
          else if Ascii.eqb c "f" then literal "alse" (JBool false) r
          else if Ascii.eqb c quote then
            match parse_string r with
            | Parsed str rest => Parsed (JStr str) rest
            | SyntaxError => SyntaxError
            | OutOfFuel => OutOfFuel
            end
          else if Ascii.eqb c "[" then
            match skip_ws r with
            | String c' r' =>
                if Ascii.eqb c' "]" then Parsed (JArr []) r'
                else
                  match parse_elements fuel' r with
                  | Parsed l rest => Parsed (JArr l) rest
                  | SyntaxError => SyntaxError
                  | OutOfFuel => OutOfFuel
                  end
            | EmptyString => SyntaxError
            end
          else if Ascii.eqb c "{" then
            match skip_ws r with
            | String c' r' =>
                if Ascii.eqb c' "}" then Parsed (JObj []) r'
                else
                  match parse_members fuel' r with
                  | Parsed l rest => Parsed (JObj (object_of_members l)) rest
                  | SyntaxError => SyntaxError
                  | OutOfFuel => OutOfFuel
                  end
            | EmptyString => SyntaxError
            end
          else parse_number (String c r)
      end
  end
with parse_elements (fuel : nat) (s : string) : presult (list js_value) :=
  match fuel with
  | O => OutOfFuel
  | S fuel' =>
      match parse_value fuel' s with
      | Parsed v rest =>
          match skip_ws rest with
          | String c r =>
              if Ascii.eqb c "," then
                match parse_elements fuel' r with
                | Parsed l rest' => Parsed (v :: l) rest'
                | SyntaxError => SyntaxError
                | OutOfFuel => OutOfFuel
                end
              else if Ascii.eqb c "]" then Parsed [v] r
              else SyntaxError
          | EmptyString => SyntaxError
          end
      | SyntaxError => SyntaxError
      | OutOfFuel => OutOfFuel
      end
  end
with parse_members (fuel : nat) (s : string) : presult (list (string * js_value)) :=
  match fuel with
  | O => OutOfFuel
  | S fuel' =>
      match skip_ws s with
      | String q r =>
          if Ascii.eqb q quote then
            match parse_string r with
            | Parsed k rest =>
                match skip_ws rest with
                | String c r1 =>
                    if Ascii.eqb c ":" then
                      match parse_value fuel' r1 with
                      | Parsed v rest1 =>
                          match skip_ws rest1 with
                          | String c' r2 =>
                              if Ascii.eqb c' "," then
                                match parse_members fuel' r2 with
                                | Parsed l rest2 => Parsed ((k, v) :: l) rest2
                                | SyntaxError => SyntaxError
                                | OutOfFuel => OutOfFuel
                                end
                              else if Ascii.eqb c' "}" then Parsed [(k, v)] r2
                              else SyntaxError
                          | EmptyString => SyntaxError
                          end
                      | SyntaxError => SyntaxError
                      | OutOfFuel => OutOfFuel
                      end
                    else SyntaxError
                | EmptyString => SyntaxError
                end
            | SyntaxError => SyntaxError
            | OutOfFuel => OutOfFuel
            end
          else SyntaxError
      | EmptyString => SyntaxError
      end
  end.

(** [JSON.parse(text)]: [None] when it throws a SyntaxError. *)
Definition parse (text : string) : option js_value :=
  match parse_value (2 * String.length text + 1) text with
  | Parsed v rest =>
      match skip_ws rest with
      | EmptyString => Some v
      | String _ _ => None
      end
  | SyntaxError => None
  | OutOfFuel => None
  end.

(** The values [stringify] and [parse] carry without loss: null, the
    booleans, the integers of the safe range, strings, and arrays and
    objects of such values, an object having each key once, its keys in
    enumeration order. *)
Fixpoint has_key (k : string) (l : list (string * js_value)) : bool :=
  match l with
  | [] => false
  | (k', _) :: rest => String.eqb k' k || has_key k rest
  end.

Fixpoint distinct_keys (l : list (string * js_value)) : bool :=
  match l with
  | [] => true
  | (k, _) :: rest => negb (has_key k rest) && distinct_keys rest
  end.

(** No key of [l] is enumerated before [k]. *)
Definition none_before (k : string) (l : list (string * js_value)) : bool :=
  forallb (fun kv => negb (enumerated_before (fst kv) k)) l.

Fixpoint ordered_keys (l : list (string * js_value)) : bool :=
  match l with
  | [] => true
  | (k, _) :: rest => none_before k rest && ordered_keys rest
  end.

Fixpoint representable (v : js_value) : bool :=
  match v with
  | JNull => true
  | JBool _ => true
  | JNum z => safe_integer z
  | JFloat _ => false
  | JStr _ => true
  | JArr l => forallb representable l
  | JObj l =>
      distinct_keys l && ordered_keys l
      && forallb (fun kv => representable (snd kv)) l
  end.

(** A reader of texts that gives back the representable values from what
    [stringify] writes for them, as [JSON.parse] does. *)
Definition reads_back (reader : string -> option js_value) : Prop :=
  forall v, representable v = true -> reader (stringify v) = Some v.

(** *** Round trip *)

Lemma app_assoc_s (a b c : string) : ((a ++ b) ++ c = a ++ (b ++ c))%string.
Proof. induction a as [|x a IH]; simpl; [reflexivity|now rewrite IH]. Qed.

Lemma length_app_s (a b : string) :
  String.length (a ++ b)%string = String.length a + String.length b.
Proof. induction a as [|x a IH]; simpl; [reflexivity|now rewrite IH]. Qed.

(** Induction over values, with the elements of arrays and objects. *)
Lemma js_value_induction (P : js_value -> Prop) :
  P JNull ->
  (forall b, P (JBool b)) ->
  (forall z, P (JNum z)) ->
  (forall literal, P (JFloat literal)) ->
  (forall s, P (JStr s)) ->
  (forall l, Forall P l -> P (JArr l)) ->
  (forall l, Forall (fun kv => P (snd kv)) l -> P (JObj l)) ->
  forall v, P v.
Proof.
  intros Hnull Hbool Hnum Hfloat Hstr Harr Hobj.
  fix IH 1. intros [ |b|z|literal|s|l|l].
  - exact Hnull.
  - apply Hbool.
  - apply Hnum.
  - apply Hfloat.
  - apply Hstr.
  - apply Harr. induction l as [|v l IHl]; constructor; [apply IH|exact IHl].
  - apply Hobj. induction l as [|[k v] l IHl]; constructor; [apply IH|exact IHl].
Qed.

(** What may follow a value inside a text: the end, or a delimiter. *)
Definition token_end (s : string) : bool :=
  match s with
  | EmptyString => true
  | String c _ => Ascii.eqb c "," || Ascii.eqb c "]" || Ascii.eqb c "}"
  end.

Definition starts_with_digit (s : string) : bool :=
  match s with
  | EmptyString => false
  | String c _ => match digit_of c with Some _ => true | None => false end
  end.

Lemma span_digits_stop (s : string) :
  starts_with_digit s = false -> span_digits s = (Nil, s).
Proof.
  destruct s as [|c r]; simpl; [reflexivity|].
  destruct (digit_of c); [discriminate|reflexivity].
Qed.

Lemma span_digits_print (d : uint) (rest : string) :
  starts_with_digit rest = false ->
  span_digits (NilEmpty.string_of_uint d ++ rest) = (d, rest).
Proof.
  intros H. induction d; simpl NilEmpty.string_of_uint; simpl append;
    [now apply span_digits_stop|..];
    cbn [span_digits]; rewrite IHd; reflexivity.
Qed.

Lemma token_end_not_digit (s : string) :
  token_end s = true -> starts_with_digit s = false.
Proof.
  destruct s as [|c r]; simpl; [reflexivity|].
  intros H. apply orb_true_iff in H as [H|H]; [apply orb_true_iff in H as [H|H]|];
    apply Ascii.eqb_eq in H; subst; reflexivity.
Qed.

Lemma token_end_no_fraction (s : string) :
  token_end s = true -> parse_fraction s = Some (EmptyString, s).
Proof.
  destruct s as [|c r]; simpl; [reflexivity|].
  intros H. apply orb_true_iff in H as [H|H]; [apply orb_true_iff in H as [H|H]|];
    apply Ascii.eqb_eq in H; subst; reflexivity.
Qed.

Lemma token_end_no_exponent (s : string) :
  token_end s = true -> parse_exponent s = Some (EmptyString, s).
Proof.
  destruct s as [|c r]; simpl; [reflexivity|].
  intros H. apply orb_true_iff in H as [H|H]; [apply orb_true_iff in H as [H|H]|];
    apply Ascii.eqb_eq in H; subst; reflexivity.
Qed.

(** The decimal writing of a positive number has no leading zero. *)
Lemma to_uint_no_leading_zero (p : positive) (d : uint) :
  Pos.to_uint p <> D0 d.
Proof.
  intros H.
  assert (Hn : unorm (Pos.to_uint p) = Pos.to_uint p).
  { rewrite <- (Unsigned.to_of (Pos.to_uint p)), Unsigned.of_to. reflexivity. }
  rewrite H, unorm_D0 in Hn.
  destruct d as [|d|d|d|d|d|d|d|d|d|d].
  - apply (Unsigned.to_uint_nonzero p). exact H.
  - pose proof (nb_digits_unorm (D0 d) ltac:(discriminate)) as Hl.
    rewrite Hn in Hl. simpl in Hl. lia.
  - pose proof (nb_digits_unorm (D1 d) ltac:(discriminate)) as Hl.
    rewrite Hn in Hl. simpl in Hl. lia.
  - pose proof (nb_digits_unorm (D2 d) ltac:(discriminate)) as Hl.
    rewrite Hn in Hl. simpl in Hl. lia.
  - pose proof (nb_digits_unorm (D3 d) ltac:(discriminate)) as Hl.
    rewrite Hn in Hl. simpl in Hl. lia.
  - pose proof (nb_digits_unorm (D4 d) ltac:(discriminate)) as Hl.
    rewrite Hn in Hl. simpl in Hl. lia.
  - pose proof (nb_digits_unorm (D5 d) ltac:(discriminate)) as Hl.
    rewrite Hn in Hl. simpl in Hl. lia.
  - pose proof (nb_digits_unorm (D6 d) ltac:(discriminate)) as Hl.
    rewrite Hn in Hl. simpl in Hl. lia.
  - pose proof (nb_digits_unorm (D7 d) ltac:(discriminate)) as Hl.
    rewrite Hn in Hl. simpl in Hl. lia.
  - pose proof (nb_digits_unorm (D8 d) ltac:(discriminate)) as Hl.
    rewrite Hn in Hl. simpl in Hl. lia.
  - pose proof (nb_digits_unorm (D9 d) ltac:(discriminate)) as Hl.
    rewrite Hn in Hl. simpl in Hl. lia.
Qed.

(** The first character of a number's decimal writing is a digit. *)
Lemma string_of_uint_head (d : uint) :
  d <> Nil ->
  exists c r, NilEmpty.string_of_uint d = String c r
              /\ Ascii.eqb c "-" = false /\ is_ws c = false.
Proof.
  destruct d; intros H; [congruence|..]; simpl; do 2 eexists; repeat split.
Qed.

Lemma parse_number_unsigned (d : uint) (rest : string) :
  d <> Nil -> (forall d', d <> D0 d' \/ d' = Nil) ->
  safe_integer (Z.of_int (Pos d)) = true ->
  token_end rest = true ->
  parse_number (NilEmpty.string_of_uint d ++ rest)
  = Parsed (JNum (Z.of_int (Pos d))) rest.
Proof.
  intros Hnil Hz Hsafe Hend.
  assert (Hnum : number_of false d EmptyString EmptyString = JNum (Z.of_int (Pos d))).
  { unfold number_of. now rewrite Hsafe. }
  destruct (string_of_uint_head d Hnil) as (c & r & Hs & Hc & _).
  unfold parse_number.
  assert (Hsign : match (NilEmpty.string_of_uint d ++ rest)%string with
                  | String c r => if Ascii.eqb c "-" then (true, r)
                                  else (false, (NilEmpty.string_of_uint d ++ rest)%string)
                  | EmptyString => (false, (NilEmpty.string_of_uint d ++ rest)%string)
                  end = (false, (NilEmpty.string_of_uint d ++ rest)%string)).
  { rewrite Hs. simpl. now rewrite Hc. }
  rewrite Hsign.
  rewrite (span_digits_print d rest (token_end_not_digit _ Hend)).
  rewrite (token_end_no_fraction _ Hend), (token_end_no_exponent _ Hend).
  rewrite Hnum.
  destruct d as [|d|d|d|d|d|d|d|d|d|d]; try congruence; try reflexivity.
  destruct (Hz d) as [H|H]; [congruence|]. subst. reflexivity.
Qed.

Lemma parse_number_negative (d : uint) (rest : string) :
  d <> Nil -> (forall d', d <> D0 d' \/ d' = Nil) ->
  safe_integer (Z.of_int (Neg d)) = true -> Z.of_int (Neg d) <> 0%Z ->
  token_end rest = true ->
  parse_number (String "-" (NilEmpty.string_of_uint d ++ rest))
  = Parsed (JNum (Z.of_int (Neg d))) rest.
Proof.
  intros Hnil Hz Hsafe Hnz Hend.
  assert (Hnum : number_of true d EmptyString EmptyString = JNum (Z.of_int (Neg d))).
  { unfold number_of. rewrite Hsafe.
    now replace (Z.of_int (Neg d) =? 0)%Z with false
      by (symmetry; apply Z.eqb_neq; exact Hnz). }
  unfold parse_number. cbn [Ascii.eqb Bool.eqb].
  rewrite (span_digits_print d rest (token_end_not_digit _ Hend)).
  rewrite (token_end_no_fraction _ Hend), (token_end_no_exponent _ Hend).
  rewrite Hnum.
  destruct d as [|d|d|d|d|d|d|d|d|d|d]; try congruence; try reflexivity.
  destruct (Hz d) as [H|H]; [congruence|]. subst. reflexivity.
Qed.

Lemma parse_number_print (z : Z) (rest : string) :
  safe_integer z = true ->
  token_end rest = true ->
  parse_number (print_Z z ++ rest) = Parsed (JNum z) rest.
Proof.
  intros Hsafe Hend. unfold print_Z.
  rewrite <- (DecimalZ.of_to z) at 2.
  rewrite <- (DecimalZ.of_to z) in Hsafe.
  destruct z as [|p|p]; simpl Z.to_int in *; simpl NilEmpty.string_of_int.
  - apply (parse_number_unsigned (D0 Nil)); auto; [discriminate|].
    intros d'. destruct d'; [now right|left; congruence..].
  - apply parse_number_unsigned; auto using Unsigned.to_uint_nonnil.
    intros d'. left. apply to_uint_no_leading_zero.
  - apply parse_number_negative; auto using Unsigned.to_uint_nonnil.
    + intros d'. left. apply to_uint_no_leading_zero.
    + change (Neg (Pos.to_uint p)) with (Z.to_int (Z.neg p)).
      rewrite DecimalZ.of_to. discriminate.
Qed.

(** The characters a number literal may start with. *)
Definition number_start (c : ascii) : bool :=
  match digit_of c with Some _ => true | None => Ascii.eqb c "-" end.

Lemma print_Z_head (z : Z) :
  exists c r, print_Z z = String c r /\ number_start c = true.
Proof.
  unfold print_Z. destruct z as [|p|p]; simpl.
  - do 2 eexists. split; reflexivity.
  - pose proof (Unsigned.to_uint_nonnil p) as H.
    destruct (Pos.to_uint p); [congruence|..]; simpl; do 2 eexists; split; reflexivity.
  - do 2 eexists. split; reflexivity.
Qed.

Lemma parse_value_number (fuel : nat) (c : ascii) (r : string) :
  number_start c = true ->
  parse_value (S fuel) (String c r) = parse_number (String c r).
Proof.
  destruct c as [[|] [|] [|] [|] [|] [|] [|] [|]]; intros H; try discriminate H;
    reflexivity.
Qed.

Lemma parse_string_escape_char (c : ascii) (tail : string) :
  parse_string (escape_char c ++ tail)
  = prepend (String c EmptyString) (parse_string tail).
Proof.
  destruct c as [[|] [|] [|] [|] [|] [|] [|] [|]]; reflexivity.
Qed.

Lemma parse_string_escape (s rest : string) :
  parse_string (escape s ++ String quote rest) = Parsed s rest.
Proof.
  induction s as [|c s IH]; simpl.
  - reflexivity.
  - rewrite app_assoc_s, parse_string_escape_char, IH. reflexivity.
Qed.

Lemma print_string_app (s rest : string) :
  (print_string s ++ rest)%string = String quote (escape s ++ String quote rest).
Proof.
  unfold print_string. simpl. now rewrite app_assoc_s.
Qed.

Lemma parse_value_quote (fuel : nat) (r : string) :
  parse_value (S fuel) (String quote r)
  = match parse_string r with
    | Parsed str rest => Parsed (JStr str) rest
    | SyntaxError => SyntaxError
    | OutOfFuel => OutOfFuel
    end.
Proof. reflexivity. Qed.

Lemma parse_value_string (fuel : nat) (s rest : string) :
  parse_value (S fuel) (print_string s ++ rest) = Parsed (JStr s) rest.
Proof.
  rewrite print_string_app, parse_value_quote, parse_string_escape. reflexivity.
Qed.

Lemma number_start_plain (c : ascii) :
  number_start c = true ->
  is_ws c = false /\ Ascii.eqb c "]" = false /\ Ascii.eqb c "}" = false.
Proof.
  destruct c as [[|] [|] [|] [|] [|] [|] [|] [|]]; intros H; try discriminate H;
    repeat split.
Qed.

(** The text of a value starts with a character that is neither blank nor a
    closing bracket. *)
Lemma stringify_head (v : js_value) :
  representable v = true ->
  exists c r, stringify v = String c r
              /\ is_ws c = false /\ Ascii.eqb c "]" = false
              /\ Ascii.eqb c "}" = false.
Proof.
  destruct v as [ |[|]|z|literal|s|l|l]; simpl; intros H; try discriminate H;
    try (do 2 eexists; repeat split; fail).
  destruct (print_Z_head z) as (c & r & Hs & Hc).
  exists c, r. split; [exact Hs|]. now apply number_start_plain.
Qed.

Lemma skip_ws_plain (c : ascii) (r : string) :
  is_ws c = false -> skip_ws (String c r) = String c r.
Proof. intros H. simpl. now rewrite H. Qed.

(** The parsers, one step unfolded. *)
Lemma parse_value_array (fuel : nat) (r : string) :
  parse_value (S fuel) (String "[" r)
  = match skip_ws r with
    | String c' r' =>
        if Ascii.eqb c' "]" then Parsed (JArr []) r'
        else
          match parse_elements fuel r with
          | Parsed l rest => Parsed (JArr l) rest
          | SyntaxError => SyntaxError
          | OutOfFuel => OutOfFuel
          end
    | EmptyString => SyntaxError
    end.
Proof. reflexivity. Qed.

Lemma parse_value_object (fuel : nat) (r : string) :
  parse_value (S fuel) (String "{" r)
  = match skip_ws r with
    | String c' r' =>
        if Ascii.eqb c' "}" then Parsed (JObj []) r'
        else
          match parse_members fuel r with
          | Parsed l rest => Parsed (JObj (object_of_members l)) rest
          | SyntaxError => SyntaxError
          | OutOfFuel => OutOfFuel
          end
    | EmptyString => SyntaxError
    end.
Proof. reflexivity. Qed.

Lemma parse_elements_step (fuel : nat) (s : string) :
  parse_elements (S fuel) s
  = match parse_value fuel s with
    | Parsed v rest =>
        match skip_ws rest with
        | String c r =>
            if Ascii.eqb c "," then
              match parse_elements fuel r with
              | Parsed l rest' => Parsed (v :: l) rest'
              | SyntaxError => SyntaxError
              | OutOfFuel => OutOfFuel
              end
            else if Ascii.eqb c "]" then Parsed [v] r
            else SyntaxError
        | EmptyString => SyntaxError
        end
    | SyntaxError => SyntaxError
    | OutOfFuel => OutOfFuel
    end.
Proof. reflexivity. Qed.

Lemma parse_members_step (fuel : nat) (k rest : string) :
  parse_members (S fuel) (print_string k ++ rest)
  = match skip_ws rest with
    | String c r1 =>
        if Ascii.eqb c ":" then
          match parse_value fuel r1 with
          | Parsed v rest1 =>
              match skip_ws rest1 with
              | String c' r2 =>
                  if Ascii.eqb c' "," then
                    match parse_members fuel r2 with
                    | Parsed l rest2 => Parsed ((k, v) :: l) rest2
                    | SyntaxError => SyntaxError
                    | OutOfFuel => OutOfFuel
                    end
                  else if Ascii.eqb c' "}" then Parsed [(k, v)] r2
                  else SyntaxError
              | EmptyString => SyntaxError
              end
          | SyntaxError => SyntaxError
          | OutOfFuel => OutOfFuel
          end
        else SyntaxError
    | EmptyString => SyntaxError
    end.
Proof.
  rewrite print_string_app.
  change (parse_members (S fuel) (String quote (escape k ++ String quote rest)))
    with (match parse_string (escape k ++ String quote rest) with
          | Parsed k rest =>
              match skip_ws rest with
              | String c r1 =>
                  if Ascii.eqb c ":" then
                    match parse_value fuel r1 with
                    | Parsed v rest1 =>
                        match skip_ws rest1 with
                        | String c' r2 =>
                            if Ascii.eqb c' "," then
                              match parse_members fuel r2 with
                              | Parsed l rest2 => Parsed ((k, v) :: l) rest2
                              | SyntaxError => SyntaxError
                              | OutOfFuel => OutOfFuel
                              end
                            else if Ascii.eqb c' "}" then Parsed [(k, v)] r2
                            else SyntaxError
                        | EmptyString => SyntaxError
                        end
                    | SyntaxError => SyntaxError
                    | OutOfFuel => OutOfFuel
                    end
                  else SyntaxError
              | EmptyString => SyntaxError
              end
          | SyntaxError => SyntaxError
          | OutOfFuel => OutOfFuel
          end).
  now rewrite parse_string_escape.
Qed.

(** A value whose text, followed by a delimiter, is read back as the value. *)
Definition round_trips (v : js_value) : Prop :=
  representable v = true ->
  forall (fuel : nat) (rest : string),
    2 * String.length (stringify v) + 1 <= fuel ->
    token_end rest = true ->
    parse_value fuel (stringify v ++ rest) = Parsed v rest.

Lemma stringify_nonempty (v : js_value) :
  representable v = true -> 1 <= String.length (stringify v).
Proof.
  intros H. destruct (stringify_head v H) as (c & r & Hs & _).
  rewrite Hs. simpl. lia.
Qed.

Lemma parse_elements_join (l : list js_value) :
  l <> [] -> Forall round_trips l -> forallb representable l = true ->
  forall (fuel : nat) (rest : string),
    2 * String.length (join (map stringify l)) + 2 <= fuel ->
    parse_elements fuel (join (map stringify l) ++ String "]" rest)
    = Parsed l rest.
Proof.
  induction l as [|v l IH]; intros Hne Hall Hrep fuel rest Hfuel; [congruence|].
  inversion Hall as [|? ? Hv Hl]; subst.
  simpl in Hrep. apply andb_true_iff in Hrep as (Hrv & Hrl).
  destruct fuel as [|fuel]; [lia|]. rewrite parse_elements_step.
  destruct l as [|v2 l].
  - simpl join in *.
    rewrite (Hv Hrv fuel (String "]" rest)) by (simpl; auto; lia).
    reflexivity.
  - change (join (map stringify (v :: v2 :: l)))
      with (stringify v ++ String "," (join (map stringify (v2 :: l))))%string in *.
    remember (join (map stringify (v2 :: l))) as J eqn:HJ.
    rewrite length_app_s in Hfuel. cbn [String.length] in Hfuel.
    rewrite app_assoc_s. cbn [append].
    rewrite (Hv Hrv fuel) by (simpl; auto; lia).
    simpl skip_ws. cbv iota. simpl Ascii.eqb. cbv iota.
    pose proof (stringify_nonempty v Hrv).
    subst J. rewrite IH; auto; [discriminate|lia].
Qed.

Lemma length_print_string (k : string) : 2 <= String.length (print_string k).
Proof. unfold print_string. simpl. rewrite length_app_s. simpl. lia. Qed.

Lemma parse_members_join (l : list (string * js_value)) :
  l <> [] -> Forall (fun kv => round_trips (snd kv)) l ->
  forallb (fun kv => representable (snd kv)) l = true ->
  forall (fuel : nat) (rest : string),
    2 * String.length
          (join (map (fun kv => print_member (fst kv) (stringify (snd kv))) l))
    + 2 <= fuel ->
    parse_members fuel
      (join (map (fun kv => print_member (fst kv) (stringify (snd kv))) l)
       ++ String "}" rest)
    = Parsed l rest.
Proof.
  induction l as [|[k v] l IH]; intros Hne Hall Hrep fuel rest Hfuel; [congruence|].
  inversion Hall as [|? ? Hv Hl]; subst. simpl in Hv.
  simpl in Hrep. apply andb_true_iff in Hrep as (Hrv & Hrl).
  destruct fuel as [|fuel]; [lia|].
  pose proof (length_print_string k) as Hk.
  destruct l as [|kv2 l].
  - simpl join in *. unfold print_member in *.
    rewrite length_app_s in Hfuel. cbn [String.length] in Hfuel.
    rewrite app_assoc_s. cbn [append].
    rewrite parse_members_step. simpl skip_ws. cbv iota. simpl Ascii.eqb. cbv iota.
    rewrite (Hv Hrv fuel (String "}" rest)) by (simpl; auto; lia).
    reflexivity.
  - change (join (map (fun kv => print_member (fst kv) (stringify (snd kv)))
                      ((k, v) :: kv2 :: l)))
      with (print_member k (stringify v)
            ++ String ","
                 (join (map (fun kv => print_member (fst kv) (stringify (snd kv)))
                            (kv2 :: l))))%string in *.
    remember (join (map (fun kv => print_member (fst kv) (stringify (snd kv)))
                        (kv2 :: l))) as J eqn:HJ.
    unfold print_member in Hfuel. unfold print_member.
    rewrite !length_app_s in Hfuel. cbn [String.length] in Hfuel.
    rewrite ?length_app_s in Hfuel.
    rewrite !app_assoc_s. cbn [append]. rewrite ?app_assoc_s. cbn [append].
    rewrite parse_members_step. simpl skip_ws. cbv iota. simpl Ascii.eqb. cbv iota.
    rewrite (Hv Hrv fuel) by (simpl; auto; lia).
    simpl skip_ws. cbv iota. simpl Ascii.eqb. cbv iota.
    subst J. rewrite IH; auto; [discriminate|lia].
Qed.

(** The key [k] is enumerated before no key of [l]. *)
Definition before_none (k : string) (l : list (string * js_value)) : bool :=
  forallb (fun kv => negb (enumerated_before k (fst kv))) l.

Lemma define_property_new k v (l : list (string * js_value)) :
  has_key k l = false -> before_none k l = true ->
  define_property k v l = l ++ [(k, v)].
Proof.
  induction l as [|[k' v'] l IH]; simpl; [reflexivity|].
  intros H Hb. apply orb_false_iff in H as (H1 & H2).
  apply andb_true_iff in Hb as (Hb1 & Hb2). apply negb_true_iff in Hb1.
  rewrite H1, Hb1, IH; auto.
Qed.

Lemma has_key_app k (l1 l2 : list (string * js_value)) :
  has_key k (l1 ++ l2) = has_key k l1 || has_key k l2.
Proof.
  induction l1 as [|[k' v'] l1 IH]; simpl; [reflexivity|].
  now rewrite IH, orb_assoc.
Qed.

Lemma has_key_sym k k' v (l : list (string * js_value)) :
  has_key k (l ++ [(k', v)]) = has_key k l || String.eqb k' k.
Proof. rewrite has_key_app. simpl. now rewrite orb_false_r. Qed.

Lemma before_none_app k (l1 l2 : list (string * js_value)) :
  before_none k (l1 ++ l2) = before_none k l1 && before_none k l2.
Proof. unfold before_none. apply forallb_app. Qed.

Lemma object_of_distinct_members (l : list (string * js_value)) :
  forall acc,
    distinct_keys l = true -> ordered_keys l = true ->
    (forall k, has_key k acc = true -> has_key k l = false) ->
    forallb (fun kv => before_none (fst kv) acc) l = true ->
    fold_left (fun obj kv => define_property (fst kv) (snd kv) obj) l acc
    = acc ++ l.
Proof.
  induction l as [|[k v] l IH]; intros acc Hd Ho Hacc Hb; simpl.
  - now rewrite List.app_nil_r.
  - simpl in Hd. apply andb_true_iff in Hd as (Hk & Hd).
    apply negb_true_iff in Hk.
    simpl in Ho. apply andb_true_iff in Ho as (Hok & Ho).
    simpl in Hb. apply andb_true_iff in Hb as (Hbk & Hb).
    assert (Hka : has_key k acc = false).
    { destruct (has_key k acc) eqn:E; [|reflexivity].
      specialize (Hacc k E). simpl in Hacc. now rewrite String.eqb_refl in Hacc. }
    rewrite define_property_new by assumption.
    rewrite IH; [now rewrite <- List.app_assoc|exact Hd|exact Ho| |].
    + intros k0 H0. rewrite has_key_sym in H0.
      apply orb_true_iff in H0 as [H0|H0].
      * specialize (Hacc k0 H0). simpl in Hacc.
        now apply orb_false_iff in Hacc.
      * apply String.eqb_eq in H0. now subst.
    + apply forallb_forall. intros [k1 v1] Hin.
      rewrite before_none_app. cbn [fst].
      rewrite forallb_forall in Hb. pose proof (Hb (k1, v1) Hin) as H1.
      unfold none_before in Hok. rewrite forallb_forall in Hok.
      pose proof (Hok (k1, v1) Hin) as H2. cbn [fst] in H1, H2.
      rewrite H1. unfold before_none. simpl. now rewrite H2.
Qed.

Lemma object_of_members_distinct (l : list (string * js_value)) :
  distinct_keys l = true -> ordered_keys l = true -> object_of_members l = l.
Proof.
  intros H Ho. unfold object_of_members.
  rewrite object_of_distinct_members; auto.
  - intros k Hk; discriminate.
  - apply forallb_forall. reflexivity.
Qed.

(** Every representable value is read back from its text. *)
Lemma stringify_round_trips (v : js_value) : round_trips v.
Proof.
  induction v as [ |b|z|literal|s|l IH|l IH] using js_value_induction;
    intros Hrep fuel rest Hfuel Hend.
  - destruct fuel; [simpl in Hfuel; lia|]. reflexivity.
  - destruct fuel; [simpl in Hfuel; lia|]. destruct b; reflexivity.
  - destruct fuel; [simpl in Hfuel; lia|]. simpl stringify.
    destruct (print_Z_head z) as (c & r & Hs & Hc).
    pose proof (parse_number_print z rest Hrep Hend) as Hn.
    rewrite Hs in *. simpl append in *.
    now rewrite parse_value_number.
  - discriminate.
  - destruct fuel; [simpl in Hfuel; lia|]. apply parse_value_string.
  - destruct fuel as [|fuel]; [simpl in Hfuel; lia|].
    simpl in Hrep. simpl stringify in *. cbn [String.length] in Hfuel.
    rewrite length_app_s in Hfuel. cbn [String.length] in Hfuel.
    cbn [append]. rewrite app_assoc_s. cbn [append].
    rewrite parse_value_array.
    destruct l as [|v l].
    + reflexivity.
    + assert (Hv : representable v = true).
      { simpl in Hrep. now apply andb_true_iff in Hrep. }
      destruct (stringify_head v Hv) as (c & r & Hs & Hw & Hb & _).
      assert (Hj : exists r', (join (map stringify (v :: l)) ++ String "]" rest)%string
                              = String c r').
      { simpl map. destruct (map stringify l); simpl join; rewrite Hs;
          simpl; eauto. }
      destruct Hj as (r' & Hj).
      rewrite parse_elements_join; auto; [|discriminate|lia].
      rewrite Hj, (skip_ws_plain c r' Hw), Hb. reflexivity.
  - destruct fuel as [|fuel]; [simpl in Hfuel; lia|].
    simpl in Hrep. apply andb_true_iff in Hrep as (Hd & Hrep).
    apply andb_true_iff in Hd as (Hd & Ho).
    simpl stringify in *. cbn [String.length] in Hfuel.
    rewrite length_app_s in Hfuel. cbn [String.length] in Hfuel.
    cbn [append]. rewrite app_assoc_s. cbn [append].
    rewrite parse_value_object.
    destruct l as [|[k v] l].
    + reflexivity.
    + assert (Hj : exists r',
                 (join (map (fun kv => print_member (fst kv) (stringify (snd kv)))
                            ((k, v) :: l)) ++ String "}" rest)%string
                 = String quote r').
      { simpl map.
        destruct (map (fun kv => print_member (fst kv) (stringify (snd kv))) l);
          simpl join; unfold print_member, print_string; simpl; eauto. }
      destruct Hj as (r' & Hj).
      rewrite parse_members_join; auto; [|discriminate|lia].
      rewrite Hj, (skip_ws_plain quote r' eq_refl).
      change (Ascii.eqb quote "}") with false. cbv iota.
      now rewrite object_of_members_distinct.
Qed.

(** [JSON.parse(JSON.stringify(v))] is [v] for every representable [v]. *)
Lemma parse_stringify (v : js_value) :
  representable v = true -> parse (stringify v) = Some v.
Proof.
  intros H. unfold parse.
  pose proof (stringify_round_trips v H (2 * String.length (stringify v) + 1)
                EmptyString (le_n _) eq_refl) as Hp.
  assert (Hnil : forall s : string, (s ++ EmptyString)%string = s).
  { induction s as [|c s IH]; simpl; [reflexivity|now rewrite IH]. }
  rewrite Hnil in Hp. rewrite Hp. reflexivity.
Qed.

Lemma parse_reads_back : reads_back parse.
Proof. exact parse_stringify. Qed.

(** *** The fuel of [parse] is enough *)

Lemma skip_ws_length (s : string) : String.length (skip_ws s) <= String.length s.
Proof.
  induction s as [|c s IH]; simpl; [lia|].
  destruct (is_ws c); simpl; lia.
Qed.

Lemma skip_ws_cons (s : string) (c : ascii) (r : string) :
  skip_ws s = String c r -> String.length r < String.length s.
Proof.
  intros H. pose proof (skip_ws_length s) as Hl. rewrite H in Hl. simpl in Hl. lia.
Qed.

Lemma span_digits_length (s : string) :
  String.length (snd (span_digits s)) <= String.length s
  /\ (fst (span_digits s) <> Nil ->
      String.length (snd (span_digits s)) < String.length s).
Proof.
  induction s as [|c s IH]; simpl; [split; [lia|congruence]|].
  destruct (digit_of c) as [D|]; simpl; [|split; [lia|congruence]].
  destruct (span_digits s) as [d rest]; simpl in *. split; lia.
Qed.

Lemma parse_fraction_length (s text rest : string) :
  parse_fraction s = Some (text, rest) -> String.length rest <= String.length s.
Proof.
  unfold parse_fraction. destruct s as [|c r]; [intros H; inversion H; simpl; lia|].
  destruct (Ascii.eqb c "."); [|intros H; inversion H; simpl; lia].
  pose proof (span_digits_length r) as (Hl & _).
  destruct (span_digits r) as [d rest']; simpl in Hl.
  destruct d; intros H; inversion H; subst; simpl; lia.
Qed.

Lemma parse_exponent_length (s text rest : string) :
  parse_exponent s = Some (text, rest) -> String.length rest <= String.length s.
Proof.
  unfold parse_exponent. destruct s as [|c r]; [intros H; inversion H; simpl; lia|].
  destruct (Ascii.eqb c "e" || Ascii.eqb c "E"); [|intros H; inversion H; simpl; lia].
  assert (Hsign : forall sign r1,
            match r with
            | String c' r' =>
                if Ascii.eqb c' "+" || Ascii.eqb c' "-"
                then (String c' EmptyString, r') else (EmptyString, r)
            | EmptyString => (EmptyString, r)
            end = (sign, r1) -> String.length r1 <= String.length r).
  { intros sign r1. destruct r as [|c' r']; [intros H; inversion H; simpl; lia|].
    destruct (Ascii.eqb c' "+" || Ascii.eqb c' "-"); intros H; inversion H; simpl; lia. }
  destruct (match r with
            | String c' r' =>
                if Ascii.eqb c' "+" || Ascii.eqb c' "-"
                then (String c' EmptyString, r') else (EmptyString, r)
            | EmptyString => (EmptyString, r)
            end) as [sign r1] eqn:E.
  specialize (Hsign _ _ eq_refl).
  pose proof (span_digits_length r1) as (Hl & _).
  destruct (span_digits r1) as [d rest']; simpl in Hl.
  destruct d; intros H; inversion H; subst; simpl; lia.
Qed.

Lemma parse_number_consumes (s : string) (v : js_value) (rest : string) :
  parse_number s = Parsed v rest -> String.length rest < String.length s.
Proof.
  unfold parse_number.
  assert (Hsign : forall negative s1,
            match s with
            | String c r => if Ascii.eqb c "-" then (true, r) else (false, s)
            | EmptyString => (false, s)
            end = (negative, s1) -> String.length s1 <= String.length s).
  { intros negative s1. destruct s as [|c r]; [intros H; inversion H; simpl; lia|].
    destruct (Ascii.eqb c "-"); intros H; inversion H; simpl; lia. }
  destruct (match s with
            | String c r => if Ascii.eqb c "-" then (true, r) else (false, s)
            | EmptyString => (false, s)
            end) as [negative s1].
  specialize (Hsign _ _ eq_refl).
  pose proof (span_digits_length s1) as (_ & Hd).
  destruct (span_digits s1) as [d s2]; simpl in Hd.
  assert (Hrest : d <> Nil ->
            match parse_fraction s2 with
            | Some (fraction, s3) =>
                match parse_exponent s3 with
                | Some (exponent, s4) =>
                    Parsed (number_of negative d fraction exponent) s4
                | None => SyntaxError
                end
            | None => SyntaxError
            end = Parsed v rest -> String.length rest < String.length s).
  { intros Hnil. specialize (Hd Hnil).
    destruct (parse_fraction s2) as [[fraction s3]|] eqn:Ef; [|discriminate].
    apply parse_fraction_length in Ef.
    destruct (parse_exponent s3) as [[exponent s4]|] eqn:Ee; [|discriminate].
    apply parse_exponent_length in Ee.
    intros H; inversion H; subst; lia. }
  destruct d as [|d|d|d|d|d|d|d|d|d|d]; try discriminate;
    try (apply Hrest; discriminate).
  destruct d; try discriminate. apply Hrest; discriminate.
Qed.

Lemma prepend_parsed (prefix : string) (r : presult string) (k rest : string) :
  prepend prefix r = Parsed k rest ->
  exists k', r = Parsed k' rest.
Proof. destruct r; simpl; intros H; inversion H; eauto. Qed.

Lemma prepend_fuel (prefix : string) (r : presult string) :
  prepend prefix r = OutOfFuel -> r = OutOfFuel.
Proof. destruct r; simpl; intros H; try discriminate; reflexivity. Qed.

Lemma parse_string_facts (n : nat) : forall s : string,
  String.length s <= n ->
  parse_string s <> OutOfFuel
  /\ forall k rest, parse_string s = Parsed k rest ->
                    String.length rest < String.length s.
Proof.
  induction n as [|n IH]; intros s Hn.
  - destruct s; simpl in *; [|lia]. split; [discriminate|discriminate].
  - destruct s as [|c r]; simpl in Hn; [split; simpl; discriminate|].
    cbn [parse_string].
    destruct (Ascii.eqb c quote).
    { split; [discriminate|]. intros k rest H; inversion H; subst; simpl; lia. }
    destruct (Ascii.eqb c backslash).
    + destruct r as [|e r1]; [split; discriminate|].
      destruct (simple_escape e).
      * destruct (IH r1 ltac:(simpl in Hn; lia)) as (Hf & Hc). split.
        { intros H. apply prepend_fuel in H. contradiction. }
        intros k rest H. apply prepend_parsed in H as (k' & H).
        apply Hc in H. simpl. lia.
      * destruct (Ascii.eqb e "u"); [|split; discriminate].
        destruct r1 as [|h1 [|h2 [|h3 [|h4 r2]]]]; try (split; discriminate).
        destruct (code_unit h1 h2 h3 h4) as [n0|]; [|split; discriminate].
        assert (Hplain :
                  prepend (utf8 n0) (parse_string r2) <> OutOfFuel
                  /\ forall k rest,
                       prepend (utf8 n0) (parse_string r2) = Parsed k rest ->
                       String.length rest
                       < String.length
                           (String c (String e (String h1 (String h2
                              (String h3 (String h4 r2))))))).
        { destruct (IH r2 ltac:(simpl in Hn; lia)) as (Hf & Hc). split.
          { intros H. apply prepend_fuel in H. contradiction. }
          intros k rest H. apply prepend_parsed in H as (k' & H).
          apply Hc in H. simpl. lia. }
        destruct (high_surrogate n0); [|exact Hplain].
        destruct r2 as [|b [|u [|g1 [|g2 [|g3 [|g4 r3]]]]]]; try exact Hplain.
        destruct (code_unit g1 g2 g3 g4) as [m0|]; [|exact Hplain].
        destruct (Ascii.eqb b backslash && Ascii.eqb u "u" && low_surrogate m0);
          [|exact Hplain].
        destruct (IH r3 ltac:(simpl in Hn; lia)) as (Hf & Hc). split.
        { intros H. apply prepend_fuel in H. contradiction. }
        intros k rest H. apply prepend_parsed in H as (k' & H).
        apply Hc in H. simpl. lia.
    + destruct (nat_of_ascii c <? 32); [split; discriminate|].
      destruct (IH r ltac:(lia)) as (Hf & Hc). split.
      { intros H. apply prepend_fuel in H. contradiction. }
      intros k rest H. apply prepend_parsed in H as (k' & H).
      apply Hc in H. simpl. lia.
Qed.

Lemma parse_string_consumes (s k rest : string) :
  parse_string s = Parsed k rest -> String.length rest < String.length s.
Proof. apply (parse_string_facts (String.length s) s (le_n _)). Qed.

Lemma parse_string_total (s : string) : parse_string s <> OutOfFuel.
Proof. apply (parse_string_facts (String.length s) s (le_n _)). Qed.

Lemma expect_length (lit s rest : string) :
  expect lit s = Some rest -> String.length rest <= String.length s.
Proof.
  revert s; induction lit as [|c lit IH]; intros s; simpl.
  - intros H; inversion H; lia.
  - destruct s as [|c' s']; [discriminate|].
    destruct (Ascii.eqb c c'); [|discriminate].
    intros H. apply IH in H. simpl. lia.
Qed.

Lemma literal_consumes (lit : string) (v0 v : js_value) (s rest : string) :
  literal lit v0 s = Parsed v rest -> String.length rest <= String.length s.
Proof.
  unfold literal. destruct (expect lit s) eqn:E; [|discriminate].
  intros H; inversion H; subst. now apply expect_length in E.
Qed.

Lemma literal_total (lit : string) (v0 : js_value) (s : string) :
  literal lit v0 s <> OutOfFuel.
Proof. unfold literal. destruct (expect lit s); discriminate. Qed.

Lemma parse_number_total (s : string) : parse_number s <> OutOfFuel.
Proof.
  unfold parse_number.
  destruct (match s with
            | String c r => if Ascii.eqb c "-" then (true, r) else (false, s)
            | EmptyString => (false, s)
            end) as [negative s1].
  destruct (span_digits s1) as [d s2].
  assert (Hrest :
            match parse_fraction s2 with
            | Some (fraction, s3) =>
                match parse_exponent s3 with
                | Some (exponent, s4) =>
                    Parsed (number_of negative d fraction exponent) s4
                | None => SyntaxError
                end
            | None => SyntaxError
            end <> OutOfFuel).
  { destruct (parse_fraction s2) as [[fraction s3]|]; [|discriminate].
    destruct (parse_exponent s3) as [[exponent s4]|]; [|discriminate].
    discriminate. }
  destruct d as [|d|d|d|d|d|d|d|d|d|d]; try discriminate; try exact Hrest.
  destruct d; try discriminate; exact Hrest.
Qed.

(** Every parser consumes at least one character when it succeeds. *)
Lemma parse_consumes (fuel : nat) :
  (forall s v rest, parse_value fuel s = Parsed v rest ->
                    String.length rest < String.length s)
  /\ (forall s l rest, parse_elements fuel s = Parsed l rest ->
                       String.length rest < String.length s)
  /\ (forall s l rest, parse_members fuel s = Parsed l rest ->
                       String.length rest < String.length s).
Proof.
  induction fuel as [|fuel (IHv & IHe & IHm)];
    [repeat split; intros; discriminate|].
  split; [|split].
  - intros s v rest. cbn [parse_value].
    destruct (skip_ws s) as [|c r] eqn:Hs; [discriminate|].
    apply skip_ws_cons in Hs.
    destruct (Ascii.eqb c "n");
      [intros H; apply literal_consumes in H; lia|].
    destruct (Ascii.eqb c "t");
      [intros H; apply literal_consumes in H; lia|].
    destruct (Ascii.eqb c "f");
      [intros H; apply literal_consumes in H; lia|].
    destruct (Ascii.eqb c quote).
    { destruct (parse_string r) as [str rest'| |] eqn:Hp; try discriminate.
      apply parse_string_consumes in Hp. intros H; inversion H; subst; lia. }
    destruct (Ascii.eqb c "[").
    { destruct (skip_ws r) as [|c' r'] eqn:Hr; [discriminate|].
      apply skip_ws_cons in Hr.
      destruct (Ascii.eqb c' "]"); [intros H; inversion H; subst; lia|].
      destruct (parse_elements fuel r) as [l rest'| |] eqn:Hp; try discriminate.
      apply IHe in Hp. intros H; inversion H; subst; lia. }
    destruct (Ascii.eqb c "{").
    { destruct (skip_ws r) as [|c' r'] eqn:Hr; [discriminate|].
      apply skip_ws_cons in Hr.
      destruct (Ascii.eqb c' "}"); [intros H; inversion H; subst; lia|].
      destruct (parse_members fuel r) as [l rest'| |] eqn:Hp; try discriminate.
      apply IHm in Hp. intros H; inversion H; subst; lia. }
    intros H. apply parse_number_consumes in H. simpl in H. lia.
  - intros s l rest. cbn [parse_elements].
    destruct (parse_value fuel s) as [v rest1| |] eqn:Hv; try discriminate.
    apply IHv in Hv.
    destruct (skip_ws rest1) as [|c r] eqn:Hs; [discriminate|].
    apply skip_ws_cons in Hs.
    destruct (Ascii.eqb c ",").
    { destruct (parse_elements fuel r) as [l' rest'| |] eqn:Hp; try discriminate.
      apply IHe in Hp. intros H; inversion H; subst; lia. }
    destruct (Ascii.eqb c "]"); [|discriminate].
    intros H; inversion H; subst; lia.
  - intros s l rest. cbn [parse_members].
    destruct (skip_ws s) as [|q r] eqn:Hs; [discriminate|].
    apply skip_ws_cons in Hs.
    destruct (Ascii.eqb q quote); [|discriminate].
    destruct (parse_string r) as [k rest0| |] eqn:Hk; try discriminate.
    apply parse_string_consumes in Hk.
    destruct (skip_ws rest0) as [|c r1] eqn:Hs1; [discriminate|].
    apply skip_ws_cons in Hs1.
    destruct (Ascii.eqb c ":"); [|discriminate].
    destruct (parse_value fuel r1) as [v rest1| |] eqn:Hv; try discriminate.
    apply IHv in Hv.
    destruct (skip_ws rest1) as [|c' r2] eqn:Hs2; [discriminate|].
    apply skip_ws_cons in Hs2.
    destruct (Ascii.eqb c' ",").
    { destruct (parse_members fuel r2) as [l' rest'| |] eqn:Hp; try discriminate.
      apply IHm in Hp. intros H; inversion H; subst; lia. }
    destruct (Ascii.eqb c' "}"); [|discriminate].
    intros H; inversion H; subst; lia.
Qed.

(** Twice the length of the text (and one or two more) is fuel enough. *)
Lemma parse_fuel_enough (fuel : nat) :
  (forall s, 2 * String.length s + 1 <= fuel -> parse_value fuel s <> OutOfFuel)
  /\ (forall s, 2 * String.length s + 2 <= fuel -> parse_elements fuel s <> OutOfFuel)
  /\ (forall s, 2 * String.length s + 2 <= fuel -> parse_members fuel s <> OutOfFuel).
Proof.
  induction fuel as [|fuel (IHv & IHe & IHm)]; [repeat split; intros; lia|].
  pose proof (parse_consumes fuel) as (Cv & Ce & Cm).
  split; [|split].
  - intros s Hf. cbn [parse_value].
    destruct (skip_ws s) as [|c r] eqn:Hs; [discriminate|].
    apply skip_ws_cons in Hs.
    destruct (Ascii.eqb c "n"); [apply literal_total|].
    destruct (Ascii.eqb c "t"); [apply literal_total|].
    destruct (Ascii.eqb c "f"); [apply literal_total|].
    destruct (Ascii.eqb c quote).
    { pose proof (parse_string_total r). destruct (parse_string r); congruence. }
    destruct (Ascii.eqb c "[").
    { destruct (skip_ws r) as [|c' r'] eqn:Hr; [discriminate|].
      destruct (Ascii.eqb c' "]"); [discriminate|].
      pose proof (IHe r ltac:(lia)). destruct (parse_elements fuel r); congruence. }
    destruct (Ascii.eqb c "{").
    { destruct (skip_ws r) as [|c' r'] eqn:Hr; [discriminate|].
      destruct (Ascii.eqb c' "}"); [discriminate|].
      pose proof (IHm r ltac:(lia)). destruct (parse_members fuel r); congruence. }
    apply parse_number_total.
  - intros s Hf. cbn [parse_elements].
    pose proof (IHv s ltac:(lia)) as Hv.
    destruct (parse_value fuel s) as [v rest1| |] eqn:Ev; try congruence.
    apply Cv in Ev.
    destruct (skip_ws rest1) as [|c r] eqn:Hs; [discriminate|].
    apply skip_ws_cons in Hs.
    destruct (Ascii.eqb c ",").
    { pose proof (IHe r ltac:(lia)). destruct (parse_elements fuel r); congruence. }
    destruct (Ascii.eqb c "]"); discriminate.
  - intros s Hf. cbn [parse_members].
    destruct (skip_ws s) as [|q r] eqn:Hs; [discriminate|].
    apply skip_ws_cons in Hs.
    destruct (Ascii.eqb q quote); [|discriminate].
    pose proof (parse_string_total r) as Hk.
    destruct (parse_string r) as [k rest0| |] eqn:Ek; try congruence.
    apply parse_string_consumes in Ek.
    destruct (skip_ws rest0) as [|c r1] eqn:Hs1; [discriminate|].
    apply skip_ws_cons in Hs1.
    destruct (Ascii.eqb c ":"); [|discriminate].
    pose proof (IHv r1 ltac:(lia)) as Hv.
    destruct (parse_value fuel r1) as [v rest1| |] eqn:Ev; try congruence.
    apply Cv in Ev.
    destruct (skip_ws rest1) as [|c' r2] eqn:Hs2; [discriminate|].
    apply skip_ws_cons in Hs2.
    destruct (Ascii.eqb c' ",").
    { pose proof (IHm r2 ltac:(lia)). destruct (parse_members fuel r2); congruence. }
    destruct (Ascii.eqb c' "}"); discriminate.
Qed.

(** [parse] never gives up for want of fuel: it answers [None] only on a
    syntax error or on a text that goes on after the value. *)
Lemma parse_never_out_of_fuel (text : string) :
  parse_value (2 * String.length text + 1) text <> OutOfFuel.
Proof. apply parse_fuel_enough. lia. Qed.

End Json.

(** ** The server, as far as the store talks to it *)

Module Redis.

(** A key with its value and its time to live in seconds, if it has one. *)
Record entry := mkEntry {
  e_key : string;
  e_value : string;
  e_ttl : option Z
}.

(** The keyspace is a table of slots; a key sits in its slot until it is
    removed, and SCAN walks the slots. *)
Definition keyspace : Type := list (option entry).

(** What a command works on: the keyspace of the database selected on its
    connection, and the script cache (sha1 and source of each script). *)
Record view := mkView {
  slots : keyspace;
  script_cache : list (string * string)
}.

(** The server: its databases, by index, and the script cache, which the
    databases share. *)
Record server := mkServer {
  databases : Z -> keyspace;
  scripts : list (string * string)
}.

(** The server as a connection with database [db] selected works on it, and
    the server once a command on such a connection has left the view [v]. *)
Definition select (db : Z) (s : server) : view :=
  mkView (databases s db) (scripts s).

Definition commit (db : Z) (v : view) (s : server) : server :=
  mkServer (fun d => if Z.eqb d db then slots v else databases s d)
           (script_cache v).

(** The server holds in [s'] what it holds in [s]. *)
Definition unchanged (s s' : server) : Prop :=
  (forall d, databases s' d = databases s d) /\ scripts s' = scripts s.

Definition holds (key : string) (slot : option entry) : bool :=
  match slot with
  | Some e => String.eqb (e_key e) key
  | None => false
  end.

Fixpoint lookup (key : string) (ks : keyspace) : option entry :=
  match ks with
  | [] => None
  | Some e :: rest => if String.eqb (e_key e) key then Some e else lookup key rest
  | None :: rest => lookup key rest
  end.

(** Writing a key: in its slot when it has one, else in a new slot. *)
Fixpoint put (e : entry) (ks : keyspace) : keyspace :=
  match ks with
  | [] => [Some e]
  | Some e' :: rest =>
      if String.eqb (e_key e') (e_key e) then Some e :: rest
      else Some e' :: put e rest
  | None :: rest => None :: put e rest
  end.

(** The keys in the table, slot by slot. *)
Fixpoint keys_of (ks : keyspace) : list string :=
  match ks with
  | [] => []
  | Some e :: rest => e_key e :: keys_of rest
  | None :: rest => keys_of rest
  end.

(** UNLINK key: the number of keys removed (0 or 1) and the table without
    the key. *)
Definition UNLINK (key : string) (ks : keyspace) : nat * keyspace :=
  (if existsb (holds key) ks then 1 else 0,
   map (fun slot => if holds key slot then None else slot) ks).

Definition no_script : js_error :=
  mkError "ReplyError" "NOSCRIPT" "NOSCRIPT No matching script. Please use EVAL.".

Definition unknown_command : js_error :=
  mkError "ReplyError" "ERR" "ERR unknown command or wrong number of arguments".

Definition syntax_error : js_error :=
  mkError "ReplyError" "ERR" "ERR syntax error".

Definition invalid_expire : js_error :=
  mkError "ReplyError" "ERR" "ERR invalid expire time".

Definition script_error : js_error :=
  mkError "ReplyError" "ERR" "ERR Error running script".

(** An argument as the client writes it on the wire. *)
Definition wire (v : js_value) : option string :=
  match v with
  | JStr s => Some s
  | JNum z => Some (Json.print_Z z)
  | JFloat literal => Some literal
  | JBool true => Some "true"%string
  | JBool false => Some "false"%string
  | JNull => Some "null"%string
  | JArr _ => None
  | JObj _ => None
  end.

Section WithGlob.

(** Whether a key matches a glob pattern, and the sha1 of a script. *)
Variable glob_match : string -> string -> bool.
Variable sha1 : string -> string.

(** The keys of the slots that match the pattern. *)
Fixpoint matching (pattern : string) (ks : keyspace) : list string :=
  match ks with
  | [] => []
  | Some e :: rest =>
      if glob_match pattern (e_key e) then e_key e :: matching pattern rest
      else matching pattern rest
  | None :: rest => matching pattern rest
  end.

(** SCAN cursor MATCH pattern COUNT count: the matching keys among the next
    [count] slots, and the cursor to go on with, 0 when the table is done. *)
Definition SCAN (cursor : nat) (pattern : string) (count : nat) (ks : keyspace)
  : nat * list string :=
  let next := cursor + count in
  (if next <? List.length ks then next else 0,
   matching pattern (firstn count (skipn cursor ks))).

(** The [for] loop of the script. *)
Fixpoint unlink_each (keys : list string) (deleted : nat) (ks : keyspace)
  : nat * keyspace :=
  match keys with
  | [] => (deleted, ks)
  | key :: rest =>
      let r := UNLINK key ks in
      unlink_each rest (deleted + fst r) (snd r)
  end.

(** The [repeat ... until done] loop of the script. *)
Fixpoint scan_loop (fuel : nat) (pattern : string) (count : nat)
  (cursor : nat) (deleted : nat) (ks : keyspace) : option (nat * keyspace) :=
  match fuel with
  | O => None
  | S fuel' =>
      let result := SCAN cursor pattern count ks in
      let cursor := fst result in
      let keys := snd result in
      let r := unlink_each keys deleted ks in
      if cursor =? 0 then Some r
      else scan_loop fuel' pattern count cursor (fst r) (snd r)
  end.

(** The script of [BulkDelete.deleteKeysScript], run with ARGV[1] = pattern
    and ARGV[2] = count.  SCAN refuses a count that is not positive. *)
Definition run_deleteKeysScript (pattern : string) (count : Z) (ks : keyspace)
  : outcome js_value * keyspace :=
  if (count <=? 0)%Z then (Rejected syntax_error, ks)
  else
    match scan_loop (S (List.length ks)) pattern (Z.to_nat count) 0 0 ks with
    | Some (deleted, ks') => (Resolved (JNum (Z.of_nat deleted)), ks')
    | None => (Rejected script_error, ks)
    end.

Fixpoint find_script (sha : string) (cache : list (string * string)) : option string :=
  match cache with
  | [] => None
  | (sha', body) :: rest =>
      if String.eqb sha' sha then Some body else find_script sha rest
  end.

(** What the server answers to a command of [set], [get] and [deleteAll]
    on the view of the connection, and the view afterwards. *)
Definition execute (name : string) (args : option (list js_value)) (s : view)
  : outcome js_value * view :=
  let args := match args with Some l => l | None => [] end in
  if String.eqb name "get" then
    match args with
    | [JStr key] =>
        match lookup key (slots s) with
        | Some e => (Resolved (JStr (e_value e)), s)
        | None => (Resolved JNull, s)
        end
    | _ => (Rejected unknown_command, s)
    end
  else if String.eqb name "set" then
    match args with
    | [JStr key; value] =>
        match wire value with
        | Some str =>
            (Resolved (JStr "OK"),
             mkView (put (mkEntry key str None) (slots s)) (script_cache s))
        | None => (Rejected unknown_command, s)
        end
    | _ => (Rejected unknown_command, s)
    end
  else if String.eqb name "setex" then
    match args with
    | [JStr key; JNum ttl; value] =>
        match wire value with
        | Some str =>
            if (0 <? ttl)%Z then
              (Resolved (JStr "OK"),
               mkView (put (mkEntry key str (Some ttl)) (slots s)) (script_cache s))
            else (Rejected invalid_expire, s)
        | None => (Rejected unknown_command, s)
        end
    | _ => (Rejected unknown_command, s)
    end
  else if String.eqb name "SCRIPT" then
    match args with
    | [JStr sub; JStr body] =>
        if String.eqb sub "LOAD" then
          (Resolved (JStr (sha1 body)),
           mkView (slots s) ((sha1 body, body) :: script_cache s))
        else (Rejected unknown_command, s)
    | _ => (Rejected unknown_command, s)
    end
  else if String.eqb name "EVALSHA" then
    match args with
    | [JStr sha; JNum numkeys; JStr pattern; JNum count] =>
        match find_script sha (script_cache s) with
        | Some body =>
            if String.eqb body BulkDelete.deleteKeysScript && (numkeys =? 0)%Z then
              let r := run_deleteKeysScript pattern count (slots s) in
              (fst r, mkView (snd r) (script_cache s))
            else (Rejected script_error, s)
        | None => (Rejected no_script, s)
        end
    | _ => (Rejected unknown_command, s)
    end
  else (Rejected unknown_command, s).

(** The arguments as the client writes them on the wire. *)
Fixpoint wires (args : list js_value) : option (list string) :=
  match args with
  | [] => Some []
  | v :: rest =>
      match wire v, wires rest with
      | Some str, Some strs => Some (str :: strs)
      | _, _ => None
      end
  end.

(** What the server answers to the commands of the store's other methods
    (PING, GETSET, DEL, EXPIRE, TTL and KEYS); the commands of [execute] are
    answered by it.  GETSET writes the key as SET does, without expiry; DEL
    removes key after key and counts the keys removed; EXPIRE with a time
    that is not positive removes the key; no time passes, so that TTL
    answers the time to live as it was set (-1 without expiry, -2 for a
    missing key). *)
Definition answer (name : string) (args : option (list js_value)) (s : view)
  : outcome js_value * view :=
  let l := match args with Some l => l | None => [] end in
  if String.eqb name "ping" then
    match l with
    | [] => (Resolved (JStr "PONG"), s)
    | [message] =>
        match wire message with
        | Some str => (Resolved (JStr str), s)
        | None => (Rejected unknown_command, s)
        end
    | _ => (Rejected unknown_command, s)
    end
  else if String.eqb name "getset" then
    match l with
    | [JStr key; value] =>
        match wire value with
        | Some str =>
            (match lookup key (slots s) with
             | Some e => Resolved (JStr (e_value e))
             | None => Resolved JNull
             end,
             mkView (put (mkEntry key str None) (slots s)) (script_cache s))
        | None => (Rejected unknown_command, s)
        end
    | _ => (Rejected unknown_command, s)
    end
  else if String.eqb name "del" then
    match l with
    | [] => (Rejected unknown_command, s)
    | _ =>
        match wires l with
        | Some keys =>
            let r := unlink_each keys 0 (slots s) in
            (Resolved (JNum (Z.of_nat (fst r))), mkView (snd r) (script_cache s))
        | None => (Rejected unknown_command, s)
        end
    end
  else if String.eqb name "expire" then
    match l with
    | [JStr key; JNum seconds] =>
        match lookup key (slots s) with
        | Some e =>
            if (0 <? seconds)%Z then
              (Resolved (JNum 1),
               mkView (put (mkEntry key (e_value e) (Some seconds)) (slots s))
                        (script_cache s))
            else
              (Resolved (JNum 1),
               mkView (snd (UNLINK key (slots s))) (script_cache s))
        | None => (Resolved (JNum 0), s)
        end
    | _ => (Rejected unknown_command, s)
    end
  else if String.eqb name "ttl" then
    match l with
    | [JStr key] =>
        match lookup key (slots s) with
        | Some e =>
            (Resolved (JNum (match e_ttl e with Some t => t | None => (-1)%Z end)), s)
        | None => (Resolved (JNum (-2)), s)
        end
    | _ => (Rejected unknown_command, s)
    end
  else if String.eqb name "keys" then
    match l with
    | [JStr pattern] =>
        (Resolved (JArr (map JStr (matching pattern (slots s)))), s)
    | _ => (Rejected unknown_command, s)
    end
  else execute name args s.

(** What the server answers to a command sent on a connection whose
    selected database is [db], and its state afterwards. *)
Definition command (db : Z) (name : string) (args : option (list js_value))
  (s : server) : outcome js_value * server :=
  let r := answer name args (select db s) in
  (fst r, commit db (snd r) s).

(** *** What the script does to the keyspace *)

(** A slot after every key matching the pattern is gone. *)
Definition clear (pattern : string) (slot : option entry) : option entry :=
  match slot with
  | Some e => if glob_match pattern (e_key e) then None else Some e
  | None => None
  end.

(** A slot after the keys [keys] are gone. *)
Definition drop (keys : list string) (slot : option entry) : option entry :=
  match slot with
  | Some e => if existsb (String.eqb (e_key e)) keys then None else Some e
  | None => None
  end.

Lemma map_fixed {A : Type} (f : A -> A) (l : list A) :
  (forall x, In x l -> f x = x) -> map f l = l.
Proof.
  induction l as [|x l IH]; simpl; intros H; [reflexivity|].
  rewrite H by now left. rewrite IH; auto.
Qed.

Lemma NoDup_app_disjoint {A : Type} (l1 l2 : list A) :
  NoDup (l1 ++ l2) -> forall a, In a l1 -> ~ In a l2.
Proof.
  induction l1 as [|x l1 IH]; simpl; intros Hnd a Hin; [contradiction|].
  inversion Hnd as [|? ? Hnot Hnd']; subst.
  destruct Hin as [->|Hin]; [|now apply IH].
  intros H. apply Hnot. apply in_or_app. now right.
Qed.

Lemma keys_of_app (a b : keyspace) : keys_of (a ++ b) = keys_of a ++ keys_of b.
Proof.
  induction a as [|[e|] a IH]; simpl; [reflexivity| |]; now rewrite ?IH.
Qed.

Lemma matching_filter pattern (ks : keyspace) :
  matching pattern ks = filter (glob_match pattern) (keys_of ks).
Proof.
  induction ks as [|[e|] ks IH]; simpl; [reflexivity| |exact IH].
  destruct (glob_match pattern (e_key e)); now rewrite IH.
Qed.

Lemma matching_app pattern (a b : keyspace) :
  matching pattern (a ++ b) = matching pattern a ++ matching pattern b.
Proof. now rewrite !matching_filter, keys_of_app, filter_app. Qed.

Lemma existsb_holds key (ks : keyspace) :
  In key (keys_of ks) -> existsb (holds key) ks = true.
Proof.
  induction ks as [|[e|] ks IH]; simpl; [tauto| |exact IH].
  intros [H|H].
  - subst. now rewrite String.eqb_refl.
  - rewrite IH by exact H. apply orb_true_r.
Qed.

Lemma keys_of_unlink key key' (ks : keyspace) :
  In key' (keys_of ks) -> key' <> key ->
  In key' (keys_of (snd (UNLINK key ks))).
Proof.
  intros H Hne. simpl. induction ks as [|[e|] ks IH]; simpl in *; [tauto| |auto].
  destruct H as [H|H].
  - subst. destruct (String.eqb_spec (e_key e) key); [congruence|]. now left.
  - destruct (String.eqb (e_key e) key); simpl; auto.
Qed.

Lemma drop_cons key keys (slot : option entry) :
  drop keys (if holds key slot then None else slot) = drop (key :: keys) slot.
Proof.
  destruct slot as [e|]; simpl; [|reflexivity].
  destruct (String.eqb (e_key e) key); reflexivity.
Qed.

(** Unlinking distinct keys that are all there removes them and counts
    each once. *)
Lemma unlink_each_spec (keys : list string) :
  forall (deleted : nat) (ks : keyspace),
    NoDup keys -> (forall k, In k keys -> In k (keys_of ks)) ->
    unlink_each keys deleted ks
    = (deleted + List.length keys, map (drop keys) ks).
Proof.
  induction keys as [|key keys IH]; intros deleted ks Hnd Hin; simpl.
  - rewrite Nat.add_0_r. f_equal. symmetry.
    apply map_fixed. now intros [e|].
  - inversion Hnd as [|? ? Hnot Hnd']; subst.
    rewrite existsb_holds by (apply Hin; now left).
    rewrite IH; auto.
    + f_equal; [lia|]. rewrite map_map. apply map_ext. intros slot.
      apply drop_cons.
    + intros k Hk. apply keys_of_unlink; [apply Hin; now right|].
      intros ->. contradiction.
Qed.

Lemma In_matching pattern key (ks : keyspace) :
  In key (matching pattern ks) <->
  In key (keys_of ks) /\ glob_match pattern key = true.
Proof. rewrite matching_filter. apply filter_In. Qed.

Lemma existsb_eqb_In key (keys : list string) :
  existsb (String.eqb key) keys = true <-> In key keys.
Proof.
  rewrite existsb_exists. split.
  - intros (k & Hk & He). apply String.eqb_eq in He. now subst.
  - intros H. exists key. split; [exact H|apply String.eqb_refl].
Qed.

Lemma In_keys_of (e : entry) (ks : keyspace) :
  In (Some e) ks -> In (e_key e) (keys_of ks).
Proof.
  induction ks as [|[e'|] ks IH]; simpl; [tauto| |].
  - intros [H|H]; [inversion H; now left|right; auto].
  - intros [H|H]; [discriminate|auto].
Qed.

(** Dropping the matching keys of a chunk clears the chunk, and leaves alone
    the slots before it, which hold no matching key, and the slots after
    it, which hold other keys. *)
Lemma drop_chunk pattern (pre chunk post : keyspace) :
  (forall slot, In slot pre -> clear pattern slot = slot) ->
  NoDup (keys_of (chunk ++ post)) ->
  map (drop (matching pattern chunk)) (pre ++ chunk ++ post)
  = pre ++ map (clear pattern) chunk ++ post.
Proof.
  intros Hpre Hnd. rewrite !map_app. f_equal; [|f_equal].
  - apply map_fixed. intros [e|] Hin; [|reflexivity].
    simpl. destruct (existsb (String.eqb (e_key e)) (matching pattern chunk)) eqn:E;
      [|reflexivity].
    apply existsb_eqb_In, In_matching in E as (_ & Hm).
    specialize (Hpre _ Hin). simpl in Hpre. rewrite Hm in Hpre. discriminate.
  - apply map_ext_in. intros [e|] Hin; [|reflexivity]. simpl.
    destruct (glob_match pattern (e_key e)) eqn:Hm.
    + assert (H : In (e_key e) (matching pattern chunk)).
      { apply In_matching. split; [now apply In_keys_of|exact Hm]. }
      apply existsb_eqb_In in H. now rewrite H.
    + destruct (existsb (String.eqb (e_key e)) (matching pattern chunk)) eqn:E;
        [|reflexivity].
      apply existsb_eqb_In, In_matching in E as (_ & Hm'). congruence.
  - apply map_fixed. intros [e|] Hin; [|reflexivity].
    simpl. destruct (existsb (String.eqb (e_key e)) (matching pattern chunk)) eqn:E;
      [|reflexivity].
    apply existsb_eqb_In, In_matching in E as (Hc & _).
    rewrite keys_of_app in Hnd.
    exfalso. apply (NoDup_app_disjoint _ _ Hnd _ Hc). now apply In_keys_of.
Qed.

Lemma clear_idempotent pattern (slot : option entry) :
  clear pattern (clear pattern slot) = clear pattern slot.
Proof.
  destruct slot as [e|]; simpl; [|reflexivity].
  destruct (glob_match pattern (e_key e)) eqn:E; simpl; [reflexivity|now rewrite E].
Qed.

(** The loop, started at a cursor before which no matching key is left,
    removes the matching keys after the cursor and adds their number to the
    count; any fuel that covers the remaining chunks will do. *)
Lemma scan_loop_spec pattern count :
  0 < count ->
  forall (fuel : nat) (pre todo : keyspace) (deleted : nat),
    (forall slot, In slot pre -> clear pattern slot = slot) ->
    NoDup (keys_of todo) ->
    1 <= fuel -> List.length todo <= fuel * count ->
    scan_loop fuel pattern count (List.length pre) deleted (pre ++ todo)
    = Some (deleted + List.length (matching pattern todo),
            pre ++ map (clear pattern) todo).
Proof.
  intros Hcount.
  induction fuel as [|fuel IH]; intros pre todo deleted Hpre Hnd Hfuel Hlen; [lia|].
  set (chunk := firstn count todo). set (post := skipn count todo).
  assert (Htodo : todo = chunk ++ post) by (symmetry; apply firstn_skipn).
  assert (Hndc : NoDup (keys_of (chunk ++ post))) by now rewrite <- Htodo.
  assert (HS : SCAN (List.length pre) pattern count (pre ++ todo)
               = (if List.length pre + count <? List.length pre + List.length todo
                  then List.length pre + count else 0,
                  matching pattern chunk)).
  { unfold SCAN. rewrite length_app, skipn_app, skipn_all, Nat.sub_diag.
    reflexivity. }
  assert (HU : unlink_each (matching pattern chunk) deleted (pre ++ todo)
               = (deleted + List.length (matching pattern chunk),
                  pre ++ map (clear pattern) chunk ++ post)).
  { rewrite unlink_each_spec.
    - rewrite Htodo at 1. now rewrite drop_chunk.
    - rewrite matching_filter. apply NoDup_filter.
      rewrite keys_of_app in Hndc. eapply NoDup_app_remove_r; eauto.
    - intros k Hk. apply In_matching in Hk as (Hk & _).
      rewrite keys_of_app. apply in_or_app. right.
      rewrite Htodo, keys_of_app. apply in_or_app. now left. }
  cbn [scan_loop]. rewrite HS. cbn [fst snd]. rewrite HU. cbn [fst snd].
  destruct (Nat.ltb_spec (List.length pre + count) (List.length pre + List.length todo))
    as [Hlt|Hge].
  - replace (List.length pre + count =? 0) with false
      by (symmetry; apply Nat.eqb_neq; lia).
    assert (Hc : List.length chunk = count).
    { unfold chunk. rewrite length_firstn. lia. }
    replace (List.length pre + count) with (List.length (pre ++ map (clear pattern) chunk))
      by (rewrite length_app, length_map; lia).
    rewrite app_assoc. rewrite IH.
    + replace (matching pattern todo) with (matching pattern (chunk ++ post))
        by now rewrite <- Htodo.
      replace (map (clear pattern) todo) with (map (clear pattern) (chunk ++ post))
        by now rewrite <- Htodo.
      rewrite matching_app, length_app, map_app, <- !app_assoc.
      f_equal. f_equal. lia.
    + intros slot Hin. apply in_app_or in Hin as [Hin|Hin]; [auto|].
      apply in_map_iff in Hin as (x & <- & _). apply clear_idempotent.
    + rewrite keys_of_app in Hndc. eapply NoDup_app_remove_l; eauto.
    + destruct fuel; [simpl in Hlen; lia|lia].
    + unfold post. rewrite length_skipn. simpl in Hlen. lia.
  - cbn [Nat.eqb].
    assert (Hc : chunk = todo) by (apply firstn_all2; lia).
    assert (Hp : post = []) by (apply skipn_all2; lia).
    rewrite Hc, Hp, List.app_nil_r. reflexivity.
Qed.

(** The script removes exactly the matching keys and returns their number. *)
Lemma run_deleteKeysScript_spec pattern (count : Z) (ks : keyspace) :
  (0 < count)%Z -> NoDup (keys_of ks) ->
  run_deleteKeysScript pattern count ks
  = (Resolved (JNum (Z.of_nat (List.length (matching pattern ks)))),
     map (clear pattern) ks).
Proof.
  intros Hc Hnd. unfold run_deleteKeysScript.
  replace (count <=? 0)%Z with false by (symmetry; apply Z.leb_gt; lia).
  pose proof (scan_loop_spec pattern (Z.to_nat count) ltac:(lia)
                (S (List.length ks)) [] ks 0) as H.
  change ([] ++ ks) with ks in H. cbn [List.length] in H.
  rewrite H; auto; [contradiction|lia|nia].
Qed.

(** After the script, a matching key is gone and any other key has the
    entry it had. *)
Lemma lookup_clear pattern key (ks : keyspace) :
  lookup key (map (clear pattern) ks)
  = if glob_match pattern key then None else lookup key ks.
Proof.
  induction ks as [|[e|] ks IH]; simpl.
  - now destruct (glob_match pattern key).
  - destruct (glob_match pattern (e_key e)) eqn:Hm; simpl.
    + rewrite IH. destruct (String.eqb_spec (e_key e) key) as [<-|Hne].
      * now rewrite Hm.
      * reflexivity.
    + destruct (String.eqb_spec (e_key e) key) as [<-|Hne].
      * now rewrite Hm.
      * exact IH.
  - exact IH.
Qed.

Lemma lookup_put (e : entry) (ks : keyspace) : lookup (e_key e) (put e ks) = Some e.
Proof.
  induction ks as [|[e'|] ks IH]; simpl.
  - now rewrite String.eqb_refl.
  - destruct (String.eqb (e_key e') (e_key e)) eqn:E; simpl.
    + now rewrite String.eqb_refl.
    + now rewrite E.
  - exact IH.
Qed.

(** The answers to the commands the store sends. *)
Lemma execute_script_load (body : string) (s : view) :
  execute "SCRIPT" (Some [JStr "LOAD"; JStr body]) s
  = (Resolved (JStr (sha1 body)),
     mkView (slots s) ((sha1 body, body) :: script_cache s)).
Proof. reflexivity. Qed.

Lemma execute_evalsha (sha pattern : string) (s : view) :
  find_script sha (script_cache s) = Some BulkDelete.deleteKeysScript ->
  NoDup (keys_of (slots s)) ->
  execute "EVALSHA" (Some [JStr sha; JNum 0; JStr pattern; JNum 1000]) s
  = (Resolved (JNum (Z.of_nat (List.length (matching pattern (slots s))))),
     mkView (map (clear pattern) (slots s)) (script_cache s)).
Proof.
  intros Hf Hnd.
  pose proof (run_deleteKeysScript_spec pattern 1000 (slots s) ltac:(lia) Hnd) as Hr.
  change (execute "EVALSHA" (Some [JStr sha; JNum 0; JStr pattern; JNum 1000]) s)
    with (match find_script sha (script_cache s) with
          | Some body =>
              if String.eqb body BulkDelete.deleteKeysScript && (0 =? 0)%Z then
                (fst (run_deleteKeysScript pattern 1000 (slots s)),
                 mkView (snd (run_deleteKeysScript pattern 1000 (slots s)))
                          (script_cache s))
              else (Rejected script_error, s)
          | None => (Rejected no_script, s)
          end).
  rewrite Hf, String.eqb_refl, Hr. reflexivity.
Qed.

Lemma execute_evalsha_unknown (sha pattern : string) (s : view) :
  find_script sha (script_cache s) = None ->
  execute "EVALSHA" (Some [JStr sha; JNum 0; JStr pattern; JNum 1000]) s
  = (Rejected no_script, s).
Proof.
  intros Hf.
  change (execute "EVALSHA" (Some [JStr sha; JNum 0; JStr pattern; JNum 1000]) s)
    with (match find_script sha (script_cache s) with
          | Some body =>
              if String.eqb body BulkDelete.deleteKeysScript && (0 =? 0)%Z then
                (fst (run_deleteKeysScript pattern 1000 (slots s)),
                 mkView (snd (run_deleteKeysScript pattern 1000 (slots s)))
                          (script_cache s))
              else (Rejected script_error, s)
          | None => (Rejected no_script, s)
          end).
  now rewrite Hf.
Qed.

Lemma execute_set (key str : string) (value : js_value) (s : view) :
  wire value = Some str ->
  execute "set" (Some [JStr key; value]) s
  = (Resolved (JStr "OK"),
     mkView (put (mkEntry key str None) (slots s)) (script_cache s)).
Proof.
  intros Hw.
  change (execute "set" (Some [JStr key; value]) s)
    with (match wire value with
          | Some str =>
              (Resolved (JStr "OK"),
               mkView (put (mkEntry key str None) (slots s)) (script_cache s))
          | None => (Rejected unknown_command, s)
          end).
  now rewrite Hw.
Qed.

Lemma execute_setex (key str : string) (ttl : Z) (value : js_value) (s : view) :
  wire value = Some str -> (0 < ttl)%Z ->
  execute "setex" (Some [JStr key; JNum ttl; value]) s
  = (Resolved (JStr "OK"),
     mkView (put (mkEntry key str (Some ttl)) (slots s)) (script_cache s)).
Proof.
  intros Hw Ht.
  change (execute "setex" (Some [JStr key; JNum ttl; value]) s)
    with (match wire value with
          | Some str =>
              if (0 <? ttl)%Z then
                (Resolved (JStr "OK"),
                 mkView (put (mkEntry key str (Some ttl)) (slots s))
                          (script_cache s))
              else (Rejected invalid_expire, s)
          | None => (Rejected unknown_command, s)
          end).
  rewrite Hw. now replace (0 <? ttl)%Z with true by (symmetry; apply Z.ltb_lt; lia).
Qed.

Lemma execute_get (key : string) (s : view) :
  execute "get" (Some [JStr key]) s
  = (match lookup key (slots s) with
     | Some e => Resolved (JStr (e_value e))
     | None => Resolved JNull
     end, s).
Proof.
  change (execute "get" (Some [JStr key]) s)
    with (match lookup key (slots s) with
          | Some e => (Resolved (JStr (e_value e)), s)
          | None => (Resolved JNull, s)
          end).
  now destruct (lookup key (slots s)).
Qed.

Lemma keys_of_clear pattern (ks : keyspace) :
  NoDup (keys_of ks) -> NoDup (keys_of (map (clear pattern) ks)).
Proof.
  induction ks as [|[e|] ks IH]; simpl; auto.
  intros H. inversion H as [|? ? Hnot Hnd]; subst.
  assert (Hsub : forall k, In k (keys_of (map (clear pattern) ks)) -> In k (keys_of ks)).
  { clear. induction ks as [|[e|] ks IH]; simpl; auto.
    intros k. destruct (glob_match pattern (e_key e)); simpl; intuition. }
  destruct (glob_match pattern (e_key e)); simpl; auto.
  constructor; auto.
Qed.

(** *** The answers to the other commands *)

Lemma answer_ping (s : view) : answer "ping" None s = (Resolved (JStr "PONG"), s).
Proof. reflexivity. Qed.

Lemma answer_ping_message (text : string) (s : view) :
  answer "ping" (Some [JStr text]) s = (Resolved (JStr text), s).
Proof. reflexivity. Qed.

Lemma answer_getset (key str : string) (value : js_value) (s : view) :
  wire value = Some str ->
  answer "getset" (Some [JStr key; value]) s
  = (match lookup key (slots s) with
     | Some e => Resolved (JStr (e_value e))
     | None => Resolved JNull
     end,
     mkView (put (mkEntry key str None) (slots s)) (script_cache s)).
Proof.
  intros Hw.
  change (answer "getset" (Some [JStr key; value]) s)
    with (match wire value with
          | Some str =>
              (match lookup key (slots s) with
               | Some e => Resolved (JStr (e_value e))
               | None => Resolved JNull
               end,
               mkView (put (mkEntry key str None) (slots s)) (script_cache s))
          | None => (Rejected unknown_command, s)
          end).
  now rewrite Hw.
Qed.

Lemma wires_strings (keys : list string) : wires (map JStr keys) = Some keys.
Proof. induction keys as [|k keys IH]; simpl; [reflexivity|now rewrite IH]. Qed.

Lemma answer_del (keys : list string) (s : view) :
  keys <> [] ->
  answer "del" (Some (map JStr keys)) s
  = (Resolved (JNum (Z.of_nat (fst (unlink_each keys 0 (slots s))))),
     mkView (snd (unlink_each keys 0 (slots s))) (script_cache s)).
Proof.
  intros Hne. destruct keys as [|k keys]; [congruence|].
  change (answer "del" (Some (map JStr (k :: keys))) s)
    with (match wires (map JStr (k :: keys)) with
          | Some keys' =>
              (Resolved (JNum (Z.of_nat (fst (unlink_each keys' 0 (slots s))))),
               mkView (snd (unlink_each keys' 0 (slots s))) (script_cache s))
          | None => (Rejected unknown_command, s)
          end).
  now rewrite wires_strings.
Qed.

Lemma answer_del_nothing (s : view) :
  answer "del" None s = (Rejected unknown_command, s).
Proof. reflexivity. Qed.

Lemma answer_expire (key : string) (seconds : Z) (s : view) :
  (0 < seconds)%Z ->
  answer "expire" (Some [JStr key; JNum seconds]) s
  = match lookup key (slots s) with
    | Some e =>
        (Resolved (JNum 1),
         mkView (put (mkEntry key (e_value e) (Some seconds)) (slots s))
                  (script_cache s))
    | None => (Resolved (JNum 0), s)
    end.
Proof.
  intros Hpos.
  change (answer "expire" (Some [JStr key; JNum seconds]) s)
    with (match lookup key (slots s) with
          | Some e =>
              if (0 <? seconds)%Z then
                (Resolved (JNum 1),
                 mkView (put (mkEntry key (e_value e) (Some seconds)) (slots s))
                          (script_cache s))
              else
                (Resolved (JNum 1),
                 mkView (snd (UNLINK key (slots s))) (script_cache s))
          | None => (Resolved (JNum 0), s)
          end).
  now replace (0 <? seconds)%Z with true by (symmetry; apply Z.ltb_lt; lia).
Qed.

Lemma answer_ttl (key : string) (s : view) :
  answer "ttl" (Some [JStr key]) s
  = (Resolved (JNum (match lookup key (slots s) with
                     | Some e => match e_ttl e with Some t => t | None => (-1)%Z end
                     | None => (-2)%Z
                     end)), s).
Proof.
  change (answer "ttl" (Some [JStr key]) s)
    with (match lookup key (slots s) with
          | Some e =>
              (Resolved (JNum (match e_ttl e with Some t => t | None => (-1)%Z end)), s)
          | None => (Resolved (JNum (-2)), s)
          end).
  now destruct (lookup key (slots s)).
Qed.


(** Removing key after key leaves the slots without the keys. *)
Lemma unlink_each_drop (keys : list string) :
  forall (deleted : nat) (ks : keyspace),
    snd (unlink_each keys deleted ks) = map (drop keys) ks.
Proof.
  induction keys as [|key keys IH]; intros deleted ks; simpl.
  - symmetry. apply map_fixed. now intros [e|].
  - rewrite IH, map_map. apply map_ext. intros slot. apply drop_cons.
Qed.

Lemma lookup_drop (keys : list string) (key : string) (ks : keyspace) :
  lookup key (map (drop keys) ks)
  = if existsb (String.eqb key) keys then None else lookup key ks.
Proof.
  induction ks as [|[e|] ks IH]; simpl.
  - now destruct (existsb (String.eqb key) keys).
  - destruct (existsb (String.eqb (e_key e)) keys) eqn:Hm; simpl.
    + rewrite IH. destruct (String.eqb_spec (e_key e) key) as [<-|Hne].
      * now rewrite Hm.
      * reflexivity.
    + destruct (String.eqb_spec (e_key e) key) as [<-|Hne].
      * now rewrite Hm.
      * exact IH.
  - exact IH.
Qed.

(** With each key in one slot, UNLINK counts what it removes. *)
Lemma UNLINK_counts (key : string) (ks : keyspace) :
  NoDup (keys_of ks) ->
  fst (UNLINK key ks) + List.length (keys_of (snd (UNLINK key ks)))
  = List.length (keys_of ks)
  /\ NoDup (keys_of (snd (UNLINK key ks))).
Proof.
  unfold UNLINK. cbn [fst snd].
  induction ks as [|[e|] ks IH]; simpl; intros Hnd.
  - split; [reflexivity|constructor].
  - inversion Hnd as [|? ? Hnot Hnd']; subst.
    destruct (IH Hnd') as (Hc & Hn).
    assert (Hsub : forall k,
               In k (keys_of (map (fun slot => if holds key slot then None else slot) ks))
               -> In k (keys_of ks)).
    { clear. induction ks as [|[e|] ks IH]; simpl; auto.
      intros k. destruct (String.eqb (e_key e) key); simpl; intuition. }
    destruct (String.eqb_spec (e_key e) key) as [Heq|Hne]; simpl.
    + split; [|exact Hn].
      destruct (existsb (holds key) ks) eqn:Hex.
      * exfalso. apply Hnot. apply existsb_exists in Hex as ([e'|] & Hin & Hh);
          [|discriminate]. simpl in Hh. apply String.eqb_eq in Hh.
        rewrite Heq, <- Hh. now apply In_keys_of.
      * simpl in Hc. lia.
    + split.
      * destruct (existsb (holds key) ks); simpl in *; lia.
      * constructor; auto.
  - exact (IH Hnd).
Qed.

Lemma unlink_each_counts (keys : list string) :
  forall (deleted : nat) (ks : keyspace),
    NoDup (keys_of ks) ->
    fst (unlink_each keys deleted ks)
    + List.length (keys_of (snd (unlink_each keys deleted ks)))
    = deleted + List.length (keys_of ks)
    /\ NoDup (keys_of (snd (unlink_each keys deleted ks))).
Proof.
  induction keys as [|key keys IH]; intros deleted ks Hnd; cbn [unlink_each].
  - cbn [fst snd]. auto.
  - cbv zeta. destruct (UNLINK_counts key ks Hnd) as (Hc & Hn).
    destruct (IH (deleted + fst (UNLINK key ks)) _ Hn) as (Hc' & Hn').
    split; [lia|exact Hn'].
Qed.


Lemma lookup_put_other (e : entry) (key : string) (ks : keyspace) :
  key <> e_key e -> lookup key (put e ks) = lookup key ks.
Proof.
  intros Hne. induction ks as [|[e'|] ks IH]; simpl.
  - destruct (String.eqb_spec (e_key e) key); [congruence|reflexivity].
  - destruct (String.eqb_spec (e_key e') (e_key e)) as [Heq|Hne']; simpl.
    + destruct (String.eqb_spec (e_key e) key); [congruence|].
      destruct (String.eqb_spec (e_key e') key); [congruence|reflexivity].
    + now rewrite IH.
  - exact IH.
Qed.

(** *** The databases *)

Lemma databases_commit (db d : Z) (v : view) (s : server) :
  databases (commit db v s) d = if Z.eqb d db then slots v else databases s d.
Proof. reflexivity. Qed.

Lemma databases_commit_same (db : Z) (v : view) (s : server) :
  databases (commit db v s) db = slots v.
Proof. simpl. now rewrite Z.eqb_refl. Qed.

Lemma databases_commit_other (db d : Z) (v : view) (s : server) :
  d <> db -> databases (commit db v s) d = databases s d.
Proof. intros H. simpl. now apply Z.eqb_neq in H as ->. Qed.

(** A command that leaves the keyspace of its database as it was leaves
    every database as it was. *)
Lemma databases_commit_kept (db d : Z) (v : view) (s : server) :
  slots v = databases s db -> databases (commit db v s) d = databases s d.
Proof.
  intros H. simpl. destruct (Z.eqb_spec d db) as [->|_]; [exact H|reflexivity].
Qed.

Lemma unchanged_refl (s : server) : unchanged s s.
Proof. split; reflexivity. Qed.

Lemma unchanged_trans (s1 s2 s3 : server) :
  unchanged s1 s2 -> unchanged s2 s3 -> unchanged s1 s3.
Proof.
  intros (H1 & H2) (H3 & H4). split; [|congruence].
  intros d. now rewrite H3, H1.
Qed.

Lemma commit_select (db : Z) (s : server) : unchanged s (commit db (select db s) s).
Proof. split; [|reflexivity]. intros d. now apply databases_commit_kept. Qed.

(** The commands of [execute] are answered by it. *)
Lemma answer_get (key : string) (s : view) :
  answer "get" (Some [JStr key]) s
  = (match lookup key (slots s) with
     | Some e => Resolved (JStr (e_value e))
     | None => Resolved JNull
     end, s).
Proof. exact (execute_get key s). Qed.

Lemma answer_set (key str : string) (value : js_value) (s : view) :
  wire value = Some str ->
  answer "set" (Some [JStr key; value]) s
  = (Resolved (JStr "OK"),
     mkView (put (mkEntry key str None) (slots s)) (script_cache s)).
Proof. exact (execute_set key str value s). Qed.

Lemma answer_setex (key str : string) (ttl : Z) (value : js_value) (s : view) :
  wire value = Some str -> (0 < ttl)%Z ->
  answer "setex" (Some [JStr key; JNum ttl; value]) s
  = (Resolved (JStr "OK"),
     mkView (put (mkEntry key str (Some ttl)) (slots s)) (script_cache s)).
Proof. exact (execute_setex key str ttl value s). Qed.

Lemma answer_script_load (body : string) (s : view) :
  answer "SCRIPT" (Some [JStr "LOAD"; JStr body]) s
  = (Resolved (JStr (sha1 body)),
     mkView (slots s) ((sha1 body, body) :: script_cache s)).
Proof. reflexivity. Qed.

Lemma answer_evalsha (sha pattern : string) (s : view) :
  find_script sha (script_cache s) = Some BulkDelete.deleteKeysScript ->
  NoDup (keys_of (slots s)) ->
  answer "EVALSHA" (Some [JStr sha; JNum 0; JStr pattern; JNum 1000]) s
  = (Resolved (JNum (Z.of_nat (List.length (matching pattern (slots s))))),
     mkView (map (clear pattern) (slots s)) (script_cache s)).
Proof. exact (execute_evalsha sha pattern s). Qed.

(** SCRIPT is never refused with NOSCRIPT: the server gives that answer to
    EVALSHA only. *)
Lemma script_is_not_refused_with_noscript (args : option (list js_value))
  (s : view) (e : js_error) :
  fst (answer "SCRIPT" args s) = Rejected e -> BulkDelete.is_noscript e = false.
Proof.
  change (answer "SCRIPT" args s) with (execute "SCRIPT" args s).
  unfold execute. cbn [String.eqb Ascii.eqb Bool.eqb andb].
  destruct args as [[|[ | | | |sub| | ] [|[ | | | |body| | ] [|? ?]]]|]; cbn [fst];
    try (intros H; inversion H; reflexivity).
  destruct (String.eqb sub "LOAD"); cbn [fst];
    intros H; inversion H; reflexivity.
Qed.

End WithGlob.

End Redis.

(** ** The is-json heuristic *)

(** The string test of the is-json package, which [set] calls to decide
    whether to encode a value: blanks removed, a text in braces that holds
    a quoted name followed by a colon, or a text in brackets whose last
    piece (pieces are cut between [}] and [,{]) passes the test. *)
Module IsJson.

Local Open Scope string_scope.
Local Open Scope nat_scope.
Local Open Scope list_scope.

Definition is_space (c : ascii) : bool :=
  let n := nat_of_ascii c in
  (n =? 32) || ((9 <=? n) && (n <=? 13)).

Fixpoint strip_spaces (s : string) : string :=
  match s with
  | EmptyString => EmptyString
  | String c r => if is_space c then strip_spaces r else String c (strip_spaces r)
  end.

Fixpoint last_char (s : string) : option ascii :=
  match s with
  | EmptyString => None
  | String c EmptyString => Some c
  | String _ r => last_char r
  end.

Fixpoint without_last (s : string) : string :=
  match s with
  | EmptyString => EmptyString
  | String _ EmptyString => EmptyString
  | String c r => String c (without_last r)
  end.

(** [/^o(.*?)c$/]. *)
Definition wrapped (o c : ascii) (s : string) : bool :=
  match s with
  | String a r =>
      Ascii.eqb a o
      && match last_char r with Some z => Ascii.eqb z c | None => false end
  | EmptyString => false
  end.

Fixpoint has_quote_colon (s : string) : bool :=
  match s with
  | String a r =>
      match r with
      | String b _ => (Ascii.eqb a Json.quote && Ascii.eqb b ":") || has_quote_colon r
      | EmptyString => false
      end
  | EmptyString => false
  end.

(** [/"(.*?)":(.*?)/]. *)
Fixpoint has_member (s : string) : bool :=
  match s with
  | String a r => (Ascii.eqb a Json.quote && has_quote_colon r) || has_member r
  | EmptyString => false
  end.

(** The pieces of [s] cut at each [},{]. *)
Fixpoint pieces (s : string) : list string :=
  match s with
  | EmptyString => [EmptyString]
  | String a r =>
      match r with
      | String b (String c _ as r') =>
          if Ascii.eqb a "}" && Ascii.eqb b "," && Ascii.eqb c "{"
          then String a EmptyString :: pieces r'
          else match pieces r with
               | p :: ps => String a p :: ps
               | [] => [String a EmptyString]
               end
      | _ => match pieces r with
             | p :: ps => String a p :: ps
             | [] => [String a EmptyString]
             end
      end
  end.

Fixpoint isJSON_text (fuel : nat) (s : string) : bool :=
  match fuel with
  | O => false
  | S fuel' =>
      let str := strip_spaces s in
      if wrapped "{" "}" str then has_member str
      else if wrapped "[" "]" str then
        match str with
        | String _ inner =>
            isJSON_text fuel' (List.last (pieces (without_last inner)) EmptyString)
        | EmptyString => false
        end
      else false
  end.

Definition isJSON_string (s : string) : bool :=
  isJSON_text (S (String.length s)) s.

End IsJson.

(** ** The store facade ([RedisStore]) *)

Module Store.

Definition not_a_ttl : js_error :=
  mkError "Error" "" "ttlInSeconds should be a number greater than 0".

(** Modelled from the spec: [validatedTtl] of [./helpers], which is not
    among the sources.  The spec has a time to live "validated to be a
    positive integer or absent", an invalid value failing where it is
    given; the second argument is what an absent value falls back to. *)
Definition validatedTtl (ttlInSeconds : option Z) (defaultTtlInS : option Z)
  : outcome (option Z) :=
  match ttlInSeconds with
  | None => Resolved defaultTtlInS
  | Some ttl => if (0 <? ttl)%Z then Resolved (Some ttl) else Rejected not_a_ttl
  end.

Section WithEnvironment.

Variable glob_match : string -> string -> bool.
Variable sha1 : string -> string.
(** [isJSON] on a string (the is-json package). *)
Variable isJSON_string : string -> bool.
(** [JSON.parse]: [None] when it throws. *)
Variable JSON_parse : string -> option js_value.
Variable connect_failure : nat -> option js_error.
Variable opts : Pool.options.

Definition world : Type := Pool.world Redis.server.

(** [super.sendCommand]: the dispatcher, the server behind every
    connection; a command works on the database that is selected on the
    connection it is sent on. *)
Definition sendCommand (name : string) (args : list js_value) (w : world)
  : option (outcome js_value * world) :=
  Pool.sendCommand Redis.server
    (fun _ db name args s => Redis.command glob_match sha1 db name args s)
    connect_failure opts name args w.

(** The store: its default time to live, its kept script promise with the
    invocations of [deleteAll], and its pool. *)
Record t := mk {
  defaulTtlInS : option Z;
  script : BulkDelete.store;
  pool : world
}.

(** [new RedisStore({ defaulTtlInS })]. *)
Definition constructor (defaulTtl : option Z) : outcome t :=
  match validatedTtl defaulTtl None with
  | Resolved ttl =>
      Resolved (mk ttl BulkDelete.new_store
                   (Pool.mkWorld [] [] 0 0 [] (Redis.mkServer (fun _ => []) []) []))
  | Rejected e => Rejected e
  end.

Definition setDefaultTtlInS (ttl : Z) (s : t) : outcome t :=
  match validatedTtl (Some ttl) None with
  | Resolved ttl' => Resolved (mk ttl' (script s) (pool s))
  | Rejected e => Rejected e
  end.

Definition unsetDefaultTtlInS (s : t) : t := mk None (script s) (pool s).

Definition isArray (value : js_value) : bool :=
  match value with
  | JArr _ => true
  | _ => false
  end.

(** [isJSON(value, pass_object)]: an object passes when [pass_object] is
    set, a string is tested, anything else fails. *)
Definition isJSON (value : js_value) (pass_object : bool) : bool :=
  match value with
  | JObj _ => pass_object
  | JStr s => isJSON_string s
  | _ => false
  end.

(** What [set] and [getset] send for a value. *)
Definition encode (value : js_value) : js_value :=
  if isArray value || isJSON value true then JStr (Json.stringify value)
  else value.

(** [try { result = JSON.parse(result) } catch (e) {}]; a reply that is not
    a string reads as itself. *)
Definition decode (result : js_value) : js_value :=
  match result with
  | JStr text =>
      match JSON_parse text with
      | Some v => v
      | None => result
      end
  | _ => result
  end.

Definition with_pool (s : t) (r : option (outcome js_value * world))
  : option (outcome js_value * t) :=
  match r with
  | Some (o, w) => Some (o, mk (defaulTtlInS s) (script s) w)
  | None => None
  end.

(** [set(key, value, ttlInSeconds)]. *)
Definition set (key : string) (value : js_value) (ttlInSeconds : option Z) (s : t)
  : option (outcome js_value * t) :=
  let str := encode value in
  match validatedTtl ttlInSeconds (defaulTtlInS s) with
  | Rejected e => Some (Rejected e, s)
  | Resolved ttl =>
      match ttl with
      | Some n =>
          if Pool.truthyZ ttl
          then with_pool s (sendCommand "setex" [JStr key; JNum n; str] (pool s))
          else with_pool s (sendCommand "set" [JStr key; str] (pool s))
      | None => with_pool s (sendCommand "set" [JStr key; str] (pool s))
      end
  end.

(** [get(key)]. *)
Definition get (key : string) (s : t) : option (outcome js_value * t) :=
  match sendCommand "get" [JStr key] (pool s) with
  | Some (Resolved result, w) =>
      Some (Resolved (decode result), mk (defaulTtlInS s) (script s) w)
  | Some (Rejected e, w) => Some (Rejected e, mk (defaulTtlInS s) (script s) w)
  | None => None
  end.

(** An invocation of [deleteAll] carried to its end while nothing else
    goes on: the dispatch it waits for is made, its outcome settles the
    promise, the invocation continues. *)
Fixpoint settle (fuel : nat) (i : nat) (s : t) : option (outcome js_value * t) :=
  match fuel with
  | O => None
  | S fuel' =>
      match nth_error (BulkDelete.calls (script s)) i with
      | Some (BulkDelete.Done o) => Some (o, s)
      | Some (BulkDelete.AwaitingLoad _ p) =>
          match nth_error (BulkDelete.promises (script s)) p with
          | Some BulkDelete.Pending =>
              match sendCommand (fst BulkDelete.script_load)
                                (snd BulkDelete.script_load) (pool s) with
              | Some (o, w) =>
                  match BulkDelete.step (BulkDelete.LoadSettles p o) (script s) with
                  | Some st => settle fuel' i (mk (defaulTtlInS s) st w)
                  | None => None
                  end
              | None => None
              end
          | Some (BulkDelete.Settled _) =>
              match BulkDelete.step (BulkDelete.Resume i) (script s) with
              | Some st => settle fuel' i (mk (defaulTtlInS s) st (pool s))
              | None => None
              end
          | None => None
          end
      | Some (BulkDelete.AwaitingExec sha pattern) =>
          match sendCommand (fst (BulkDelete.evalsha sha pattern))
                            (snd (BulkDelete.evalsha sha pattern)) (pool s) with
          | Some (o, w) =>
              match BulkDelete.step (BulkDelete.ExecSettles i o) (script s) with
              | Some st => settle fuel' i (mk (defaulTtlInS s) st w)
              | None => None
              end
          | None => None
          end
      | None => None
      end
  end.

(** [deleteAll(pattern)], carried to its end. *)
Definition deleteAll (fuel : nat) (pattern : option string) (s : t)
  : option (outcome js_value * t) :=
  settle fuel (List.length (BulkDelete.calls (script s)))
         (mk (defaulTtlInS s) (BulkDelete.deleteAll pattern (script s)) (pool s)).

(** What can happen next while invocations of [deleteAll] are under way,
    with the answers coming from the server: a caller invokes [deleteAll];
    the SCRIPT LOAD behind a pending promise is answered; an invocation
    suspended on a settled promise continues; the EVALSHA of an invocation
    is answered. *)
Inductive action : Type :=
| Call (pattern : option string)
| LoadAnswer (p : nat)
| Continue (i : nat)
| ExecAnswer (i : nat).

Definition is_call (a : action) : bool :=
  match a with
  | Call _ => true
  | _ => false
  end.

(** One action; [None] when it cannot happen in [s]. *)
Definition act (a : action) (s : t) : option t :=
  match a with
  | Call pattern =>
      Some (mk (defaulTtlInS s) (BulkDelete.deleteAll pattern (script s)) (pool s))
  | LoadAnswer p =>
      match nth_error (BulkDelete.promises (script s)) p with
      | Some BulkDelete.Pending =>
          match sendCommand (fst BulkDelete.script_load)
                            (snd BulkDelete.script_load) (pool s) with
          | Some (o, w) =>
              match BulkDelete.step (BulkDelete.LoadSettles p o) (script s) with
              | Some st => Some (mk (defaulTtlInS s) st w)
              | None => None
              end
          | None => None
          end
      | _ => None
      end
  | Continue i =>
      match BulkDelete.step (BulkDelete.Resume i) (script s) with
      | Some st => Some (mk (defaulTtlInS s) st (pool s))
      | None => None
      end
  | ExecAnswer i =>
      match nth_error (BulkDelete.calls (script s)) i with
      | Some (BulkDelete.AwaitingExec sha pattern) =>
          match sendCommand (fst (BulkDelete.evalsha sha pattern))
                            (snd (BulkDelete.evalsha sha pattern)) (pool s) with
          | Some (o, w) =>
              match BulkDelete.step (BulkDelete.ExecSettles i o) (script s) with
              | Some st => Some (mk (defaulTtlInS s) st w)
              | None => None
              end
          | None => None
          end
      | _ => None
      end
  end.

Fixpoint perform (acts : list action) (s : t) : option t :=
  match acts with
  | [] => Some s
  | a :: rest =>
      match act a s with
      | Some s' => perform rest s'
      | None => None
      end
  end.

(** [getDefaultTtlInS()]. *)
Definition getDefaultTtlInS (s : t) : option Z := defaulTtlInS s.

(** JavaScript truthiness of an optional string. *)
Definition truthy_string (str : option string) : bool :=
  match str with
  | Some (String _ _) => true
  | _ => false
  end.

(** [ping(str)]. *)
Definition ping (str : option string) (s : t) : option (outcome js_value * t) :=
  with_pool s
    (sendCommand "ping"
       (match str with
        | Some text => if truthy_string str then [JStr text] else []
        | None => []
        end)
       (pool s)).

(** [getset(key, value, ttlInSeconds)]. *)
Definition getset (key : string) (value : js_value) (ttlInSeconds : option Z)
  (s : t) : option (outcome js_value * t) :=
  let str := encode value in
  match validatedTtl ttlInSeconds (defaulTtlInS s) with
  | Rejected e => Some (Rejected e, s)
  | Resolved ttl =>
      match sendCommand "getset" [JStr key; str] (pool s) with
      | None => None
      | Some (Rejected e, w) => Some (Rejected e, mk (defaulTtlInS s) (script s) w)
      | Some (Resolved result, w) =>
          let result := decode result in
          match ttl with
          | Some n =>
              if Pool.truthyZ ttl then
                match sendCommand "expire" [JStr key; JNum n] w with
                | None => None
                | Some (Rejected e, w') =>
                    Some (Rejected e, mk (defaulTtlInS s) (script s) w')
                | Some (Resolved _, w') =>
                    Some (Resolved result, mk (defaulTtlInS s) (script s) w')
                end
              else Some (Resolved result, mk (defaulTtlInS s) (script s) w)
          | None => Some (Resolved result, mk (defaulTtlInS s) (script s) w)
          end
      end
  end.

(** [del(keys)]; the list is empty when none is given. *)
Definition del (keys : option (list string)) (s : t)
  : option (outcome js_value * t) :=
  with_pool s
    (sendCommand "del" (map JStr (match keys with Some l => l | None => [] end))
              (pool s)).

(** [expire(key, ttlInSeconds)].  [validatedTtl] gives back no number only
    for an absent one; the argument is then [undefined], written [JNull]
    here. *)
Definition expire (key : string) (ttlInSeconds : Z) (s : t)
  : option (outcome js_value * t) :=
  match validatedTtl (Some ttlInSeconds) None with
  | Rejected e => Some (Rejected e, s)
  | Resolved ttl =>
      with_pool s
        (sendCommand "expire"
           [JStr key; match ttl with Some n => JNum n | None => JNull end]
           (pool s))
  end.

(** [getTtl(key)]. *)
Definition getTtl (key : string) (s : t) : option (outcome js_value * t) :=
  with_pool s (sendCommand "ttl" [JStr key] (pool s)).

(** [keys(pattern)]; the pattern is [*] when none is given. *)
Definition keys (pattern : option string) (s : t)
  : option (outcome js_value * t) :=
  with_pool s
    (sendCommand "keys"
       [JStr (match pattern with Some p => p | None => "*"%string end)]
       (pool s)).

(** *** The pool and the server in the statements *)

(** The keyspace of a database of the server, and the entry it holds for a
    key. *)
Definition keyspace (d : Z) (s : t) : Redis.keyspace :=
  Redis.databases (Pool.backend (pool s)) d.

Definition stored (d : Z) (key : string) (s : t) : option Redis.entry :=
  Redis.lookup key (keyspace d s).

(** The database selected on a connection. *)
Definition database (c : nat) (s : t) : Z :=
  Pool.selected_db Redis.server c (pool s).

(** The idle connections of the pool all have database [d] selected: what
    the pool is like as long as no caller has acquired a connection for
    another database. *)
Definition serves (d : Z) (s : t) : Prop :=
  forall c, In c (Pool.available (pool s)) -> database c s = d.

(** A time to live that the server accepts. *)
Definition positive_ttl (ttl : option Z) : Prop :=
  match ttl with
  | Some n => (0 < n)%Z
  | None => True
  end.

Definition is_structured (value : js_value) : bool :=
  match value with
  | JArr _ => true
  | JObj _ => true
  | _ => false
  end.

(** The kept script promise can be used: nothing is kept yet, or the kept
    promise has resolved with a sha1 under which the server holds the
    script. *)
Definition script_usable (s : t) : Prop :=
  BulkDelete.deleteScriptPromise (script s) = None
  \/ exists p sha,
       BulkDelete.deleteScriptPromise (script s) = Some p
       /\ nth_error (BulkDelete.promises (script s)) p
          = Some (BulkDelete.Settled (Resolved (JStr sha)))
       /\ Redis.find_script sha (Redis.scripts (Pool.backend (pool s)))
          = Some BulkDelete.deleteKeysScript.

(** The connection that carries the EVALSHA of a [deleteAll] when the idle
    connections are [c :: rest]: the first one, or the one after it when
    the script is loaded first. *)
Definition runner (c : nat) (rest : list nat) (s : t) : nat :=
  match BulkDelete.deleteScriptPromise (script s) with
  | None => hd c rest
  | Some _ => c
  end.

(** *** [set] and [get] *)

Lemma sendCommand_served (name : string) (args : list js_value) (w : world)
  (c : nat) (rest : list nat) :
  Pool.available w = c :: rest ->
  exists w' : world,
    sendCommand name args w
    = Some (fst (Redis.command glob_match sha1 (Pool.selected_db Redis.server c w)
                   name (match args with [] => None | _ => Some args end)
                   (Pool.backend w)), w')
    /\ Pool.backend w'
       = snd (Redis.command glob_match sha1 (Pool.selected_db Redis.server c w)
                name (match args with [] => None | _ => Some args end)
                (Pool.backend w))
    /\ Pool.available w' = rest ++ [c]
    /\ Pool.selected w' = Pool.selected w.
Proof.
  intros H. unfold sendCommand.
  destruct (Pool.sendCommand_idle Redis.server
              (fun _ db name args s => Redis.command glob_match sha1 db name args s)
              connect_failure opts name args w c rest H) as (w' & Hs & Hb & Ha).
  exists w'. split; [exact Hs|]. split; [exact Hb|]. split; [exact Ha|].
  exact (proj1 (Pool.sendCommand_idle_keeps Redis.server _ connect_failure opts
                  name args w c rest _ w' H Hs)).
Qed.

Lemma queue_goes_on (c : nat) (rest : list nat) :
  exists c' rest', rest ++ [c] = c' :: rest'.
Proof. destruct rest; simpl; eauto. Qed.

(** After a command the idle connections are the same ones, with the same
    databases selected. *)
Lemma serves_after (d : Z) (s s' : t) (c : nat) (rest : list nat) :
  serves d s ->
  Pool.available (pool s) = c :: rest ->
  Pool.available (pool s') = rest ++ [c] ->
  Pool.selected (pool s') = Pool.selected (pool s) ->
  serves d s'
  /\ exists c' rest',
       Pool.available (pool s') = c' :: rest' /\ database c' s' = d.
Proof.
  intros Hd Hav Hav' Hsel.
  assert (Hs : serves d s').
  { intros c0 Hin. unfold database, Pool.selected_db. rewrite Hsel.
    apply Hd. rewrite Hav. rewrite Hav' in Hin.
    apply in_app_or in Hin as [Hin|[Hin|[]]]; [now right|now left]. }
  split; [exact Hs|].
  destruct (queue_goes_on c rest) as (c' & rest' & Hq).
  exists c', rest'. rewrite Hav', Hq. split; [reflexivity|].
  apply Hs. rewrite Hav', Hq. now left.
Qed.

Lemma serves_head (d : Z) (s : t) (c : nat) (rest : list nat) :
  serves d s -> Pool.available (pool s) = c :: rest -> database c s = d.
Proof. intros Hd Hav. apply Hd. rewrite Hav. now left. Qed.

Lemma wire_encode (value : js_value) :
  exists text, Redis.wire (encode value) = Some text.
Proof.
  unfold encode.
  destruct value as [ |[|]|z|literal|str|l|l]; simpl; eauto.
  destruct (isJSON_string str); simpl; eauto.
Qed.

Lemma validatedTtl_positive ttlInSeconds default ttl :
  positive_ttl default ->
  validatedTtl ttlInSeconds default = Resolved ttl -> positive_ttl ttl.
Proof.
  unfold validatedTtl. destruct ttlInSeconds as [n|].
  - destruct (Z.ltb_spec 0 n); intros _ Hr; inversion Hr; subst; simpl; auto.
  - intros Hd Hr. now inversion Hr; subst.
Qed.

Lemma truthy_positive (n : Z) : (0 < n)%Z -> Pool.truthyZ (Some n) = true.
Proof. intros H. simpl. apply negb_true_iff, Z.eqb_neq. lia. Qed.

Lemma set_served (s : t) (key : string) (value : js_value)
  (ttlInSeconds ttl : option Z) (c : nat) (rest : list nat) (text : string) :
  Pool.available (pool s) = c :: rest ->
  validatedTtl ttlInSeconds (defaulTtlInS s) = Resolved ttl ->
  positive_ttl ttl ->
  Redis.wire (encode value) = Some text ->
  exists s' : t,
    set key value ttlInSeconds s = Some (Resolved (JStr "OK"), s')
    /\ stored (database c s) key s' = Some (Redis.mkEntry key text ttl)
    /\ Pool.available (pool s') = rest ++ [c]
    /\ Pool.selected (pool s') = Pool.selected (pool s)
    /\ defaulTtlInS s' = defaulTtlInS s
    /\ script s' = script s.
Proof.
  intros Hav Hv Hpos Hw. unfold set, stored, keyspace, database. rewrite Hv.
  destruct ttl as [n|]; simpl in Hpos.
  - rewrite (truthy_positive n Hpos).
    destruct (sendCommand_served "setex" [JStr key; JNum n; encode value]
                (pool s) c rest Hav) as (w' & Hs & Hb & Ha & Hsel).
    unfold Redis.command in Hs, Hb.
    rewrite (Redis.answer_setex glob_match sha1 key text n _ _ Hw Hpos) in Hs, Hb.
    cbn [fst snd] in Hs, Hb. rewrite Hs. cbn [with_pool].
    eexists. split; [reflexivity|]. cbn [pool defaulTtlInS script].
    rewrite Hb, Redis.databases_commit_same. cbn [Redis.slots].
    repeat split; auto.
    apply (Redis.lookup_put (Redis.mkEntry key text (Some n))).
  - destruct (sendCommand_served "set" [JStr key; encode value]
                (pool s) c rest Hav) as (w' & Hs & Hb & Ha & Hsel).
    unfold Redis.command in Hs, Hb.
    rewrite (Redis.answer_set glob_match sha1 key text _ _ Hw) in Hs, Hb.
    cbn [fst snd] in Hs, Hb. rewrite Hs. cbn [with_pool].
    eexists. split; [reflexivity|]. cbn [pool defaulTtlInS script].
    rewrite Hb, Redis.databases_commit_same. cbn [Redis.slots].
    repeat split; auto.
    apply (Redis.lookup_put (Redis.mkEntry key text None)).
Qed.

Lemma get_served (s : t) (key : string) (c : nat) (rest : list nat) :
  Pool.available (pool s) = c :: rest ->
  exists s' : t,
    get key s
    = Some (Resolved (match stored (database c s) key s with
                      | Some e => decode (JStr (Redis.e_value e))
                      | None => JNull
                      end), s')
    /\ Redis.unchanged (Pool.backend (pool s)) (Pool.backend (pool s'))
    /\ Pool.available (pool s') = rest ++ [c]
    /\ Pool.selected (pool s') = Pool.selected (pool s)
    /\ defaulTtlInS s' = defaulTtlInS s
    /\ script s' = script s.
Proof.
  intros Hav. unfold get, stored, keyspace, database.
  destruct (sendCommand_served "get" [JStr key] (pool s) c rest Hav)
    as (w' & Hs & Hb & Ha & Hsel).
  unfold Redis.command in Hs, Hb. rewrite Redis.answer_get in Hs, Hb.
  cbn [fst snd Redis.select Redis.slots] in Hs, Hb. rewrite Hs.
  assert (Hsame : Redis.unchanged (Pool.backend (pool s)) (Pool.backend w')).
  { rewrite Hb. apply Redis.commit_select. }
  destruct (Redis.lookup key
              (Redis.databases (Pool.backend (pool s))
                 (Pool.selected_db Redis.server c (pool s)))) as [e|];
    eexists; (split; [reflexivity|]); cbn [pool defaulTtlInS script];
    repeat split; auto; apply Hsame.
Qed.

(** What [get] gives back for what [set] stored, when both commands reach
    the same database. *)
Lemma set_then_get (s : t) (key : string) (value : js_value)
  (ttlInSeconds ttl : option Z) (d : Z) (c : nat) (rest : list nat)
  (text : string) :
  Pool.available (pool s) = c :: rest ->
  serves d s ->
  validatedTtl ttlInSeconds (defaulTtlInS s) = Resolved ttl ->
  positive_ttl ttl ->
  Redis.wire (encode value) = Some text ->
  exists s1 s2 : t,
    set key value ttlInSeconds s = Some (Resolved (JStr "OK"), s1)
    /\ stored d key s1 = Some (Redis.mkEntry key text ttl)
    /\ get key s1 = Some (Resolved (decode (JStr text)), s2).
Proof.
  intros Hav Hd Hv Hpos Hw.
  destruct (set_served s key value ttlInSeconds ttl c rest text Hav Hv Hpos Hw)
    as (s1 & Hset & Hl & Ha & Hsel & _).
  rewrite (serves_head d s c rest Hd Hav) in Hl.
  destruct (serves_after d s s1 c rest Hd Hav Ha Hsel)
    as (Hd1 & c' & rest' & Hav1 & Hc').
  destruct (get_served s1 key c' rest' Hav1) as (s2 & Hget & _).
  rewrite Hc', Hl in Hget.
  exists s1, s2. split; [exact Hset|]. split; [exact Hl|exact Hget].
Qed.

(** C9 (as the code has it). With a connection at hand, the idle
    connections having the same database selected, a valid default and a
    valid time to live, and [JSON.parse] reading back what [JSON.stringify]
    writes for the values built from null, booleans, safe integers, strings,
    arrays and objects, [set] followed by [get] on the same key gives back
    unchanged every array and every object that is such a value, and more
    generally every array and every object that [JSON.parse] reads back
    from its [JSON.stringify] text.  A string comes back unchanged when the
    is-json test accepts it or when it is no JSON text; a string that the
    test rejects and that is a JSON text (such as 123, true or null) comes
    back as the value it denotes. *)
Theorem set_then_get_round_trip :
  forall (s : t) (key : string) (ttlInSeconds ttl : option Z) (d : Z)
         (c : nat) (rest : list nat),
    Pool.available (pool s) = c :: rest ->
    serves d s ->
    positive_ttl (defaulTtlInS s) ->
    validatedTtl ttlInSeconds (defaulTtlInS s) = Resolved ttl ->
    Json.reads_back JSON_parse ->
    (forall value,
       is_structured value = true ->
       Json.representable value = true
       \/ JSON_parse (Json.stringify value) = Some value ->
       exists s1 s2,
         set key value ttlInSeconds s = Some (Resolved (JStr "OK"), s1)
         /\ get key s1 = Some (Resolved value, s2))
    /\ (forall str,
          isJSON_string str = true \/ JSON_parse str = None ->
          exists s1 s2,
            set key (JStr str) ttlInSeconds s = Some (Resolved (JStr "OK"), s1)
            /\ get key s1 = Some (Resolved (JStr str), s2))
    /\ (forall str v,
          isJSON_string str = false -> JSON_parse str = Some v ->
          exists s1 s2,
            set key (JStr str) ttlInSeconds s = Some (Resolved (JStr "OK"), s1)
            /\ get key s1 = Some (Resolved v, s2)).
Proof.
  intros s key ttlInSeconds ttl d c rest Hav Hd Hdef Hv Hjson.
  pose proof (validatedTtl_positive _ _ _ Hdef Hv) as Hpos. split; [|split].
  - intros value Hs Hr.
    assert (Hw : Redis.wire (encode value) = Some (Json.stringify value)).
    { destruct value; try discriminate Hs; reflexivity. }
    destruct (set_then_get s key value ttlInSeconds ttl d c rest _ Hav Hd Hv Hpos Hw)
      as (s1 & s2 & Hset & _ & Hget).
    exists s1, s2. split; [exact Hset|].
    rewrite Hget. unfold decode.
    destruct Hr as [Hr|Hr]; [now rewrite (Hjson value Hr)|now rewrite Hr].
  - intros str Hstr.
    destruct (isJSON_string str) eqn:Hj.
    + assert (Hw : Redis.wire (encode (JStr str)) = Some (Json.stringify (JStr str))).
      { unfold encode. simpl. now rewrite Hj. }
      destruct (set_then_get s key (JStr str) ttlInSeconds ttl d c rest _
                  Hav Hd Hv Hpos Hw) as (s1 & s2 & Hset & _ & Hget).
      exists s1, s2. split; [exact Hset|].
      rewrite Hget. unfold decode.
      now rewrite (Hjson (JStr str) eq_refl).
    + destruct Hstr as [Hstr|Hstr]; [discriminate|].
      assert (Hw : Redis.wire (encode (JStr str)) = Some str).
      { unfold encode. simpl. now rewrite Hj. }
      destruct (set_then_get s key (JStr str) ttlInSeconds ttl d c rest _
                  Hav Hd Hv Hpos Hw) as (s1 & s2 & Hset & _ & Hget).
      exists s1, s2. split; [exact Hset|].
      rewrite Hget. unfold decode. now rewrite Hstr.
  - intros str v Hj Hp.
    assert (Hw : Redis.wire (encode (JStr str)) = Some str).
    { unfold encode. simpl. now rewrite Hj. }
    destruct (set_then_get s key (JStr str) ttlInSeconds ttl d c rest _
                Hav Hd Hv Hpos Hw) as (s1 & s2 & Hset & _ & Hget).
    exists s1, s2. split; [exact Hset|].
    rewrite Hget. unfold decode. now rewrite Hp.
Qed.

(** C10. When [set] is called without a time to live and the store has a
    default one, the value is written with setex carrying the default, and
    the key gets that time to live in the database selected on the
    connection that carries the command; when the store has none either,
    the value is written with a plain set and the key gets no expiry. *)
Theorem set_uses_default_ttl :
  forall (s : t) (key : string) (value : js_value),
    (forall d,
       validatedTtl (Some d) None = Resolved (defaulTtlInS s) ->
       set key value None s
       = with_pool s (sendCommand "setex" [JStr key; JNum d; encode value] (pool s))
       /\ forall c rest text,
            Pool.available (pool s) = c :: rest ->
            Redis.wire (encode value) = Some text ->
            exists s',
              set key value None s = Some (Resolved (JStr "OK"), s')
              /\ Redis.lookup key
                   (Redis.databases (Pool.backend (pool s')) (database c s))
                 = Some (Redis.mkEntry key text (Some d)))
    /\ (defaulTtlInS s = None ->
        set key value None s
        = with_pool s (sendCommand "set" [JStr key; encode value] (pool s))
        /\ forall c rest text,
             Pool.available (pool s) = c :: rest ->
             Redis.wire (encode value) = Some text ->
             exists s',
               set key value None s = Some (Resolved (JStr "OK"), s')
               /\ Redis.lookup key
                    (Redis.databases (Pool.backend (pool s')) (database c s))
                  = Some (Redis.mkEntry key text None)).
Proof.
  intros s key value. split.
  - intros d Hd.
    assert (Hdef : defaulTtlInS s = Some d /\ (0 < d)%Z).
    { unfold validatedTtl in Hd. destruct (Z.ltb_spec 0 d); inversion Hd; auto. }
    destruct Hdef as (Hdef & Hpos). split.
    + unfold set. simpl. rewrite Hdef.
      now replace (Pool.truthyZ (Some d)) with true
        by (symmetry; simpl; apply negb_true_iff, Z.eqb_neq; lia).
    + intros c rest text Hav Hw.
      destruct (set_served s key value None (Some d) c rest text Hav) as (s' & H1 & H2 & _);
        auto.
      * simpl. now rewrite Hdef.
      * eauto.
  - intros Hdef. split.
    + unfold set. simpl. now rewrite Hdef.
    + intros c rest text Hav Hw.
      destruct (set_served s key value None None c rest text Hav) as (s' & H1 & H2 & _);
        simpl; auto.
      * now rewrite Hdef.
      * eauto.
Qed.

(** *** [deleteAll] *)

Lemma settle_done (fuel i : nat) (s : t) (o : outcome js_value) :
  nth_error (BulkDelete.calls (script s)) i = Some (BulkDelete.Done o) ->
  settle (S fuel) i s = Some (o, s).
Proof. intros H. cbn [settle]. now rewrite H. Qed.

Lemma settle_load (fuel i : nat) (s : t) (pattern : string) (p : nat)
  (o : outcome js_value) (w : world) :
  nth_error (BulkDelete.calls (script s)) i
  = Some (BulkDelete.AwaitingLoad pattern p) ->
  nth_error (BulkDelete.promises (script s)) p = Some BulkDelete.Pending ->
  sendCommand (fst BulkDelete.script_load) (snd BulkDelete.script_load) (pool s)
  = Some (o, w) ->
  settle (S fuel) i s
  = settle fuel i
      (mk (defaulTtlInS s)
          (BulkDelete.mkStore
             (BulkDelete.deleteScriptPromise (script s))
             (BulkDelete.set_nth p (BulkDelete.Settled o)
                (BulkDelete.promises (script s)))
             (BulkDelete.calls (script s)) (BulkDelete.sent (script s)))
          w).
Proof.
  intros Hc Hp Hs. cbn [settle]. rewrite Hc, Hp, Hs.
  unfold BulkDelete.step. now rewrite Hp.
Qed.

Lemma settle_resume (fuel i : nat) (s : t) (pattern : string) (p : nat)
  (o : outcome js_value) :
  nth_error (BulkDelete.calls (script s)) i
  = Some (BulkDelete.AwaitingLoad pattern p) ->
  nth_error (BulkDelete.promises (script s)) p = Some (BulkDelete.Settled o) ->
  settle (S fuel) i s
  = settle fuel i
      (mk (defaulTtlInS s)
          (BulkDelete._executeDeleteAll_resume i pattern o (script s))
          (pool s)).
Proof.
  intros Hc Hp. cbn [settle]. rewrite Hc, Hp.
  unfold BulkDelete.step. now rewrite Hc, Hp.
Qed.

Lemma settle_exec (fuel i : nat) (s : t) (sha : js_value) (pattern : string)
  (o : outcome js_value) (w : world) :
  nth_error (BulkDelete.calls (script s)) i
  = Some (BulkDelete.AwaitingExec sha pattern) ->
  sendCommand (fst (BulkDelete.evalsha sha pattern))
              (snd (BulkDelete.evalsha sha pattern)) (pool s)
  = Some (o, w) ->
  settle (S fuel) i s
  = settle fuel i
      (mk (defaulTtlInS s)
          (BulkDelete.mkStore
             (BulkDelete.deleteScriptPromise (script s))
             (BulkDelete.promises (script s))
             (BulkDelete.set_nth i (BulkDelete.Done o)
                (BulkDelete.calls (script s)))
             (BulkDelete.sent (script s)))
          w).
Proof.
  intros Hc Hs. cbn [settle]. rewrite Hc, Hs.
  unfold BulkDelete.step. now rewrite Hc.
Qed.

(** An invocation that waits for a load that has resolved, carried to its
    end: the EVALSHA goes out on the first idle connection and works on the
    database selected on it. *)
Lemma settle_loaded (fuel i : nat) (s : t) (pattern : string) (p : nat)
  (sha : string) (c : nat) (rest : list nat) :
  nth_error (BulkDelete.calls (script s)) i
  = Some (BulkDelete.AwaitingLoad pattern p) ->
  nth_error (BulkDelete.promises (script s)) p
  = Some (BulkDelete.Settled (Resolved (JStr sha))) ->
  Redis.find_script sha (Redis.scripts (Pool.backend (pool s)))
  = Some BulkDelete.deleteKeysScript ->
  Pool.available (pool s) = c :: rest ->
  NoDup (Redis.keys_of (keyspace (database c s) s)) ->
  exists s' : t,
    settle (3 + fuel) i s
    = Some (Resolved
              (JNum (Z.of_nat
                       (List.length
                          (Redis.matching glob_match pattern
                             (keyspace (database c s) s))))), s')
    /\ keyspace (database c s) s'
       = map (Redis.clear glob_match pattern) (keyspace (database c s) s)
    /\ (forall d', d' <> database c s -> keyspace d' s' = keyspace d' s)
    /\ Redis.scripts (Pool.backend (pool s'))
       = Redis.scripts (Pool.backend (pool s))
    /\ Pool.available (pool s') = rest ++ [c]
    /\ Pool.selected (pool s') = Pool.selected (pool s)
    /\ BulkDelete.deleteScriptPromise (script s')
       = BulkDelete.deleteScriptPromise (script s)
    /\ BulkDelete.promises (script s') = BulkDelete.promises (script s)
    /\ BulkDelete.sent (script s')
       = BulkDelete.sent (script s) ++ [BulkDelete.evalsha (JStr sha) pattern].
Proof.
  intros Hc Hp Hf Hav Hnd. unfold keyspace, database in *.
  change (3 + fuel) with (S (S (S fuel))).
  rewrite (settle_resume _ i s pattern p _ Hc Hp).
  cbn [BulkDelete._executeDeleteAll_resume].
  destruct (sendCommand_served (fst (BulkDelete.evalsha (JStr sha) pattern))
              (snd (BulkDelete.evalsha (JStr sha) pattern)) (pool s) c rest Hav)
    as (w' & Hs & Hb & Ha & Hsel).
  cbn [BulkDelete.evalsha fst snd] in Hs, Hb. unfold Redis.command in Hs, Hb.
  rewrite (Redis.answer_evalsha glob_match sha1 sha pattern
             (Redis.select (Pool.selected_db Redis.server c (pool s))
                (Pool.backend (pool s))) Hf Hnd) in Hs, Hb.
  cbn [fst snd Redis.select Redis.slots Redis.script_cache] in Hs, Hb.
  erewrite settle_exec;
    [|cbn [script BulkDelete.calls]; eapply BulkDelete.nth_error_set_nth; exact Hc
     |cbn [pool BulkDelete.evalsha fst snd]; exact Hs].
  rewrite settle_done with (o := Resolved
            (JNum (Z.of_nat
                     (List.length
                        (Redis.matching glob_match pattern
                           (Redis.databases (Pool.backend (pool s))
                              (Pool.selected_db Redis.server c (pool s)))))))).
  - eexists. split; [reflexivity|]. cbn [pool script defaulTtlInS].
    rewrite Hb. split; [apply Redis.databases_commit_same|].
    split; [intros d' Hd'; now apply Redis.databases_commit_other|].
    cbn. repeat split; auto.
  - cbn [script BulkDelete.calls]. eapply BulkDelete.nth_error_set_nth.
    eapply BulkDelete.nth_error_set_nth. exact Hc.
Qed.

Lemma queue_head (c c' : nat) (rest rest' : list nat) :
  rest ++ [c] = c' :: rest' -> c' = hd c rest.
Proof. destruct rest; simpl; intros H; inversion H; reflexivity. Qed.

(** [deleteAll] carried to its end, with the database it has worked on and
    what it has dispatched. *)
Lemma deleteAll_settles (s : t) (pattern : option string) (fuel : nat)
  (c : nat) (rest : list nat) :
  Pool.available (pool s) = c :: rest ->
  NoDup (Redis.keys_of (keyspace (database (runner c rest s) s) s)) ->
  script_usable s ->
  4 <= fuel ->
  exists (s' : t) (sha : string),
    deleteAll fuel pattern s
    = Some (Resolved
              (JNum (Z.of_nat
                       (List.length
                          (Redis.matching glob_match
                             (match pattern with Some p => p | None => "*"%string end)
                             (keyspace (database (runner c rest s) s) s))))), s')
    /\ keyspace (database (runner c rest s) s) s'
       = map (Redis.clear glob_match
                (match pattern with Some p => p | None => "*"%string end))
             (keyspace (database (runner c rest s) s) s)
    /\ (forall d', d' <> database (runner c rest s) s ->
                   keyspace d' s' = keyspace d' s)
    /\ Pool.available (pool s') <> []
    /\ (forall c0, In c0 (Pool.available (pool s')) -> In c0 (c :: rest))
    /\ Pool.selected (pool s') = Pool.selected (pool s)
    /\ script_usable s'
    /\ BulkDelete.deleteScriptPromise (script s') <> None
    /\ BulkDelete.sent (script s')
       = BulkDelete.sent (script s)
         ++ match BulkDelete.deleteScriptPromise (script s) with
            | None => [BulkDelete.script_load]
            | Some _ => []
            end
         ++ [BulkDelete.evalsha (JStr sha)
               (match pattern with Some p => p | None => "*"%string end)].
Proof.
  intros Hav Hnd Hus Hfuel.
  set (pat := match pattern with Some p => p | None => "*"%string end).
  unfold deleteAll.
  replace fuel with (S (3 + (fuel - 4))) by lia.
  unfold BulkDelete.deleteAll, BulkDelete._executeDeleteAll_enter,
    BulkDelete._loadDeleteAllScript. fold pat.
  unfold runner in *.
  destruct Hus as [Hnone|(p & sha & Hd & Hp & Hf)].
  - rewrite Hnone in *.
    cbn [BulkDelete.deleteScriptPromise BulkDelete.promises
         BulkDelete.calls BulkDelete.sent].
    destruct (sendCommand_served (fst BulkDelete.script_load)
                (snd BulkDelete.script_load) (pool s) c rest Hav)
      as (w' & Hs & Hb & Ha & Hsel).
    cbn [BulkDelete.script_load fst snd] in Hs, Hb.
    unfold Redis.command in Hs, Hb.
    rewrite Redis.answer_script_load in Hs, Hb.
    cbn [fst snd Redis.select Redis.slots Redis.script_cache] in Hs, Hb.
    erewrite settle_load;
      [|cbn [script BulkDelete.calls]; apply BulkDelete.nth_error_app_new
       |cbn [script BulkDelete.promises]; apply BulkDelete.nth_error_app_new
       |cbn [pool BulkDelete.script_load fst snd]; exact Hs].
    cbn [script defaulTtlInS BulkDelete.deleteScriptPromise BulkDelete.promises
         BulkDelete.calls BulkDelete.sent].
    rewrite BulkDelete.set_nth_end.
    destruct (queue_goes_on c rest) as (c1 & rest1 & Hq).
    pose proof (queue_head c c1 rest rest1 Hq) as Hc1.
    rewrite Hq in Ha.
    assert (Hdbs : forall d, Redis.databases (Pool.backend w') d
                             = Redis.databases (Pool.backend (pool s)) d).
    { intros d. rewrite Hb. now apply Redis.databases_commit_kept. }
    assert (Hscr : Redis.scripts (Pool.backend w')
                   = (sha1 BulkDelete.deleteKeysScript, BulkDelete.deleteKeysScript)
                     :: Redis.scripts (Pool.backend (pool s))).
    { rewrite Hb. reflexivity. }
    assert (Hdb1 : Pool.selected_db Redis.server c1 w'
                   = database (hd c rest) s).
    { unfold database, Pool.selected_db. now rewrite Hsel, Hc1. }
    match goal with
    | |- context [settle _ ?i ?s1] =>
        destruct (settle_loaded (fuel - 4) i s1 pat
                    (List.length (BulkDelete.promises (script s)))
                    (sha1 BulkDelete.deleteKeysScript) c1 rest1)
          as (s' & Hst & H1 & H1' & H2 & H3 & H3' & H4 & H5 & H6)
    end;
      unfold keyspace, database in *;
      cbn [script pool BulkDelete.deleteScriptPromise BulkDelete.promises
           BulkDelete.calls BulkDelete.sent] in *.
    + apply BulkDelete.nth_error_app_new.
    + apply BulkDelete.nth_error_app_new.
    + rewrite Hscr. cbn. now rewrite String.eqb_refl.
    + exact Ha.
    + rewrite Hdb1, Hdbs. exact Hnd.
    + rewrite Hdb1 in *. rewrite !Hdbs in *.
      exists s', (sha1 BulkDelete.deleteKeysScript).
      split; [exact Hst|]. split; [exact H1|].
      split; [intros d' Hd'; rewrite (H1' d' Hd'); apply Hdbs|].
      split; [rewrite H3; destruct rest1; discriminate|].
      split.
      { intros c0 Hin. rewrite H3 in Hin.
        assert (Hin' : In c0 (rest ++ [c])).
        { rewrite Hq. apply in_app_or in Hin as [Hin|[Hin|[]]];
            [now right|now left]. }
        apply in_app_or in Hin' as [Hin'|[Hin'|[]]]; [now right|now left]. }
      split; [now rewrite H3'|].
      split.
      { right. exists (List.length (BulkDelete.promises (script s))),
                 (sha1 BulkDelete.deleteKeysScript).
        rewrite H4, H5, H2, Hscr. split; [reflexivity|].
        split; [apply BulkDelete.nth_error_app_new|].
        cbn. now rewrite String.eqb_refl. }
      split; [rewrite H4; discriminate|].
      rewrite H6, <- List.app_assoc. reflexivity.
  - rewrite Hd in *.
    cbn [script defaulTtlInS BulkDelete.deleteScriptPromise BulkDelete.promises
         BulkDelete.calls BulkDelete.sent].
    match goal with
    | |- context [settle _ ?i ?s1] =>
        destruct (settle_loaded (S (fuel - 4)) i s1 pat p sha c rest)
          as (s' & Hst & H1 & H1' & H2 & H3 & H3' & H4 & H5 & H6)
    end;
      unfold keyspace, database in *;
      cbn [script pool BulkDelete.deleteScriptPromise BulkDelete.promises
           BulkDelete.calls BulkDelete.sent] in *; auto.
    + apply BulkDelete.nth_error_app_new.
    + exists s', sha.
      split; [exact Hst|]. split; [exact H1|]. split; [exact H1'|].
      split; [rewrite H3; destruct rest; discriminate|].
      split.
      { intros c0 Hin. rewrite H3 in Hin.
        apply in_app_or in Hin as [Hin|[Hin|[]]]; [now right|now left]. }
      split; [exact H3'|].
      split.
      { right. exists p, sha. rewrite H4, H5, H2. auto. }
      split; [rewrite H4, Hd; discriminate|].
      rewrite H6. reflexivity.
Qed.

(** C2. With a connection at hand and a usable script promise, [deleteAll]
    ends with the number of keys that match the pattern ("*" when none is
    given) in the database selected on the connection that carries the
    EVALSHA, each key of that database being in one slot; afterwards every
    matching key of that database is gone and every other key has the entry
    it had, and the other databases are as they were.  The command sent is
    EVALSHA with the pattern and the chunk size 1000; the script scans chunk
    by chunk from cursor 0, unlinks and counts the keys of each chunk, and
    stops when the cursor is 0 again.  The store is then ready for the next
    call. *)
Theorem deleteAll_removes_matching_keys :
  forall (s : t) (pattern : option string) (fuel : nat)
         (c : nat) (rest : list nat),
    Pool.available (pool s) = c :: rest ->
    NoDup (Redis.keys_of
             (Redis.databases (Pool.backend (pool s))
                (database (runner c rest s) s))) ->
    script_usable s ->
    4 <= fuel ->
    exists (s' : t) (sha : string),
      deleteAll fuel pattern s
      = Some (Resolved
                (JNum (Z.of_nat
                         (List.length
                            (Redis.matching glob_match
                               (match pattern with Some p => p | None => "*"%string end)
                               (Redis.databases (Pool.backend (pool s))
                                  (database (runner c rest s) s)))))), s')
      /\ Redis.databases (Pool.backend (pool s')) (database (runner c rest s) s)
         = map (Redis.clear glob_match
                  (match pattern with Some p => p | None => "*"%string end))
               (Redis.databases (Pool.backend (pool s))
                  (database (runner c rest s) s))
      /\ (forall d',
            d' <> database (runner c rest s) s ->
            Redis.databases (Pool.backend (pool s')) d'
            = Redis.databases (Pool.backend (pool s)) d')
      /\ (forall key,
            Redis.lookup key
              (Redis.databases (Pool.backend (pool s'))
                 (database (runner c rest s) s))
            = if glob_match (match pattern with Some p => p | None => "*"%string end) key
              then None
              else Redis.lookup key
                     (Redis.databases (Pool.backend (pool s))
                        (database (runner c rest s) s)))
      /\ List.last (BulkDelete.sent (script s')) BulkDelete.script_load
         = ("EVALSHA"%string,
            [JStr sha; JNum 0;
             JStr (match pattern with Some p => p | None => "*"%string end);
             JNum 1000])
      /\ Pool.available (pool s') <> []
      /\ NoDup (Redis.keys_of
                  (Redis.databases (Pool.backend (pool s'))
                     (database (runner c rest s) s)))
      /\ script_usable s'.
Proof.
  intros s pattern fuel c rest Hav Hnd Hus Hfuel.
  destruct (deleteAll_settles s pattern fuel c rest Hav Hnd Hus Hfuel)
    as (s' & sha & Hd & Hsl & Hother & Ha & _ & _ & Hus' & _ & Hsent).
  unfold keyspace in *.
  exists s', sha. split; [exact Hd|]. split; [exact Hsl|].
  split; [exact Hother|]. split.
  { intros key. rewrite Hsl. apply Redis.lookup_clear. }
  split.
  { rewrite Hsent, List.app_assoc. apply last_last. }
  split; [exact Ha|]. split; [|exact Hus'].
  rewrite Hsl. now apply Redis.keys_of_clear.
Qed.

(** *** Concurrent invocations of [deleteAll] over the server *)

(** The answer to a SCRIPT LOAD, the pool's failures included, is never a
    refusal with NOSCRIPT. *)
Lemma load_outcome_is_quiet (p : nat) (w w' : world) (o : outcome js_value) :
  sendCommand (fst BulkDelete.script_load) (snd BulkDelete.script_load) w
  = Some (o, w') ->
  BulkDelete.quiet (BulkDelete.LoadSettles p o) = true.
Proof.
  unfold sendCommand, Pool.sendCommand.
  match goal with
  | |- match ?x with _ => _ end = _ -> _ => destruct x as [[r w1]|]
  end; [|discriminate].
  destruct r as [conn|e].
  - cbn [BulkDelete.script_load fst snd List.app]. unfold Redis.command.
    cbv zeta. cbn [fst snd].
    match goal with
    | |- context [Redis.answer ?g ?h "SCRIPT" ?a ?v] =>
        pose proof (Redis.script_is_not_refused_with_noscript g h a v) as Hq;
        destruct (fst (Redis.answer g h "SCRIPT" a v)) as [r|e]
    end.
    + intros H. inversion H. reflexivity.
    + intros H. inversion H; subst. simpl. now rewrite (Hq e eq_refl).
  - intros H. inversion H. reflexivity.
Qed.

Lemma act_is_step (a : action) (s s' : t) :
  act a s = Some s' ->
  exists ev : BulkDelete.event,
    BulkDelete.step ev (script s) = Some (script s')
    /\ BulkDelete.quiet ev = true
    /\ BulkDelete.is_invoke ev = is_call a.
Proof.
  destruct a as [pattern|p|i|i]; cbn [act].
  - intros H. inversion H. exists (BulkDelete.Invoke pattern). auto.
  - destruct (nth_error (BulkDelete.promises (script s)) p) as [[|o0]|] eqn:Hp;
      try discriminate.
    destruct (sendCommand _ _ (pool s)) as [[o w]|] eqn:Hs; [|discriminate].
    destruct (BulkDelete.step (BulkDelete.LoadSettles p o) (script s))
      as [st|] eqn:Hst; [|discriminate].
    intros H. inversion H. exists (BulkDelete.LoadSettles p o).
    split; [exact Hst|]. split; [|reflexivity].
    exact (load_outcome_is_quiet p _ _ _ Hs).
  - destruct (BulkDelete.step (BulkDelete.Resume i) (script s)) as [st|] eqn:Hst;
      [|discriminate].
    intros H. inversion H. exists (BulkDelete.Resume i). auto.
  - destruct (nth_error (BulkDelete.calls (script s)) i) as [[| sha pattern |]|];
      try discriminate.
    destruct (sendCommand _ _ (pool s)) as [[o w]|]; [|discriminate].
    destruct (BulkDelete.step (BulkDelete.ExecSettles i o) (script s))
      as [st|] eqn:Hst; [|discriminate].
    intros H. inversion H. exists (BulkDelete.ExecSettles i o). auto.
Qed.

Lemma perform_is_run (acts : list action) : forall s s' : t,
  perform acts s = Some s' ->
  exists evs : list BulkDelete.event,
    BulkDelete.run evs (script s) = Some (script s')
    /\ forallb BulkDelete.quiet evs = true
    /\ existsb BulkDelete.is_invoke evs = existsb is_call acts.
Proof.
  induction acts as [|a acts IH]; intros s s'; cbn [perform].
  - intros H. inversion H. exists []. auto.
  - destruct (act a s) as [s1|] eqn:Ha; [|discriminate]. intros H.
    destruct (act_is_step a s s1 Ha) as (ev & Hst & Hq & Hi).
    destruct (IH s1 s' H) as (evs & Hrun & Hqs & His).
    exists (ev :: evs). cbn [BulkDelete.run forallb existsb].
    rewrite Hst, Hq, Hi, His. auto.
Qed.

(** C5. Whatever the interleaving of [deleteAll] invocations, of the
    server's answers to their SCRIPT LOAD and EVALSHA commands and of their
    continuations, from a store that has kept no script promise yet: a load
    request is dispatched only at a moment when no promise is kept; exactly
    one load request has been dispatched once [deleteAll] has been invoked
    at all, however many invocations there were before its answer; at most
    one load is in flight; and every invocation that waits for a load waits
    for that one. *)
Theorem deleteAll_calls_share_one_load :
  forall (acts : list action) (s0 s : t),
    script s0 = BulkDelete.new_store ->
    perform acts s0 = Some s ->
    BulkDelete.load_requests (script s) = (if existsb is_call acts then 1 else 0)
    /\ BulkDelete.loads_in_flight (script s) <= 1
    /\ (forall i pattern p,
          nth_error (BulkDelete.calls (script s)) i
          = Some (BulkDelete.AwaitingLoad pattern p) -> p = 0)
    /\ (forall a s',
          act a s = Some s' ->
          BulkDelete.load_requests (script s) < BulkDelete.load_requests (script s') ->
          BulkDelete.deleteScriptPromise (script s) = None).
Proof.
  intros acts s0 s Hnew Hrun.
  destruct (perform_is_run acts s0 s Hrun) as (evs & Hevs & Hq & Hi).
  rewrite Hnew in Hevs.
  destruct (BulkDelete.coalescing evs (script s) Hq Hevs) as (H1 & H2 & H3).
  rewrite Hi in H1. split; [exact H1|]. split; [exact H2|]. split; [exact H3|].
  intros a s' Ha Hlt.
  destruct (act_is_step a s s' Ha) as (ev & Hst & _ & _).
  destruct (BulkDelete.load_only_when_not_loaded ev _ _ Hst Hlt)
    as [Hn|(i & pattern & p & e & _ & Hc & Hp & He)]; [exact Hn|].
  pose proof (BulkDelete.coalesced_run evs _ _ Hq BulkDelete.new_store_coalesced Hevs)
    as [(_ & Hps & _)|(_ & (st & Hps & Hno) & _)].
  - rewrite Hps in Hp. destruct p; discriminate.
  - rewrite Hps in Hp. destruct p as [|[|p]]; try discriminate.
    inversion Hp as [Hst0]. rewrite (Hno e Hst0) in He. discriminate.
Qed.

(** *** The other methods *)

Lemma serves_kept (d : Z) (s s' : t) :
  serves d s ->
  (forall c, In c (Pool.available (pool s')) -> In c (Pool.available (pool s))) ->
  Pool.selected (pool s') = Pool.selected (pool s) ->
  serves d s'.
Proof.
  intros Hd Hin Hsel c Hc. unfold database, Pool.selected_db. rewrite Hsel.
  apply Hd, Hin, Hc.
Qed.


Lemma getTtl_served (s : t) (key : string) (c : nat) (rest : list nat) :
  Pool.available (pool s) = c :: rest ->
  exists s' : t,
    getTtl key s
    = Some (Resolved
              (JNum (match stored (database c s) key s with
                     | Some e =>
                         match Redis.e_ttl e with Some n => n | None => (-1)%Z end
                     | None => (-2)%Z
                     end)), s')
    /\ Redis.unchanged (Pool.backend (pool s)) (Pool.backend (pool s'))
    /\ Pool.available (pool s') = rest ++ [c]
    /\ Pool.selected (pool s') = Pool.selected (pool s).
Proof.
  intros Hav. unfold getTtl, stored, keyspace, database.
  destruct (sendCommand_served "ttl" [JStr key] (pool s) c rest Hav)
    as (w' & Hs & Hb & Ha & Hsel).
  unfold Redis.command in Hs, Hb. rewrite Redis.answer_ttl in Hs, Hb.
  cbn [fst snd Redis.select Redis.slots] in Hs, Hb. rewrite Hs. cbn [with_pool].
  eexists. split; [reflexivity|]. cbn [pool]. rewrite Hb.
  split; [apply Redis.commit_select|auto].
Qed.

(** X7. [get] resolves with null when the key is missing from the database
    selected on the connection that carries the command; when the key is
    there it resolves with what [JSON.parse] makes of the stored text, or
    with the text itself when [JSON.parse] throws.  It changes neither the
    server's state nor the store's settings. *)
Theorem get_reads_the_key :
  forall (s : t) (key : string) (c : nat) (rest : list nat),
    Pool.available (pool s) = c :: rest ->
    exists s' : t,
      get key s
      = Some (Resolved
                (match stored (database c s) key s with
                 | Some e =>
                     match JSON_parse (Redis.e_value e) with
                     | Some v => v
                     | None => JStr (Redis.e_value e)
                     end
                 | None => JNull
                 end), s')
      /\ Redis.unchanged (Pool.backend (pool s)) (Pool.backend (pool s'))
      /\ defaulTtlInS s' = defaulTtlInS s
      /\ script s' = script s.
Proof.
  intros s key c rest Hav.
  destruct (get_served s key c rest Hav) as (s' & Hget & Hsame & _ & _ & Hd & Hsc).
  exists s'. split; [|auto]. rewrite Hget. unfold decode. reflexivity.
Qed.

(** X8. A safe integer round-trips as a number when both commands reach
    the same database: [set] hands it to the client as it is, the server
    keeps its decimal text, and [get] reads that text back as the number
    ([JSON.parse] reading back what [JSON.stringify] writes). *)
Theorem set_then_get_number :
  forall (s : t) (key : string) (z : Z) (ttlInSeconds ttl : option Z) (d : Z)
         (c : nat) (rest : list nat),
    Pool.available (pool s) = c :: rest ->
    serves d s ->
    positive_ttl (defaulTtlInS s) ->
    validatedTtl ttlInSeconds (defaulTtlInS s) = Resolved ttl ->
    Json.reads_back JSON_parse ->
    (Z.abs z <= 9007199254740991)%Z ->
    exists s1 s2 : t,
      set key (JNum z) ttlInSeconds s = Some (Resolved (JStr "OK"), s1)
      /\ stored d key s1 = Some (Redis.mkEntry key (Json.print_Z z) ttl)
      /\ get key s1 = Some (Resolved (JNum z), s2).
Proof.
  intros s key z ttlInSeconds ttl d c rest Hav Hd Hdef Hv Hjson Hz.
  pose proof (validatedTtl_positive _ _ _ Hdef Hv) as Hpos.
  destruct (set_then_get s key (JNum z) ttlInSeconds ttl d c rest (Json.print_Z z)
              Hav Hd Hv Hpos eq_refl) as (s1 & s2 & Hset & Hl & Hget).
  exists s1, s2. split; [exact Hset|]. split; [exact Hl|].
  rewrite Hget. unfold decode.
  change (Json.print_Z z) with (Json.stringify (JNum z)).
  rewrite (Hjson (JNum z)); [reflexivity|].
  simpl. unfold Json.safe_integer. now apply Z.leb_le.
Qed.

(** X9. After [set], [getTtl] on the same database answers the time to live
    the value was written with: the one given, else the store's default,
    else -1 (no expiry). *)
Theorem set_then_getTtl :
  forall (s : t) (key : string) (value : js_value) (ttlInSeconds ttl : option Z)
         (d : Z) (c : nat) (rest : list nat),
    Pool.available (pool s) = c :: rest ->
    serves d s ->
    positive_ttl (defaulTtlInS s) ->
    validatedTtl ttlInSeconds (defaulTtlInS s) = Resolved ttl ->
    exists s1 s2 : t,
      set key value ttlInSeconds s = Some (Resolved (JStr "OK"), s1)
      /\ getTtl key s1
         = Some (Resolved (JNum (match ttl with Some n => n | None => (-1)%Z end)),
                 s2).
Proof.
  intros s key value ttlInSeconds ttl d c rest Hav Hd Hdef Hv.
  pose proof (validatedTtl_positive _ _ _ Hdef Hv) as Hpos.
  destruct (wire_encode value) as (text & Hw).
  destruct (set_served s key value ttlInSeconds ttl c rest text Hav Hv Hpos Hw)
    as (s1 & Hset & Hl & Ha & Hsel & _).
  rewrite (serves_head d s c rest Hd Hav) in Hl.
  destruct (serves_after d s s1 c rest Hd Hav Ha Hsel)
    as (_ & c' & rest' & Hav1 & Hc').
  destruct (getTtl_served s1 key c' rest' Hav1) as (s2 & Httl & _).
  exists s1, s2. split; [exact Hset|].
  rewrite Httl, Hc', Hl. reflexivity.
Qed.

Lemma getset_served (s : t) (key : string) (value : js_value)
  (ttlInSeconds ttl : option Z) (d : Z) (c : nat) (rest : list nat)
  (text : string) :
  Pool.available (pool s) = c :: rest ->
  serves d s ->
  validatedTtl ttlInSeconds (defaulTtlInS s) = Resolved ttl ->
  positive_ttl ttl ->
  Redis.wire (encode value) = Some text ->
  exists s' : t,
    getset key value ttlInSeconds s
    = Some (Resolved (match stored d key s with
                      | Some e => decode (JStr (Redis.e_value e))
                      | None => JNull
                      end), s')
    /\ stored d key s' = Some (Redis.mkEntry key text ttl)
    /\ (forall key', key' <> key -> stored d key' s' = stored d key' s)
    /\ (forall d', d' <> d -> keyspace d' s' = keyspace d' s)
    /\ Pool.available (pool s') <> []
    /\ serves d s'
    /\ defaulTtlInS s' = defaulTtlInS s.
Proof.
  intros Hav Hd Hv Hpos Hw.
  pose proof (serves_head d s c rest Hd Hav) as Hc.
  unfold getset. rewrite Hv.
  destruct (sendCommand_served "getset" [JStr key; encode value] (pool s) c rest Hav)
    as (w1 & Hs & Hb & Ha & Hsel).
  unfold database in Hc. rewrite Hc in Hs, Hb.
  unfold Redis.command in Hs, Hb.
  rewrite (Redis.answer_getset glob_match sha1 key text _ _ Hw) in Hs, Hb.
  cbn [fst snd Redis.select Redis.slots Redis.script_cache] in Hs, Hb.
  rewrite Hs. unfold stored, keyspace.
  set (old := Redis.lookup key (Redis.databases (Pool.backend (pool s)) d)) in *.
  assert (Hd1 : serves d (mk (defaulTtlInS s) (script s) w1)
                /\ exists c' rest',
                     Pool.available w1 = c' :: rest'
                     /\ Pool.selected_db Redis.server c' w1 = d).
  { exact (serves_after d s (mk (defaulTtlInS s) (script s) w1) c rest
             Hd Hav Ha Hsel). }
  destruct Hd1 as (Hd1 & c' & rest' & Hav1 & Hc').
  assert (Hres : decode (match old with
                         | Some e => JStr (Redis.e_value e)
                         | None => JNull
                         end)
                 = match old with
                   | Some e => decode (JStr (Redis.e_value e))
                   | None => JNull
                   end) by now destruct old.
  assert (Hfirst : forall o : outcome js_value,
            match old with
            | Some e => Resolved (JStr (Redis.e_value e))
            | None => Resolved JNull
            end = o ->
            o = Resolved (match old with
                          | Some e => JStr (Redis.e_value e)
                          | None => JNull
                          end)) by (intros o <-; now destruct old).
  rewrite (Hfirst _ eq_refl). cbv iota. rewrite Hres.
  destruct ttl as [n|]; simpl in Hpos.
  - rewrite (truthy_positive n Hpos).
    destruct (sendCommand_served "expire" [JStr key; JNum n] w1 c' rest' Hav1)
      as (w2 & Hs2 & Hb2 & Ha2 & Hsel2).
    rewrite Hc' in Hs2, Hb2. unfold Redis.command in Hs2, Hb2.
    rewrite (Redis.answer_expire glob_match sha1 key n _ Hpos) in Hs2, Hb2.
    rewrite Hb in Hs2, Hb2.
    cbn [Redis.select Redis.slots] in Hs2, Hb2.
    rewrite Redis.databases_commit_same in Hs2, Hb2.
    cbn [Redis.slots] in Hs2, Hb2.
    rewrite (Redis.lookup_put (Redis.mkEntry key text None)) in Hs2, Hb2.
    cbn [fst snd Redis.e_value Redis.script_cache Redis.slots] in Hs2, Hb2.
    rewrite Hs2.
    eexists. split; [reflexivity|]. cbn [pool defaulTtlInS].
    rewrite Hb2. rewrite !Redis.databases_commit_same. cbn [Redis.slots].
    split; [apply (Redis.lookup_put (Redis.mkEntry key text (Some n)))|].
    split.
    { intros key' Hne.
      rewrite (Redis.lookup_put_other (Redis.mkEntry key text (Some n))) by exact Hne.
      now rewrite (Redis.lookup_put_other (Redis.mkEntry key text None)) by exact Hne. }
    split.
    { intros d' Hne. rewrite !Redis.databases_commit_other by exact Hne.
      reflexivity. }
    split; [rewrite Ha2; destruct rest'; discriminate|].
    split; [|reflexivity].
    apply (serves_kept d (mk (defaulTtlInS s) (script s) w1)); [exact Hd1| |exact Hsel2].
    cbn [pool]. intros c0 Hin. rewrite Ha2 in Hin. rewrite Hav1.
    apply in_app_or in Hin as [Hin|[Hin|[]]]; [now right|now left].
  - eexists. split; [reflexivity|]. cbn [pool defaulTtlInS].
    rewrite Hb. rewrite !Redis.databases_commit_same. cbn [Redis.slots].
    split; [apply (Redis.lookup_put (Redis.mkEntry key text None))|].
    split.
    { intros key' Hne.
      now rewrite (Redis.lookup_put_other (Redis.mkEntry key text None)) by exact Hne. }
    split.
    { intros d' Hne. now rewrite Redis.databases_commit_other by exact Hne. }
    split; [rewrite Hav1; discriminate|].
    split; [exact Hd1|reflexivity].
Qed.

(** X10. With the idle connections on one database, [getset] resolves with
    the value the key held before, read as [get] reads it (null when the
    key was missing), and leaves the new value under the key, which [get]
    then gives back.  The key's time to live is afterwards the one given,
    else the store's default; with neither, the key has no expiry, whatever
    it had before.  Other keys are untouched. *)
Theorem getset_returns_previous_value :
  forall (s : t) (key : string) (value : js_value) (ttlInSeconds ttl : option Z)
         (d : Z) (c : nat) (rest : list nat),
    Pool.available (pool s) = c :: rest ->
    serves d s ->
    positive_ttl (defaulTtlInS s) ->
    validatedTtl ttlInSeconds (defaulTtlInS s) = Resolved ttl ->
    exists (text : string) (s1 s2 s3 : t),
      Redis.wire (encode value) = Some text
      /\ getset key value ttlInSeconds s
         = Some (Resolved (match stored d key s with
                           | Some e => decode (JStr (Redis.e_value e))
                           | None => JNull
                           end), s1)
      /\ get key s1 = Some (Resolved (decode (JStr text)), s2)
      /\ getTtl key s1
         = Some (Resolved (JNum (match ttl with Some n => n | None => (-1)%Z end)),
                 s3)
      /\ (forall key', key' <> key -> stored d key' s1 = stored d key' s).
Proof.
  intros s key value ttlInSeconds ttl d c rest Hav Hd Hdef Hv.
  pose proof (validatedTtl_positive _ _ _ Hdef Hv) as Hpos.
  destruct (wire_encode value) as (text & Hw).
  destruct (getset_served s key value ttlInSeconds ttl d c rest text
              Hav Hd Hv Hpos Hw)
    as (s1 & Hgs & Hl & Hother & _ & Ha & Hd1 & _).
  destruct (Pool.available (pool s1)) as [|c' rest'] eqn:Hav1; [congruence|].
  pose proof (serves_head d s1 c' rest' Hd1 Hav1) as Hc'.
  destruct (get_served s1 key c' rest' Hav1) as (s2 & Hget & _).
  destruct (getTtl_served s1 key c' rest' Hav1) as (s3 & Httl & _).
  rewrite Hc', Hl in Hget, Httl.
  exists text, s1, s2, s3. repeat split; auto.
Qed.

(** X11. [del] removes every key of a list that is not empty from the
    database selected on the connection that carries the command, and
    resolves with the number of keys that database has lost: afterwards a
    listed key is missing there and any other key has the entry it had.
    The other databases are untouched. *)
Theorem del_removes_the_keys :
  forall (s : t) (keys : list string) (c : nat) (rest : list nat),
    Pool.available (pool s) = c :: rest ->
    keys <> [] ->
    NoDup (Redis.keys_of (keyspace (database c s) s)) ->
    exists (n : nat) (s' : t),
      del (Some keys) s = Some (Resolved (JNum (Z.of_nat n)), s')
      /\ n + List.length (Redis.keys_of (keyspace (database c s) s'))
         = List.length (Redis.keys_of (keyspace (database c s) s))
      /\ (forall key,
            stored (database c s) key s'
            = if existsb (String.eqb key) keys then None
              else stored (database c s) key s)
      /\ (forall d', d' <> database c s -> keyspace d' s' = keyspace d' s).
Proof.
  intros s keys c rest Hav Hne Hnd. unfold del, stored, keyspace, database in *.
  destruct (sendCommand_served "del" (map JStr keys) (pool s) c rest Hav)
    as (w' & Hs & Hb & _).
  assert (Hargs : match map JStr keys with [] => None | _ => Some (map JStr keys) end
                  = Some (map JStr keys)).
  { destruct keys; [congruence|reflexivity]. }
  unfold Redis.command in Hs, Hb.
  rewrite Hargs, (Redis.answer_del glob_match sha1 keys _ Hne) in Hs, Hb.
  cbn [fst snd Redis.select Redis.slots] in Hs, Hb. rewrite Hs. cbn [with_pool].
  eexists. eexists. split; [reflexivity|]. cbn [pool]. rewrite Hb.
  rewrite Redis.databases_commit_same. cbn [Redis.slots]. split; [|split].
  - pose proof (Redis.unlink_each_counts keys 0 _ Hnd) as (Hc & _). exact Hc.
  - intros key. rewrite Redis.unlink_each_drop. apply Redis.lookup_drop.
  - intros d' Hd'. now apply Redis.databases_commit_other.
Qed.

(** X12. [del] without keys (none given, or an empty list) does not resolve
    with 0: the command goes out without arguments, the server refuses it,
    and [del] rejects with the server's error.  Nothing is removed and the
    connection is back in the pool. *)
Theorem del_without_keys :
  forall (s : t) (keys : option (list string)) (c : nat) (rest : list nat),
    Pool.available (pool s) = c :: rest ->
    match keys with Some l => l = [] | None => True end ->
    exists s' : t,
      del keys s = Some (Rejected Redis.unknown_command, s')
      /\ Redis.unchanged (Pool.backend (pool s)) (Pool.backend (pool s'))
      /\ Pool.available (pool s') = rest ++ [c].
Proof.
  intros s keys c rest Hav Hk. unfold del.
  assert (Hl : match keys with Some l => l | None => [] end = []).
  { destruct keys as [l|]; [exact Hk|reflexivity]. }
  rewrite Hl. cbn [map].
  destruct (sendCommand_served "del" [] (pool s) c rest Hav)
    as (w' & Hs & Hb & Ha & _).
  unfold Redis.command in Hs, Hb. rewrite Redis.answer_del_nothing in Hs, Hb.
  cbn [fst snd] in Hs, Hb. rewrite Hs. cbn [with_pool].
  eexists. split; [reflexivity|]. cbn [pool]. rewrite Hb.
  split; [apply Redis.commit_select|exact Ha].
Qed.

(** X13. With the idle connections on one database, [expire] with a time to
    live that is accepted resolves with 1 and gives the key that time to
    live, which [getTtl] then answers, the value staying as it was; on a
    missing key it resolves with 0 and creates nothing ([getTtl] answers
    -2).  Other keys are untouched. *)
Theorem expire_sets_the_time_to_live :
  forall (s : t) (key : string) (ttlInSeconds n : Z) (d : Z)
         (c : nat) (rest : list nat),
    Pool.available (pool s) = c :: rest ->
    serves d s ->
    validatedTtl (Some ttlInSeconds) None = Resolved (Some n) ->
    (0 < n)%Z ->
    exists s1 s2 : t,
      expire key ttlInSeconds s
      = Some (Resolved (JNum (match stored d key s with
                              | Some _ => 1
                              | None => 0
                              end)), s1)
      /\ stored d key s1
         = match stored d key s with
           | Some e => Some (Redis.mkEntry key (Redis.e_value e) (Some n))
           | None => None
           end
      /\ getTtl key s1
         = Some (Resolved (JNum (match stored d key s with
                                 | Some _ => n
                                 | None => (-2)%Z
                                 end)), s2)
      /\ (forall key', key' <> key -> stored d key' s1 = stored d key' s).
Proof.
  intros s key ttlInSeconds n d c rest Hav Hd Hv Hpos. unfold expire. rewrite Hv.
  pose proof (serves_head d s c rest Hd Hav) as Hc.
  destruct (sendCommand_served "expire" [JStr key; JNum n] (pool s) c rest Hav)
    as (w1 & Hs & Hb & Ha & Hsel).
  unfold database in Hc. rewrite Hc in Hs, Hb.
  unfold Redis.command in Hs, Hb.
  rewrite (Redis.answer_expire glob_match sha1 key n _ Hpos) in Hs, Hb.
  cbn [Redis.select Redis.slots] in Hs, Hb.
  destruct (serves_after d s (mk (defaulTtlInS s) (script s) w1) c rest
              Hd Hav Ha Hsel) as (_ & c' & rest' & Hav1 & Hc').
  destruct (getTtl_served (mk (defaulTtlInS s) (script s) w1) key c' rest' Hav1)
    as (s2 & Httl & _).
  rewrite Hc' in Httl.
  unfold stored, keyspace in *. cbn [pool] in Httl.
  destruct (Redis.lookup key (Redis.databases (Pool.backend (pool s)) d))
    as [e|] eqn:Hl; cbn [fst snd] in Hs, Hb; rewrite Hs; cbn [with_pool].
  - assert (Hl1 : Redis.lookup key (Redis.databases (Pool.backend w1) d)
                  = Some (Redis.mkEntry key (Redis.e_value e) (Some n))).
    { rewrite Hb, Redis.databases_commit_same. cbn [Redis.slots].
      apply (Redis.lookup_put (Redis.mkEntry key (Redis.e_value e) (Some n))). }
    rewrite Hl1 in Httl. cbn [Redis.e_ttl] in Httl.
    eexists. exists s2. split; [reflexivity|]. cbn [pool].
    split; [exact Hl1|]. split; [exact Httl|].
    intros key' Hne. rewrite Hb, Redis.databases_commit_same. cbn [Redis.slots].
    now apply (Redis.lookup_put_other (Redis.mkEntry key (Redis.e_value e) (Some n))).
  - assert (Hl1 : Redis.lookup key (Redis.databases (Pool.backend w1) d) = None).
    { rewrite Hb, Redis.databases_commit_same. exact Hl. }
    rewrite Hl1 in Httl.
    eexists. exists s2. split; [reflexivity|]. cbn [pool].
    split; [exact Hl1|]. split; [exact Httl|].
    intros key' Hne. now rewrite Hb, Redis.databases_commit_same.
Qed.

(** X14. [ping] without a string, and with the empty string, resolves with
    PONG; with any other string it resolves with that string.  The server's
    state is untouched and the connection is back in the pool. *)
Theorem ping_answers :
  forall (s : t) (str : option string) (c : nat) (rest : list nat),
    Pool.available (pool s) = c :: rest ->
    exists s' : t,
      ping str s
      = Some (Resolved (JStr (match str with
                              | Some (String a r) => String a r
                              | _ => "PONG"%string
                              end)), s')
      /\ Redis.unchanged (Pool.backend (pool s)) (Pool.backend (pool s'))
      /\ Pool.available (pool s') = rest ++ [c].
Proof.
  intros s str c rest Hav. unfold ping.
  destruct str as [[|a r]|]; cbn [truthy_string].
  - destruct (sendCommand_served "ping" [] (pool s) c rest Hav)
      as (w' & Hs & Hb & Ha & _).
    unfold Redis.command in Hs, Hb. rewrite Redis.answer_ping in Hs, Hb.
    cbn [fst snd] in Hs, Hb. rewrite Hs. cbn [with_pool].
    eexists. split; [reflexivity|]. cbn [pool]. rewrite Hb.
    split; [apply Redis.commit_select|exact Ha].
  - destruct (sendCommand_served "ping" [JStr (String a r)] (pool s) c rest Hav)
      as (w' & Hs & Hb & Ha & _).
    unfold Redis.command in Hs, Hb. rewrite Redis.answer_ping_message in Hs, Hb.
    cbn [fst snd] in Hs, Hb. rewrite Hs. cbn [with_pool].
    eexists. split; [reflexivity|]. cbn [pool]. rewrite Hb.
    split; [apply Redis.commit_select|exact Ha].
  - destruct (sendCommand_served "ping" [] (pool s) c rest Hav)
      as (w' & Hs & Hb & Ha & _).
    unfold Redis.command in Hs, Hb. rewrite Redis.answer_ping in Hs, Hb.
    cbn [fst snd] in Hs, Hb. rewrite Hs. cbn [with_pool].
    eexists. split; [reflexivity|]. cbn [pool]. rewrite Hb.
    split; [apply Redis.commit_select|exact Ha].
Qed.

(** X15. [setDefaultTtlInS] with a time it accepts makes that time the
    default: [getDefaultTtlInS] gives it back and a [set] without a time to
    live writes the key with it, as [getTtl] on the same database then
    answers.  After [unsetDefaultTtlInS] there is no default and such a
    [set] writes the key without expiry. *)
Theorem setDefaultTtlInS_then_set :
  forall (s s0 : t) (ttl : Z) (key : string) (value : js_value) (d : Z)
         (c : nat) (rest : list nat),
    Pool.available (pool s) = c :: rest ->
    serves d s ->
    setDefaultTtlInS ttl s = Resolved s0 ->
    getDefaultTtlInS s0 = Some ttl
    /\ (exists s1 s2 : t,
          set key value None s0 = Some (Resolved (JStr "OK"), s1)
          /\ getTtl key s1 = Some (Resolved (JNum ttl), s2))
    /\ getDefaultTtlInS (unsetDefaultTtlInS s0) = None
    /\ (exists s1 s2 : t,
          set key value None (unsetDefaultTtlInS s0)
          = Some (Resolved (JStr "OK"), s1)
          /\ getTtl key s1 = Some (Resolved (JNum (-1)), s2)).
Proof.
  intros s s0 ttl key value d c rest Hav Hd Hset.
  unfold setDefaultTtlInS, validatedTtl in Hset.
  destruct (Z.ltb_spec 0 ttl) as [Hpos|]; [|discriminate].
  inversion Hset; subst s0; clear Hset.
  destruct (wire_encode value) as (text & Hw).
  split; [reflexivity|]. split; [|split; [reflexivity|]].
  - destruct (set_served (mk (Some ttl) (script s) (pool s)) key value None
                (Some ttl) c rest text Hav eq_refl Hpos Hw)
      as (s1 & Hs & Hl & Ha & Hsel & _).
    rewrite (serves_head d (mk (Some ttl) (script s) (pool s)) c rest Hd Hav) in Hl.
    destruct (serves_after d (mk (Some ttl) (script s) (pool s)) s1 c rest
                Hd Hav Ha Hsel) as (_ & c' & rest' & Hav1 & Hc').
    destruct (getTtl_served s1 key c' rest' Hav1) as (s2 & Httl & _).
    exists s1, s2. split; [exact Hs|].
    rewrite Httl, Hc', Hl. reflexivity.
  - destruct (set_served (unsetDefaultTtlInS (mk (Some ttl) (script s) (pool s)))
                key value None None c rest text Hav eq_refl I Hw)
      as (s1 & Hs & Hl & Ha & Hsel & _).
    rewrite (serves_head d (unsetDefaultTtlInS (mk (Some ttl) (script s) (pool s)))
               c rest Hd Hav) in Hl.
    destruct (serves_after d (unsetDefaultTtlInS (mk (Some ttl) (script s) (pool s)))
                s1 c rest Hd Hav Ha Hsel) as (_ & c' & rest' & Hav1 & Hc').
    destruct (getTtl_served s1 key c' rest' Hav1) as (s2 & Httl & _).
    exists s1, s2. split; [exact Hs|].
    rewrite Httl, Hc', Hl. reflexivity.
Qed.

(** *** [deleteAll] among the other methods *)




End WithEnvironment.

(** A glob matcher for the examples: [*] is any run of characters, [?] any
    one character, anything else itself. *)
Fixpoint glob (pattern : string) (s : string) : bool :=
  match pattern with
  | EmptyString => match s with EmptyString => true | _ => false end
  | String p pattern' =>
      if Ascii.eqb p "*" then
        (fix star (s : string) : bool :=
           glob pattern' s
           || match s with
              | String _ s' => star s'
              | EmptyString => false
              end) s
      else
        match s with
        | String c s' => (Ascii.eqb p "?" || Ascii.eqb p c) && glob pattern' s'
        | EmptyString => false
        end
  end.

(** *** Concrete stores *)

Definition sha1_stub (_ : string) : string :=
  "6b1bf486c81ceb7edf3c093f4c48582e38c0e791"%string.

Definition no_failure (_ : nat) : option js_error := None.

Definition one_connection : Pool.options := Pool.mkOptions None None 1.

Definition two_connections : Pool.options := Pool.mkOptions None None 2.

(** A store with an idle connection on database 0, which has the given
    keyspace; the other databases are empty. *)
Definition idle_store (defaulTtl : option Z) (ks : Redis.keyspace) : t :=
  mk defaulTtl BulkDelete.new_store
     (Pool.mkWorld [0] [] 1 1 [(0, 0%Z)]
        (Redis.mkServer (fun d => if (d =? 0)%Z then ks else []) []) []).

(** A store with two idle connections, the first with database 2 selected
    and the second with database 5, over an empty server. *)
Definition two_databases : t :=
  mk None BulkDelete.new_store
     (Pool.mkWorld [0; 1] [] 2 2 [(0, 2%Z); (1, 5%Z)]
        (Redis.mkServer (fun _ => []) []) []).

Definition three_keys : Redis.keyspace :=
  [Some (Redis.mkEntry "user:1" "ann" None);
   Some (Redis.mkEntry "job:1" "build" (Some 60%Z));
   Some (Redis.mkEntry "user:2" "bob" None)].

(** [n] keys k0, k1, ... *)
Definition many_keys (n : nat) : Redis.keyspace :=
  map (fun i => Some (Redis.mkEntry
                        (String "k" (NilEmpty.string_of_uint (Nat.to_uint i)))
                        "v" None))
      (seq 0 n).

Lemma three_keys_distinct : NoDup (Redis.keys_of three_keys).
Proof.
  repeat constructor; simpl; intuition discriminate.
Defined.

Lemma idle_store_serves (defaulTtl : option Z) (ks : Redis.keyspace) :
  serves 0 (idle_store defaulTtl ks).
Proof.
  intros c [<-|[]]. reflexivity.
Defined.

Lemma deleteAll_removes_matching_keys_witness :
  exists s' : t,
    deleteAll glob sha1_stub no_failure one_connection 4 (Some "user:*"%string)
              (idle_store None three_keys)
    = Some (Resolved (JNum 2), s')
    /\ keyspace 0 s'
       = [None; Some (Redis.mkEntry "job:1" "build" (Some 60%Z)); None]
    /\ keyspace 1 s' = [].
Proof.
  destruct (deleteAll_removes_matching_keys glob sha1_stub no_failure one_connection
              (idle_store None three_keys) (Some "user:*"%string) 4 0 []
              eq_refl three_keys_distinct (or_introl eq_refl) (le_n 4))
    as (s' & sha & H1 & H2 & H3 & _).
  exists s'. split; [exact H1|]. split; [exact H2|].
  exact (H3 1%Z ltac:(discriminate)).
Defined.

(** No key, one key, and more keys than a chunk holds: 2500 keys take three
    chunks of 1000 (two rounds of the loop are not enough, three are). *)
Example deleteAll_no_key :
  option_map fst (deleteAll glob sha1_stub no_failure one_connection 4 None
                            (idle_store None []))
  = Some (Resolved (JNum 0)).
Proof. reflexivity. Qed.

Example deleteAll_one_key :
  option_map fst (deleteAll glob sha1_stub no_failure one_connection 4 None
                            (idle_store None (many_keys 1)))
  = Some (Resolved (JNum 1)).
Proof. reflexivity. Qed.

Example deleteAll_2500_keys :
  option_map (fun r => (fst r, Redis.keys_of (keyspace 0 (snd r))))
             (deleteAll glob sha1_stub no_failure one_connection 4 None
                        (idle_store None (many_keys 2500)))
  = Some (Resolved (JNum 2500), [])
  /\ Redis.scan_loop glob 2 "*" 1000 0 0 (many_keys 2500) = None
  /\ option_map fst (Redis.scan_loop glob 3 "*" 1000 0 0 (many_keys 2500))
     = Some 2500.
Proof. vm_compute. repeat split. Qed.

Lemma deleteAll_calls_share_one_load_witness :
  exists s : t,
    perform glob sha1_stub no_failure one_connection
      [Call None; Call (Some "user:*"%string); Call None; LoadAnswer 0;
       Continue 1; ExecAnswer 1; Call None]
      (idle_store None three_keys)
    = Some s
    /\ BulkDelete.load_requests (script s) = 1
    /\ BulkDelete.loads_in_flight (script s) <= 1.
Proof.
  destruct (perform glob sha1_stub no_failure one_connection
              [Call None; Call (Some "user:*"%string); Call None; LoadAnswer 0;
               Continue 1; ExecAnswer 1; Call None]
              (idle_store None three_keys)) as [s|] eqn:Hrun.
  - exists s. split; [reflexivity|].
    destruct (deleteAll_calls_share_one_load glob sha1_stub no_failure one_connection
                [Call None; Call (Some "user:*"%string); Call None; LoadAnswer 0;
                 Continue 1; ExecAnswer 1; Call None]
                (idle_store None three_keys) s eq_refl Hrun) as (H1 & H2 & _).
    split; [exact H1|exact H2].
  - vm_compute in Hrun. discriminate Hrun.
Defined.

(** C9, the claim as stated fails: the plain string 123 comes back from
    [get] as the number 123. *)
Lemma numeric_string_comes_back_as_number :
  IsJson.isJSON_string "123" = false
  /\ exists s1 s2 : t,
       set glob sha1_stub IsJson.isJSON_string no_failure one_connection
           "k" (JStr "123") None (idle_store None [])
       = Some (Resolved (JStr "OK"), s1)
       /\ get glob sha1_stub Json.parse no_failure one_connection "k" s1
          = Some (Resolved (JNum 123), s2).
Proof.
  split; [reflexivity|]. do 2 eexists. split; reflexivity.
Qed.

Lemma set_then_get_round_trip_witness :
  (exists s1 s2 : t,
     set glob sha1_stub IsJson.isJSON_string no_failure one_connection
         "k" (JObj [("tags"%string, JArr [JStr "a"; JNum (-7); JNull])])
         (Some 30%Z) (idle_store None three_keys)
     = Some (Resolved (JStr "OK"), s1)
     /\ get glob sha1_stub Json.parse no_failure one_connection "k" s1
        = Some (Resolved (JObj [("tags"%string, JArr [JStr "a"; JNum (-7); JNull])]), s2))
  /\ (exists s1 s2 : t,
        set glob sha1_stub IsJson.isJSON_string no_failure one_connection
            "k" (JStr "hello world") (Some 30%Z) (idle_store None three_keys)
        = Some (Resolved (JStr "OK"), s1)
        /\ get glob sha1_stub Json.parse no_failure one_connection "k" s1
           = Some (Resolved (JStr "hello world"), s2)).
Proof.
  pose proof (set_then_get_round_trip glob sha1_stub IsJson.isJSON_string Json.parse
                no_failure one_connection (idle_store None three_keys) "k"%string
                (Some 30%Z) (Some 30%Z) 0%Z 0 [] eq_refl
                (idle_store_serves None three_keys) I eq_refl
                Json.parse_reads_back) as (H1 & H2 & _).
  split.
  - exact (H1 (JObj [("tags"%string, JArr [JStr "a"; JNum (-7); JNull])])
              eq_refl (or_introl eq_refl)).
  - exact (H2 "hello world"%string (or_intror eq_refl)).
Defined.

Lemma set_uses_default_ttl_witness :
  set glob sha1_stub IsJson.isJSON_string no_failure one_connection
      "k" (JStr "v") None (idle_store (Some 60%Z) [])
  = with_pool (idle_store (Some 60%Z) [])
      (sendCommand glob sha1_stub no_failure one_connection
         "setex" [JStr "k"; JNum 60; JStr "v"]
         (pool (idle_store (Some 60%Z) [])))
  /\ set glob sha1_stub IsJson.isJSON_string no_failure one_connection
         "k" (JStr "v") None (idle_store None [])
     = with_pool (idle_store None [])
         (sendCommand glob sha1_stub no_failure one_connection
            "set" [JStr "k"; JStr "v"]
            (pool (idle_store None []))).
Proof.
  split.
  - exact (proj1 (proj1 (set_uses_default_ttl glob sha1_stub IsJson.isJSON_string
                           no_failure one_connection
                           (idle_store (Some 60%Z) []) "k"%string (JStr "v"))
                    60%Z eq_refl)).
  - exact (proj1 (proj2 (set_uses_default_ttl glob sha1_stub IsJson.isJSON_string
                           no_failure one_connection
                           (idle_store None []) "k"%string (JStr "v"))
                    eq_refl)).
Defined.

(** Two idle connections with different databases selected: the value that
    [set] writes goes to database 2, and the [get] that follows looks in
    database 5. *)
Example set_and_get_on_two_databases :
  exists s1 s2 : t,
    set glob sha1_stub IsJson.isJSON_string no_failure two_connections
        "k" (JStr "v") None two_databases
    = Some (Resolved (JStr "OK"), s1)
    /\ stored 2 "k" s1 = Some (Redis.mkEntry "k" "v" None)
    /\ stored 5 "k" s1 = None
    /\ get glob sha1_stub Json.parse no_failure two_connections "k" s1
       = Some (Resolved JNull, s2).
Proof. do 2 eexists. repeat split. Qed.

(** *** The other methods on concrete stores *)

Lemma get_reads_the_key_witness :
  (exists s' : t,
     get glob sha1_stub Json.parse no_failure one_connection "nobody"
         (idle_store None three_keys)
     = Some (Resolved JNull, s')
     /\ keyspace 0 s' = three_keys)
  /\ (exists s' : t,
        get glob sha1_stub Json.parse no_failure one_connection "job:1"
            (idle_store None three_keys)
        = Some (Resolved (JStr "build"), s')
        /\ keyspace 0 s' = three_keys).
Proof.
  split.
  - destruct (get_reads_the_key glob sha1_stub Json.parse no_failure one_connection
                (idle_store None three_keys) "nobody"%string 0 [] eq_refl)
      as (s' & H1 & H2 & _).
    exists s'. split; [exact H1|exact (proj1 H2 0%Z)].
  - destruct (get_reads_the_key glob sha1_stub Json.parse no_failure one_connection
                (idle_store None three_keys) "job:1"%string 0 [] eq_refl)
      as (s' & H1 & H2 & _).
    exists s'. split; [exact H1|exact (proj1 H2 0%Z)].
Defined.

Lemma set_then_get_number_witness :
  exists s1 s2 : t,
    set glob sha1_stub IsJson.isJSON_string no_failure one_connection
        "visits" (JNum 42) None (idle_store None three_keys)
    = Some (Resolved (JStr "OK"), s1)
    /\ stored 0 "visits" s1 = Some (Redis.mkEntry "visits" "42" None)
    /\ get glob sha1_stub Json.parse no_failure one_connection "visits" s1
       = Some (Resolved (JNum 42), s2).
Proof.
  exact (set_then_get_number glob sha1_stub IsJson.isJSON_string Json.parse no_failure
           one_connection (idle_store None three_keys) "visits"%string 42 None None
           0%Z 0 [] eq_refl (idle_store_serves None three_keys) I eq_refl
           Json.parse_reads_back
           (fun H : (Z.abs 42 ?= 9007199254740991)%Z = Gt =>
              eq_ind Lt (fun c => match c with Gt => False | _ => True end) I Gt H)).
Defined.

Lemma set_then_getTtl_witness :
  exists s1 s2 : t,
    set glob sha1_stub IsJson.isJSON_string no_failure one_connection
        "k" (JStr "v") (Some 30%Z) (idle_store (Some 60%Z) three_keys)
    = Some (Resolved (JStr "OK"), s1)
    /\ getTtl glob sha1_stub no_failure one_connection "k" s1
       = Some (Resolved (JNum 30), s2).
Proof.
  exact (set_then_getTtl glob sha1_stub IsJson.isJSON_string no_failure
           one_connection (idle_store (Some 60%Z) three_keys) "k"%string (JStr "v")
           (Some 30%Z) (Some 30%Z) 0%Z 0 [] eq_refl
           (idle_store_serves (Some 60%Z) three_keys) eq_refl eq_refl).
Defined.

Lemma getset_returns_previous_value_witness :
  exists s1 s2 s3 : t,
    getset glob sha1_stub IsJson.isJSON_string Json.parse no_failure one_connection
           "job:1" (JArr [JNum 1; JNum 2]) None (idle_store None three_keys)
    = Some (Resolved (JStr "build"), s1)
    /\ get glob sha1_stub Json.parse no_failure one_connection "job:1" s1
       = Some (Resolved (JArr [JNum 1; JNum 2]), s2)
    /\ getTtl glob sha1_stub no_failure one_connection "job:1" s1
       = Some (Resolved (JNum (-1)), s3)
    /\ stored 0 "user:1" s1 = Some (Redis.mkEntry "user:1" "ann" None).
Proof.
  destruct (getset_returns_previous_value glob sha1_stub IsJson.isJSON_string
              Json.parse no_failure one_connection (idle_store None three_keys)
              "job:1"%string (JArr [JNum 1; JNum 2]) None None 0%Z 0 [] eq_refl
              (idle_store_serves None three_keys) I eq_refl)
    as (text & s1 & s2 & s3 & Hw & Hgs & Hget & Httl & Hother).
  injection Hw as <-.
  exists s1, s2, s3. split; [exact Hgs|]. split; [exact Hget|].
  split; [exact Httl|].
  rewrite (Hother "user:1"%string); [reflexivity|discriminate].
Defined.

Lemma del_removes_the_keys_witness :
  exists (n : nat) (s' : t),
    del glob sha1_stub no_failure one_connection
        (Some ["user:1"; "nobody"]%string) (idle_store None three_keys)
    = Some (Resolved (JNum (Z.of_nat n)), s')
    /\ n + List.length (Redis.keys_of (keyspace 0 s')) = 3
    /\ stored 0 "user:1" s' = None
    /\ stored 0 "user:2" s' = Some (Redis.mkEntry "user:2" "bob" None).
Proof.
  destruct (del_removes_the_keys glob sha1_stub no_failure one_connection
              (idle_store None three_keys) ["user:1"; "nobody"]%string 0 []
              eq_refl ltac:(discriminate) three_keys_distinct)
    as (n & s' & Hd & Hc & Hl & _).
  exists n, s'. split; [exact Hd|]. split; [exact Hc|].
  split; [exact (Hl "user:1"%string)|exact (Hl "user:2"%string)].
Defined.

Lemma del_without_keys_witness :
  exists s' : t,
    del glob sha1_stub no_failure one_connection None (idle_store None three_keys)
    = Some (Rejected Redis.unknown_command, s')
    /\ keyspace 0 s' = three_keys
    /\ Pool.available (pool s') = [0].
Proof.
  destruct (del_without_keys glob sha1_stub no_failure one_connection
              (idle_store None three_keys) None 0 [] eq_refl I)
    as (s' & H1 & H2 & H3).
  exists s'. split; [exact H1|]. split; [exact (proj1 H2 0%Z)|exact H3].
Defined.

Lemma expire_sets_the_time_to_live_witness :
  exists s1 s2 : t,
    expire glob sha1_stub no_failure one_connection "user:1" 120
           (idle_store None three_keys)
    = Some (Resolved (JNum 1), s1)
    /\ stored 0 "user:1" s1 = Some (Redis.mkEntry "user:1" "ann" (Some 120%Z))
    /\ getTtl glob sha1_stub no_failure one_connection "user:1" s1
       = Some (Resolved (JNum 120), s2)
    /\ stored 0 "job:1" s1 = Some (Redis.mkEntry "job:1" "build" (Some 60%Z)).
Proof.
  destruct (expire_sets_the_time_to_live glob sha1_stub no_failure one_connection
              (idle_store None three_keys) "user:1"%string 120 120 0%Z 0 []
              eq_refl (idle_store_serves None three_keys) eq_refl eq_refl)
    as (s1 & s2 & He & Hl & Httl & Hother).
  exists s1, s2. split; [exact He|]. split; [exact Hl|]. split; [exact Httl|].
  rewrite (Hother "job:1"%string); [reflexivity|discriminate].
Defined.

Lemma ping_answers_witness :
  (exists s' : t,
     ping glob sha1_stub no_failure one_connection (Some ""%string)
          (idle_store None three_keys)
     = Some (Resolved (JStr "PONG"), s')
     /\ keyspace 0 s' = three_keys
     /\ Pool.available (pool s') = [0])
  /\ (exists s' : t,
        ping glob sha1_stub no_failure one_connection (Some "hello"%string)
             (idle_store None three_keys)
        = Some (Resolved (JStr "hello"), s')
        /\ keyspace 0 s' = three_keys
        /\ Pool.available (pool s') = [0]).
Proof.
  split.
  - destruct (ping_answers glob sha1_stub no_failure one_connection
                (idle_store None three_keys) (Some ""%string) 0 [] eq_refl)
      as (s' & H1 & H2 & H3).
    exists s'. split; [exact H1|]. split; [exact (proj1 H2 0%Z)|exact H3].
  - destruct (ping_answers glob sha1_stub no_failure one_connection
                (idle_store None three_keys) (Some "hello"%string) 0 [] eq_refl)
      as (s' & H1 & H2 & H3).
    exists s'. split; [exact H1|]. split; [exact (proj1 H2 0%Z)|exact H3].
Defined.

Lemma setDefaultTtlInS_then_set_witness :
  getDefaultTtlInS (idle_store (Some 60%Z) []) = Some 60%Z
  /\ (exists s1 s2 : t,
        set glob sha1_stub IsJson.isJSON_string no_failure one_connection
            "k" (JStr "v") None (idle_store (Some 60%Z) [])
        = Some (Resolved (JStr "OK"), s1)
        /\ getTtl glob sha1_stub no_failure one_connection "k" s1
           = Some (Resolved (JNum 60), s2))
  /\ getDefaultTtlInS (unsetDefaultTtlInS (idle_store (Some 60%Z) [])) = None
  /\ (exists s1 s2 : t,
        set glob sha1_stub IsJson.isJSON_string no_failure one_connection
            "k" (JStr "v") None (unsetDefaultTtlInS (idle_store (Some 60%Z) []))
        = Some (Resolved (JStr "OK"), s1)
        /\ getTtl glob sha1_stub no_failure one_connection "k" s1
           = Some (Resolved (JNum (-1)), s2)).
Proof.
  exact (setDefaultTtlInS_then_set glob sha1_stub IsJson.isJSON_string no_failure
           one_connection (idle_store None []) (idle_store (Some 60%Z) []) 60
           "k"%string (JStr "v") 0%Z 0 [] eq_refl (idle_store_serves None [])
           eq_refl).
Defined.



End Store.
